(** * An Earley recogniser for context-free grammars: model and properties

    Shallow embedding of [js/grammar.js] (Symbol, SymArray, Production,
    Grammar) and of the Earley parser that follows the page controller in
    [js/grammar_view.js] (State, Context, Earley.doesMatch, getDerivation).

    Conventions of the embedding.
    - A JS string is a [string]; one [ascii] stands for one code unit.
    - State objects live in a heap ([list State]); a reference to a State is
      its index there.  Buckets of the chart and [prev] arrays hold
      references, so the in-place growth of [equalState.prev] is seen through
      every alias, as in the source.  Every [prev] array of the source is a
      fresh array literal, so each State owns its array.
    - An exception is an [Exn]; a function that can throw or that touches the
      heap, the global [State.counter] or the Context runs in the monad [M].
    - [GRAMMAR_DEBUG] is taken to be false: logging is not modelled.
    - [State.counter] is a [nat]; the source counts in doubles, which count
      exactly up to 2^53 and stay there.  The model is the source as long as
      the counter is at most 2^53; the one property that rests on ids being
      distinct says so. *)

From Stdlib Require Import ZArith String Ascii List Bool Lia.
From stdpp Require Import base option list strings gmap.

Local Open Scope Z_scope.
Local Open Scope nat_scope.
Local Open Scope string_scope.
Local Open Scope list_scope.

(** ** grammar.js *)

(** [Symbol(ch, isTerminal)]: "a Symbol is a character that can either be a
    terminal or nonterminal".  [State.START_LHS] is one particular object,
    [new Symbol('', false)], the only Symbol without a character, which
    [State.hasStart] recognises by identity ([===]); it is kept apart from
    the Symbols made elsewhere. *)
Inductive Symbol : Type :=
  | START_LHS
  | Sym (c : ascii) (t : bool).

(** The field [ch], a string of one character (none for [START_LHS]). *)
Definition ch (s : Symbol) : string :=
  match s with START_LHS => "" | Sym c _ => String c "" end.

Definition isTerminal (s : Symbol) : bool :=
  match s with START_LHS => false | Sym _ t => t end.

(** [Symbol.prototype.equals] *)
Definition Symbol_equals (this other : Symbol) : bool :=
  String.eqb (ch this) (ch other) && Bool.eqb (isTerminal this) (isTerminal other).

(** [escapeHTML]: the serialisation of a text node by [innerHTML]. *)
Definition escapeChar (a : ascii) : string :=
  if Ascii.eqb a "&" then "&amp;"
  else if Ascii.eqb a "<" then "&lt;"
  else if Ascii.eqb a ">" then "&gt;"
  else if Ascii.eqb a (ascii_of_nat 160) then "&nbsp;"
  else String a "".

Fixpoint escapeHTML (str : string) : string :=
  match str with
  | EmptyString => ""
  | String a rest => escapeChar a +:+ escapeHTML rest
  end.

(** [Symbol.prototype.toString(false)]: just the escaped character. *)
Definition Symbol_toString (s : Symbol) : string := escapeHTML (ch s).

(** A SymArray wraps an array of Symbols; the empty one is epsilon. *)
Abbreviation SymArray := (list Symbol) (only parsing).

(** [SymArray.prototype.equals] *)
Fixpoint SymArray_equals (this other : SymArray) : bool :=
  match this, other with
  | [], [] => true
  | a :: this', b :: other' => Symbol_equals a b && SymArray_equals this' other'
  | _, _ => false
  end.

(** U+03B5, written here in UTF-8. *)
Definition EPSILON : string :=
  String (ascii_of_nat 206) (String (ascii_of_nat 181) "").

(** [SymArray.prototype.toString(false)] *)
Definition SymArray_toString (a : SymArray) : string :=
  match a with
  | [] => EPSILON
  | _ => fold_right (fun s str => Symbol_toString s +:+ str) "" a
  end.

Record Production : Type := mkProduction {
  p_lhs : Symbol;
  rhs : list SymArray
}.

(** [Production.prototype.rhsContains] *)
Definition Production_rhsContains (p : Production) (a : SymArray) : bool :=
  existsb (fun b => SymArray_equals b a) (rhs p).

(** [Production.prototype.addArray] *)
Definition Production_addArray (p : Production) (a : SymArray) : Production :=
  if Production_rhsContains p a then p
  else mkProduction (p_lhs p) (rhs p ++ [a]).

(** [productions] is the JS object used as a map from the nonterminal's
    character to its Production; [nonterminals] keeps the display order. *)
Record Grammar : Type := mkGrammar {
  startSymbol : Symbol;
  productions : gmap string Production;
  nonterminals : list string
}.

Definition new_Grammar (start : Symbol) : Grammar := mkGrammar start ∅ [].

(** [Grammar.prototype.addProduction] *)
Definition Grammar_addProduction (g : Grammar) (production : Production) : Grammar :=
  let nonterminal := p_lhs production in
  match productions g !! ch nonterminal with
  | Some currentProduction =>
      mkGrammar (startSymbol g)
        (<[ch nonterminal := fold_left Production_addArray (rhs production) currentProduction]>
           (productions g))
        (nonterminals g)
  | None =>
      mkGrammar (startSymbol g)
        (<[ch nonterminal := production]> (productions g))
        (nonterminals g ++ [ch nonterminal])
  end.

(** ** The Earley parser: State *)

(** A reference to a State object: its index in the heap. *)
Abbreviation ref := nat (only parsing).

Record State : Type := mkState {
  lhs : Symbol;
  symArray : SymArray;
  currentPosition : Z;
  originPosition : nat;
  prev : list ref;
  counter : nat
}.

Global Instance State_inhabited : Inhabited State :=
  populate (mkState START_LHS [] 0 0 [] 0).

(** The store: the heap of State objects, the global [State.counter], and
    the fields of the current Context ([input], and [states], one bucket of
    references per input index). *)
Record World : Type := mkWorld {
  heap : list State;
  State_counter : nat;
  input : string;
  states : list (list ref)
}.

Inductive Exn : Type :=
  | StateCurrentPositionOutOfBounds (l : Symbol) (a : SymArray) (currentPosition : Z)
  | StateInputIndexOutOfBounds (state : ref) (inputIndex : Z)
  | TypeError.

(** The result of running a piece of the program: it returns, it throws, or
    the model ran out of fuel in one of the two open-ended loops. *)
Inductive Outcome (A : Type) : Type :=
  | Ret (a : A) (w : World)
  | Throw (e : Exn)
  | OutOfFuel.
Arguments Ret {A} a w.
Arguments Throw {A} e.
Arguments OutOfFuel {A}.

Definition M (A : Type) : Type := World -> Outcome A.

Definition ret {A} (a : A) : M A := fun w => Ret a w.
Definition throw {A} (e : Exn) : M A := fun _ => Throw e.
Definition bind {A B} (m : M A) (k : A -> M B) : M B :=
  fun w => match m w with
           | Ret a w' => k a w'
           | Throw e => Throw e
           | OutOfFuel => OutOfFuel
           end.

Notation "'do' x <- c ; k" := (bind c (fun x => k))
  (at level 10, x name, c at level 100, k at level 200).
Notation "'run' c ; k" := (bind c (fun _ => k))
  (at level 10, c at level 100, k at level 200).

(** Dereference: the State object a reference points to. *)
Definition deref (h : list State) (r : ref) : State := h !!! r.

(** [a[i]] for a JS array: [undefined] (here [None]) out of range. *)
Definition js_index {A} (a : list A) (i : Z) : option A :=
  if (i <? 0)%Z then None else a !! Z.to_nat i.

(** [new State(lhs, symArray, currentPosition, originPosition, prev)] *)
Definition new_State (l : Symbol) (a : SymArray) (cur : Z) (origin : nat)
    (pv : list ref) : M ref :=
  fun w =>
    if ((cur <? 0) || (cur >? Z.of_nat (length a)))%Z
    then Throw (StateCurrentPositionOutOfBounds l a cur)
    else
      let c := S (State_counter w) in
      Ret (length (heap w))
          (mkWorld (heap w ++ [mkState l a cur origin pv c]) c (input w) (states w)).

(** [State.prototype.hasStart]: identity with [State.START_LHS]. *)
Definition State_hasStart (s : State) : bool :=
  match lhs s with START_LHS => true | Sym _ _ => false end.

(** [State.prototype.isComplete] *)
Definition State_isComplete (s : State) : bool :=
  (currentPosition s =? Z.of_nat (length (symArray s)))%Z.

(** [State.prototype.isCompleteParse] *)
Definition State_isCompleteParse (s : State) : bool :=
  State_hasStart s && State_isComplete s.

(** [State.prototype.hasNonterminalNext] *)
Definition State_hasNonterminalNext (s : State) (nonterminal : Symbol) : bool :=
  match js_index (symArray s) (currentPosition s) with
  | Some nextSymbol => Symbol_equals nonterminal nextSymbol
  | None => false
  end.

(** [State.prototype.getNextSymbol] *)
Definition State_getNextSymbol (s : State) : option Symbol :=
  if State_isComplete s then None
  else js_index (symArray s) (currentPosition s).

(** [State.prototype.getAdvancedState] *)
Definition State_getAdvancedState (this : ref) (pv : list ref) : M ref :=
  fun w =>
    let s := deref (heap w) this in
    new_State (lhs s) (symArray s) (currentPosition s + 1) (originPosition s) pv w.

(** [State.prototype.equals]: everything but [prev] and [counter]. *)
Definition State_equals (this other : State) : bool :=
  Symbol_equals (lhs this) (lhs other)
  && SymArray_equals (symArray this) (symArray other)
  && (currentPosition this =? currentPosition other)%Z
  && Nat.eqb (originPosition this) (originPosition other).

(** ** Context *)

(** [new Context(input)]: one empty bucket for each index [0..input.length]. *)
Definition new_Context (inp : string) : M unit :=
  fun w => Ret tt (mkWorld (heap w) (State_counter w) inp
                           (replicate (S (String.length inp)) [])).

(** [prevArraysEqual] *)
Fixpoint prevArraysEqual_loop (h : list State) (prev1 prev2 : list ref) : bool :=
  match prev1, prev2 with
  | [], [] => true
  | a :: prev1', b :: prev2' =>
      Nat.eqb (counter (deref h a)) (counter (deref h b)) && prevArraysEqual_loop h prev1' prev2'
  | _, _ => false
  end.

Definition prevArraysEqual (h : list State) (state1 state2 : State) : bool :=
  prevArraysEqual_loop h (prev state1) (prev state2).

(** [containsState(states, state, opt_checkprev)] *)
Definition containsState (h : list State) (sts : list ref) (state : ref)
    (opt_checkprev : bool) : bool :=
  existsb (fun x => State_equals (deref h x) (deref h state)
                    && (negb opt_checkprev || prevArraysEqual h (deref h x) (deref h state)))
          sts.

(** [Context.prototype.getState]: the first State of the bucket that equals
    [state], or [null]. *)
Definition Context_getState (w : World) (state : ref) (inputIndex : nat) : option ref :=
  find (fun x => State_equals (deref (heap w) x) (deref (heap w) state))
       (states w !!! inputIndex).

(** The same State object with another content of its [prev] array. *)
Definition with_prev (s : State) (pv : list ref) : State :=
  mkState (lhs s) (symArray s) (currentPosition s) (originPosition s) pv (counter s).

(** [equalState.prev.push(newState)] *)
Definition push_prev (h : list State) (equalState newState : ref) : list State :=
  <[equalState := with_prev (deref h equalState) (prev (deref h equalState) ++ [newState])]> h.

(** One turn of the merge loop of [addState]. *)
Definition merge_step (equalState : ref) (acc : list State * bool) (newState : ref)
    : list State * bool :=
  let '(h, addedPrev) := acc in
  if containsState h (prev (deref h equalState)) newState true
  then (h, addedPrev)
  else (push_prev h equalState newState, true).

(** [Context.prototype.addState].  The merge loop runs over [state.prev]; the
    array it pushes to is another one unless [state] is [equalState] itself,
    and then every element is found present and nothing is pushed. *)
Definition Context_addState (state : ref) (inputIndex : Z) : M bool :=
  fun w =>
    let n := Z.of_nat (String.length (input w)) in
    if ((inputIndex <? 0) || (inputIndex >? n + 1))%Z
    then Throw (StateInputIndexOutOfBounds state inputIndex)
    else if (inputIndex =? n + 1)%Z then Ret false w
    else
      let p := Z.to_nat inputIndex in
      match Context_getState w state p with
      | None =>
          Ret true (mkWorld (heap w) (State_counter w) (input w)
                            (alter (fun b => b ++ [state]) p (states w)))
      | Some equalState =>
          let '(h, addedPrev) :=
            fold_left (merge_step equalState) (prev (deref (heap w) state)) (heap w, false) in
          Ret addedPrev (mkWorld h (State_counter w) (input w) (states w))
      end.

(** ** Earley *)

(** [Earley.DERIVATION_LIMIT] *)
Definition DERIVATION_LIMIT : N := 50000.

(** A loop over an array whose length was read before the loop (or that the
    loop does not touch).  The result is whether some turn raised the flag
    [newAddedStates]. *)
Fixpoint for_each {A} (l : list A) (body : A -> M bool) : M bool :=
  match l with
  | [] => ret false
  | x :: l' =>
      do b <- body x;
      do bs <- for_each l' body;
      ret (b || bs)
  end.

(** PREDICTION, one alternative [production.rhs[l]]. *)
Definition predict (nextSymbol : Symbol) (i : nat) (state : ref) (alt : SymArray) : M bool :=
  do next <- new_State nextSymbol alt 0 i [state];
  Context_addState next (Z.of_nat i).

(** COMPLETION, one candidate [searchStates[l]]. *)
Definition complete (i : nat) (state : ref) (candidate : ref) : M bool :=
  fun w =>
    if State_hasNonterminalNext (deref (heap w) candidate) (lhs (deref (heap w) state))
    then (do next <- State_getAdvancedState candidate [state];
          Context_addState next (Z.of_nat i)) w
    else Ret false w.

Definition completion (i : nat) (state : ref) : M bool :=
  fun w =>
    if State_isComplete (deref (heap w) state) then
      match states w !! originPosition (deref (heap w) state) with
      | Some searchStates => for_each searchStates (complete i state) w
      | None => Throw TypeError
      end
    else Ret false w.

(** The body of the loop over [k]: what is done with [states[k]]. *)
Definition examine (g : Grammar) (i : nat) (state : ref) : M bool :=
  fun w =>
    match State_getNextSymbol (deref (heap w) state) with
    | Some nextSymbol =>
        if negb (isTerminal nextSymbol) then
          match productions g !! ch nextSymbol with
          | Some production => for_each (rhs production) (predict nextSymbol i state) w
          | None => Throw TypeError
          end
        else completion i state w
    | None => completion i state w
    end.

(** One turn of [while (newAddedStates)]: the loop over [k < len], where
    [len] is the length of the bucket when the turn starts. *)
Definition pass (g : Grammar) (i : nat) : M bool :=
  fun w => for_each (states w !!! i) (examine g i) w.

Fixpoint closure (fuel : nat) (g : Grammar) (i : nat) : M unit :=
  match fuel with
  | 0 => fun _ => OutOfFuel
  | S fuel' =>
      do newAddedStates <- pass g i;
      if newAddedStates then closure fuel' g i else ret tt
  end.

(** [input[i] === nextSymbol.ch] *)
Definition input_matches (inp : string) (i : nat) (c : string) : bool :=
  match String.get i inp with
  | Some a => String.eqb (String a "") c
  | None => false
  end.

(** SCANNING of [states[j]]. *)
Definition scan (i : nat) (state : ref) : M unit :=
  fun w =>
    match State_getNextSymbol (deref (heap w) state) with
    | Some nextSymbol =>
        if isTerminal nextSymbol && input_matches (input w) i (ch nextSymbol) then
          (do next <- State_getAdvancedState state [state];
           do _ <- Context_addState next (Z.of_nat (i + 1));
           ret tt) w
        else Ret tt w
    | None => Ret tt w
    end.

(** The loop over [j < states.length], from [j] on; the bound is read again
    at every turn. *)
Fixpoint for_states (fuel cfuel : nat) (g : Grammar) (i j : nat) : M unit :=
  match fuel with
  | 0 => fun _ => OutOfFuel
  | S fuel' => fun w =>
      match (states w !!! i) !! j with
      | None => Ret tt w
      | Some state =>
          (run closure cfuel g i;
           run scan i state;
           for_states fuel' cfuel g i (S j)) w
      end
  end.

(** [for (i = from; i < from + n; i++)] *)
Fixpoint for_range (n from : nat) (body : nat -> M unit) : M unit :=
  match n with
  | 0 => ret tt
  | S n' => run body from; for_range n' (S from) body
  end.

(** The first part of [doesMatch]: the chart. *)
Definition buildChart (fuel : nat) (g : Grammar) (inp : string) : M unit :=
  run new_Context inp;
  do startState <- new_State START_LHS [startSymbol g] 0 0 [];
  do _ <- Context_addState startState 0;
  for_range (S (String.length inp)) 0 (fun i => for_states fuel fuel g i 0).

(** ** Derivations *)

(** [symString.lastIndexOf(lhsString)], [None] for -1. *)
Fixpoint lastIndexOf_from (s sub : string) (i : nat) (found : option nat) : option nat :=
  let found' := if String.prefix sub s then Some i else found in
  match s with
  | EmptyString => found'
  | String _ s' => lastIndexOf_from s' sub (S i) found'
  end.

Definition lastIndexOf (s sub : string) : option nat := lastIndexOf_from s sub 0 None.

(** [replaceLastNonterminalStr] *)
Definition replaceLastNonterminalStr (symString lhsString insertString : string) : string :=
  match lastIndexOf symString lhsString with
  | None => symString
  | Some i =>
      String.substring 0 i symString +:+ insertString
        +:+ String.substring (i + 1) (String.length symString - (i + 1)) symString
  end.

(** How the search of [getDerivation] ends: one of its three [return]s. *)
Inductive SearchEnd : Type :=
  | Found (newStates : list ref)
  | LimitReached
  | QueueExhausted.

(** The string the path implies once [newState] is appended. *)
Definition nextSymString (h : list State) (currentSymString : string) (newState : ref) : string :=
  let ns := deref h newState in
  if State_isComplete ns then
    replaceLastNonterminalStr currentSymString (Symbol_toString (lhs ns))
      (match symArray ns with [] => "" | _ => SymArray_toString (symArray ns) end)
  else currentSymString.

(** The loop over [currentState.prev].  [queue] and [strings] of the source
    grow and shrink together; they are one list of pairs here. *)
Fixpoint expand (h : list State) (inp : string) (sts : list ref) (currentSymString : string)
    (prevs : list ref) (queue : list (list ref * string)) (cnt : N)
    : SearchEnd + (list (list ref * string) * N) :=
  match prevs with
  | [] => inr (queue, cnt)
  | newState :: prevs' =>
      let newStates := sts ++ [newState] in
      let newSymString := nextSymString h currentSymString newState in
      if String.eqb newSymString inp then inl (Found newStates)
      else
        let queue' := queue ++ [(newStates, newSymString)] in
        let cnt' := (cnt + 1)%N in
        if (DERIVATION_LIMIT <? cnt')%N then inl LimitReached
        else expand h inp sts currentSymString prevs' queue' cnt'
  end.

(** [while (queue.length !== 0)] *)
Fixpoint search (fuel : nat) (h : list State) (inp : string)
    (queue : list (list ref * string)) (cnt : N) : option SearchEnd :=
  match fuel with
  | 0 => None
  | S fuel' =>
      match queue with
      | [] => Some QueueExhausted
      | (sts, currentSymString) :: queue' =>
          let currentState := List.last sts 0 in
          match expand h inp sts currentSymString (prev (deref h currentState)) queue' cnt with
          | inl e => Some e
          | inr (queue'', cnt') => search fuel' h inp queue'' cnt'
          end
      end
  end.

(** Every turn of the search takes one path off the queue, and at most
    [DERIVATION_LIMIT + 1] paths are ever put on it after the first: this
    much fuel is never used up (lemma [search_total]). *)
Definition search_fuel : nat := N.to_nat DERIVATION_LIMIT + 3.

Definition derivationSearch (h : list State) (mtch : ref) (inp : string) : option SearchEnd :=
  search search_fuel h (escapeHTML inp)
         [([mtch], SymArray_toString (symArray (deref h mtch)))] 0%N.

(** [getDerivation(match, input)] *)
Definition getDerivation (h : list State) (mtch : ref) (inp : string) : list ref :=
  match derivationSearch h mtch inp with
  | Some (Found newStates) => newStates
  | Some LimitReached => []
  | Some QueueExhausted => []
  | None => []
  end.

(** The last part of [doesMatch]: the first complete parse State of the
    bucket at [input.length], if any, and its derivation; [None] is [null]. *)
Definition findCompleteParse (w : World) : option ref :=
  find (fun r => State_isCompleteParse (deref (heap w) r))
       (states w !!! String.length (input w)).

Definition finish (inp : string) : M (option (list ref)) :=
  fun w =>
    match findCompleteParse w with
    | Some mtch => Ret (Some (getDerivation (heap w) mtch inp)) w
    | None => Ret None w
    end.

(** [Earley.prototype.doesMatch], with the fuel of its two open loops. *)
Definition doesMatchFuel (fuel : nat) (g : Grammar) (inp : string) : M (option (list ref)) :=
  run buildChart fuel g inp;
  finish inp.

(** ** grammar.js: display *)

(** The options of [toString]. *)
Definition Symbol_PARENTHESES : Z := 0.
Definition Symbol_BOLD : Z := 1.
Definition Symbol_BOLD_UNDERLINE : Z := 2.
Definition Symbol_BOLD_UNDERLINE_LAST : Z := 11.

(** [Symbol.prototype.toString(showNonterminal, options)]; [options] is
    [None] when the argument is left out.  The case [BOLD_UNDERLINE] of the
    [switch] falls through to [BOLD]. *)
Definition Symbol_toStringWith (s : Symbol) (showNonterminal : bool) (options : option Z)
    : string :=
  if showNonterminal && negb (isTerminal s) then
    match options with
    | Some 2%Z => ("<u>" +:+ "<strong>") +:+ escapeHTML (ch s) +:+ ("</strong>" +:+ "</u>")
    | Some 1%Z => "<strong>" +:+ escapeHTML (ch s) +:+ "</strong>"
    | _ => "(" +:+ escapeHTML (ch s) +:+ ")"
    end
  else escapeHTML (ch s).

(** The loop of [SymArray.prototype.toString], from the last Symbol to the
    first: [symbols] is what is left, last Symbol first. *)
Fixpoint SymArray_toString_loop (symbols : list Symbol) (showNonterminals : bool)
    (options : option Z) (underline : bool) (str : string) : string :=
  match symbols with
  | [] => str
  | s :: rest =>
      let '(args, underline') :=
        match options with
        | Some 11%Z =>
            if negb (isTerminal s) && negb underline
            then (Some Symbol_BOLD_UNDERLINE, true)
            else (Some Symbol_BOLD, underline)
        | _ => (options, underline)
        end in
      SymArray_toString_loop rest showNonterminals options underline'
        (Symbol_toStringWith s showNonterminals args +:+ str)
  end.

(** [SymArray.prototype.toString(showNonterminals, options)] *)
Definition SymArray_toStringWith (a : SymArray) (showNonterminals : bool)
    (options : option Z) : string :=
  match a with
  | [] => EPSILON
  | _ => SymArray_toString_loop (rev a) showNonterminals options false ""
  end.

(** The alternatives of a Production, separated by bars. *)
Fixpoint Production_toString_loop (alts : list SymArray) (showNonterminals : bool)
    (options : option Z) : string :=
  match alts with
  | [] => ""
  | [a] => SymArray_toStringWith a showNonterminals options
  | a :: rest =>
      SymArray_toStringWith a showNonterminals options +:+ " | "
        +:+ Production_toString_loop rest showNonterminals options
  end.

(** [Production.prototype.toString(showNonterminals, options)] *)
Definition Production_toString (p : Production) (showNonterminals : bool)
    (options : option Z) : string :=
  Symbol_toStringWith (p_lhs p) showNonterminals options +:+ " &#8594; "
    +:+ Production_toString_loop (rhs p) showNonterminals options.

(** [Grammar.prototype.toString(showNonterminals, options)]; [None] is the
    TypeError of [this.productions[symbol].toString] on a missing entry. *)
Definition Grammar_toString (g : Grammar) (showNonterminals : bool) (options : option Z)
    : option string :=
  fold_left
    (fun acc symbol =>
       match acc, productions g !! symbol with
       | Some s, Some production =>
           Some (s +:+ Production_toString production showNonterminals options +:+ "<br>")
       | _, _ => None
       end)
    (nonterminals g)
    (Some ("Start symbol: " +:+ Symbol_toStringWith (startSymbol g) showNonterminals options
             +:+ "<br>")).

(** ** Showing a derivation *)

(** The loop of [replaceLastNonterminal], from index [n - 1] down to 0. *)
Fixpoint replaceLastNonterminal_loop (symbols : list Symbol) (l : Symbol)
    (insertArray : list Symbol) (n : nat) : list Symbol :=
  match n with
  | 0 => symbols
  | S i =>
      match symbols !! i with
      | Some symbol =>
          if negb (isTerminal symbol) && Symbol_equals symbol l
          then take i symbols ++ insertArray ++ drop (S i) symbols
          else replaceLastNonterminal_loop symbols l insertArray i
      | None => replaceLastNonterminal_loop symbols l insertArray i
      end
  end.

(** [replaceLastNonterminal(symArray, lhs, insertArray)] *)
Definition replaceLastNonterminal (symArray : SymArray) (l : Symbol) (insertArray : SymArray)
    : SymArray :=
  replaceLastNonterminal_loop symArray l insertArray (length symArray).

(** The second loop of [formatDerivation], over [states[1..]]: a row for
    each State, and the sentential form carried along. *)
Fixpoint formatDerivation_loop (h : list State) (sts : list ref) (symArray0 : SymArray)
    : list (string * string) :=
  match sts with
  | [] => []
  | r :: rest =>
      let tempProduction := mkProduction (lhs (deref h r)) [symArray (deref h r)] in
      let symArray' :=
        replaceLastNonterminal symArray0 (lhs (deref h r)) (symArray (deref h r)) in
      (Production_toString tempProduction true (Some Symbol_BOLD),
       SymArray_toStringWith symArray' true (Some Symbol_BOLD))
        :: formatDerivation_loop h rest symArray'
  end.

(** [formatDerivation(matchStates)]: the complete States of the path are
    kept, and the first of them gives the form to start from; [None] is the
    TypeError of [states[0].symArray] when none is complete. *)
Definition formatDerivation (h : list State) (matchStates : list ref)
    : option (list (string * string)) :=
  match List.filter (fun r => State_isComplete (deref h r)) matchStates with
  | [] => None
  | s0 :: rest =>
      Some (("<em>Start</em>", "<strong>S</strong>")
              :: formatDerivation_loop h rest (symArray (deref h s0)))
  end.

(** ** Reading the grammar off the page *)

(** What [readGrammar] reads of a [div.production-row]: the value of the
    nonterminal field, which holds at most one character ([maxlength] 1;
    [None] is the empty field), the value of the first rule field, which
    [newProduction] gives every row, and the values of the rule fields that
    [newRule] has put after it, in order. *)
Record Row : Type := mkRow {
  row_nt : option ascii;
  row_first : string;
  row_more : list string
}.

(** The rule fields that the [while] loop goes through. *)
Definition row_rules (row : Row) : list string := row_first row :: row_more row.

(** The first pass: [nonterminals[ch] = true] for the rows with a
    character. *)
Definition readNonterminals (rows : list Row) : list ascii :=
  omap row_nt rows.

(** [new Symbol(ch, !nonterminals[ch])] for each character of a rule. *)
Definition readRule (nonterminals : list ascii) (str : string) : list Symbol :=
  map (fun c => Sym c (negb (bool_decide (c ∈ nonterminals)))) (list_ascii_of_string str).

(** The Production of a row: its rules, added with [addArray]. *)
Definition readProduction (nonterminals : list ascii) (c : ascii) (rules : list string)
    : Production :=
  fold_left Production_addArray (map (readRule nonterminals) rules)
            (mkProduction (Sym c false) []).

(** The second pass: rows without a character are skipped. *)
Definition readRows (nonterminals : list ascii) (rows : list Row) : list Production :=
  omap (fun row => match row_nt row with
                   | Some c => Some (readProduction nonterminals c (row_rules row))
                   | None => None
                   end) rows.

(** [readGrammar()].  The Grammar is made when the first row is visited,
    if that row has a character; without it there is no Grammar to add to
    or to return ([None]). *)
Definition readGrammar (rows : list Row) : option Grammar :=
  match rows with
  | [] => None
  | first :: _ =>
      match row_nt first with
      | None => None
      | Some c0 =>
          Some (fold_left Grammar_addProduction (readRows (readNonterminals rows) rows)
                          (new_Grammar (Sym c0 false)))
      end
  end.

(** * The vocabulary of the properties *)

(** ** What [equals] compares *)

(** The part of a Symbol that [Symbol.equals] looks at. *)
Definition symKey (s : Symbol) : string * bool := (ch s, isTerminal s).

(** The part of a State that [State.equals] looks at: the dotted rule and
    its origin, without [prev] and [counter]. *)
Definition item (s : State) : (string * bool) * list (string * bool) * Z * nat :=
  (symKey (lhs s), map symKey (symArray s), currentPosition s, originPosition s).

(** The heap after the [prev] array of [e] has become [pv]. *)
Definition set_prev (h : list State) (e : ref) (pv : list ref) : list State :=
  <[e := with_prev (deref h e) pv]> h.

(** ** Insertion by id *)

(** Insertion as the specification words it, for comparison: a candidate
    back-pointer is present when the existing entry's [prev] holds one with
    the same id ([counter]). *)
Definition presentById (h : list State) (pv : list ref) (x : ref) : bool :=
  existsb (fun y => Nat.eqb (counter (deref h y)) (counter (deref h x))) pv.

Definition merge_step_by_id (equalState : ref) (acc : list State * bool) (newState : ref)
    : list State * bool :=
  let '(h, addedPrev) := acc in
  if presentById h (prev (deref h equalState)) newState
  then (h, addedPrev)
  else (push_prev h equalState newState, true).

Definition insert_by_id (state : ref) (p : nat) : M bool :=
  fun w =>
    match Context_getState w state p with
    | None =>
        Ret true (mkWorld (heap w) (State_counter w) (input w)
                          (alter (fun b => b ++ [state]) p (states w)))
    | Some equalState =>
        let '(h, addedPrev) :=
          fold_left (merge_step_by_id equalState) (prev (deref (heap w) state)) (heap w, false) in
        Ret addedPrev (mkWorld h (State_counter w) (input w) (states w))
    end.

(** A store in which State 3 is to be inserted at index 0, where the equal
    State 2 already is.  States 0 and 1 are two objects (ids 1 and 2) for the
    same dotted rule, both without back-pointers. *)
Definition merge_world : World :=
  mkWorld
    [ mkState (Sym "X" false) [] 0 0 [] 1;
      mkState (Sym "X" false) [] 0 0 [] 2;
      mkState (Sym "S" false) [Sym "X" false] 1 0 [0] 3;
      mkState (Sym "S" false) [Sym "X" false] 1 0 [1] 4 ]
    4 "" [[0; 2]].

(** A store in which State 4 is to be inserted at index 0, where the equal
    State 3 already is, without back-pointers.  State 4 has three, all for
    the same dotted rule: State 1 differs from State 0 in its [prev] array,
    and State 2 is another object like State 0. *)
Definition merge_world_three : World :=
  mkWorld
    [ mkState (Sym "X" false) [] 0 0 [] 1;
      mkState (Sym "X" false) [] 0 0 [0] 2;
      mkState (Sym "X" false) [] 0 0 [] 3;
      mkState (Sym "S" false) [Sym "X" false] 1 0 [] 4;
      mkState (Sym "S" false) [Sym "X" false] 1 0 [0; 1; 2] 5 ]
    5 "" [[0; 1; 3]].

(** ** The fuel [doesMatch] needs *)

(** Every alternative of every Production of the grammar. *)
Definition altsOf (g : Grammar) : list SymArray :=
  concat (map (fun kp => rhs (snd kp)) (map_to_list (productions g))).

(** The Symbols a State of the chart can have as [lhs]: they are read off
    right-hand sides, or are the seed's. *)
Definition lhsU (g : Grammar) : list Symbol :=
  START_LHS :: startSymbol g :: concat (altsOf g).

(** The SymArrays a State of the chart can have. *)
Definition altU (g : Grammar) : list SymArray := [startSymbol g] :: altsOf g.

(** A bound on the dot of a chart State, plus one. *)
Definition dotCount (g : Grammar) : nat := S (S (length (concat (altsOf g)))).

(** A bound on the number of States in one bucket: the number of dotted
    rules with an origin. *)
Definition bucketCap (g : Grammar) (inp : string) : nat :=
  length (lhsU g) * length (altU g) * dotCount g * S (String.length inp).

(** A bound on what one bucket holds, back-pointers included: at most
    [bucketCap] States, each with a back-pointer to every State of the chart
    at most. *)
Definition closureCap (g : Grammar) (inp : string) : nat :=
  bucketCap g inp + bucketCap g inp * (S (String.length inp) * bucketCap g inp).

Definition fuelBound (g : Grammar) (inp : string) : nat := S (S (closureCap g inp)).

(** [Earley.prototype.doesMatch] *)
Definition doesMatch (g : Grammar) (inp : string) : M (option (list ref)) :=
  doesMatchFuel (fuelBound g inp) g inp.

(** ** Invariants of the chart *)

(** A State without its back-pointers: what never changes once it is made. *)
Definition core (s : State) : State := with_prev s [].

(** The references the chart holds. *)
Definition inChart (w : World) (r : ref) : Prop := r ∈ concat (states w).

(** What holds of a State in the bucket at index [p]. *)
Definition wfState (g : Grammar) (p : nat) (s : State) : Prop :=
  lhs s ∈ lhsU g /\ symArray s ∈ altU g /\
  (0 <= currentPosition s <= Z.of_nat (length (symArray s)))%Z /\
  originPosition s <= p.

Record Inv (g : Grammar) (w : World) : Prop := mkInv {
  inv_len : length (states w) = S (String.length (input w));
  inv_valid : forall r, inChart w r -> r < length (heap w);
  inv_nodup : forall p b, states w !! p = Some b ->
                NoDup ((fun r => item (deref (heap w) r)) <$> b);
  inv_shape : forall p b r, states w !! p = Some b -> r ∈ b ->
                wfState g p (deref (heap w) r);
  inv_prev : forall r, inChart w r ->
                NoDup (prev (deref (heap w) r)) /\
                forall x, x ∈ prev (deref (heap w) r) -> inChart w x
}.

(** How the store can change while the chart is built: States are added to
    the heap and to the ends of buckets, and back-pointers to the ends of
    [prev] arrays; nothing else changes. *)
Record ext (w w' : World) : Prop := mkExt {
  ext_input : input w' = input w;
  ext_heap : length (heap w) <= length (heap w');
  ext_core : forall r, r < length (heap w) ->
               core (deref (heap w') r) = core (deref (heap w) r);
  ext_prev : forall r, r < length (heap w) ->
               prev (deref (heap w) r) `prefix_of` prev (deref (heap w') r);
  ext_len : length (states w') = length (states w);
  ext_states : forall p b, states w !! p = Some b ->
               exists b', states w' !! p = Some b' /\ b `prefix_of` b'
}.

(** The chart is as it was, and so is every State that existed. *)
Record same_chart (w w' : World) : Prop := mkSame {
  same_input : input w' = input w;
  same_heap : length (heap w) <= length (heap w');
  same_deref : forall r, r < length (heap w) -> deref (heap w') r = deref (heap w) r;
  same_states : states w' = states w
}.

(** The size of the bucket at [i], back-pointers included. *)
Definition weight (w : World) (i : nat) : nat :=
  length (states w !!! i)
  + sum_list_with (fun r => length (prev (deref (heap w) r))) (states w !!! i).

Definition b2n (b : bool) : nat := if b then 1 else 0.

(** What one step of the closure does to the store: it extends it, the
    bucket at [i] gains weight if the step reports a change, and the chart
    is as before if it reports none. *)
Record Step (i : nat) (b : bool) (w w' : World) : Prop := mkStep {
  step_ext : ext w w';
  step_weight : weight w i + b2n b <= weight w' i;
  step_same : b = false -> same_chart w w'
}.

(** Every nonterminal that occurs on a right-hand side, and the start
    symbol if it is one, has a Production. *)
Definition allDefined (g : Grammar) : Prop :=
  forall X, X ∈ startSymbol g :: concat (altsOf g) -> isTerminal X = false ->
            is_Some (productions g !! ch X).

(** A computation that is part of one turn of the closure of bucket [i]:
    it keeps the invariant, it is a [Step], it tells [Q] when it reports no
    change, it throws only for an undefined nonterminal, and it needs no
    fuel. *)
Definition closes (g : Grammar) (i : nat) (P : World -> Prop) (m : M bool)
    (Q : World -> Prop) : Prop :=
  forall w, Inv g w -> P w ->
    match m w with
    | Ret b w' => Inv g w' /\ Step i b w w' /\ (b = false -> Q w')
    | Throw _ => ~ allDefined g
    | OutOfFuel => False
    end.

(** What the closure of bucket [i] has done for the State [state] of that
    bucket once a turn changes nothing: every prediction and every
    completion it calls for is in the bucket. *)
Definition predicted (g : Grammar) (w : World) (i : nat) (state : ref) : Prop :=
  forall X production alt,
    State_getNextSymbol (deref (heap w) state) = Some X -> isTerminal X = false ->
    productions g !! ch X = Some production -> alt ∈ rhs production ->
    exists e, e ∈ states w !!! i /\
              item (deref (heap w) e) = (symKey X, map symKey alt, 0%Z, i).

Definition completed_by (w : World) (i : nat) (state candidate : ref) : Prop :=
  State_hasNonterminalNext (deref (heap w) candidate) (lhs (deref (heap w) state)) = true ->
  exists e, e ∈ states w !!! i /\
            item (deref (heap w) e)
              = (symKey (lhs (deref (heap w) candidate)),
                 map symKey (symArray (deref (heap w) candidate)),
                 (currentPosition (deref (heap w) candidate) + 1)%Z,
                 originPosition (deref (heap w) candidate)).

Definition completed (w : World) (i : nat) (state : ref) : Prop :=
  State_isComplete (deref (heap w) state) = true ->
  forall candidate, candidate ∈ states w !!! originPosition (deref (heap w) state) ->
                    completed_by w i state candidate.

Definition closedAt (g : Grammar) (w : World) (i : nat) (state : ref) : Prop :=
  predicted g w i state /\ completed w i state.

(** The States of bucket [i] are closed under prediction and completion. *)
Definition closedBucket (g : Grammar) (w : World) (i : nat) : Prop :=
  forall state, state ∈ states w !!! i -> closedAt g w i state.

(** Every dotted rule with origin that a State of the chart can stand for. *)
Definition itemU (g : Grammar) (inp : string)
    : list ((string * bool) * list (string * bool) * Z * nat) :=
  list_prod (list_prod (list_prod (map symKey (lhsU g)) (map (map symKey) (altU g)))
                       (map Z.of_nat (seq 0 (dotCount g))))
            (seq 0 (S (String.length inp))).

(** The outcome [o] of a part of [doesMatch] started in [w]: it returned,
    in a store that extends [w], keeps the invariant and satisfies [Q]; or
    it threw, which takes an undefined nonterminal; it did not run out of
    fuel. *)
Definition runs (g : Grammar) (w : World) (o : Outcome unit) (Q : World -> Prop) : Prop :=
  match o with
  | Ret _ w' => Inv g w' /\ ext w w' /\ Q w'
  | Throw _ => ~ allDefined g
  | OutOfFuel => False
  end.

(** ** The paths a search for a derivation builds *)

(** The paths that one path of the queue gives rise to: one for each
    back-pointer of its last State, each with the string it spells. *)
Definition extend (h : list State) (entry : list ref * string) : list (list ref * string) :=
  map (fun newState => (fst entry ++ [newState], nextSymString h (snd entry) newState))
      (prev (deref h (List.last (fst entry) 0))).

(** The paths built by a search that never stops, in the order in which it
    builds them, as far as [fuel] paths taken off the queue give them: every
    path built is put on the queue, first in, first out. *)
Fixpoint levelOrder (fuel : nat) (h : list State) (queue : list (list ref * string))
    : list (list ref * string) :=
  match fuel with
  | 0 => []
  | S fuel' =>
      match queue with
      | [] => []
      | entry :: queue' => extend h entry ++ levelOrder fuel' h (queue' ++ extend h entry)
      end
  end.

(** The first [n] paths built from the match State, or all of them when
    there are fewer.  Taking [n + 1] paths off the queue is enough: each of
    them is the first one or one of those built before. *)
Definition pathsBuilt (h : list State) (mtch : ref) (n : nat) : list (list ref * string) :=
  take n (levelOrder (S (S n)) h [([mtch], SymArray_toString (symArray (deref h mtch)))]).

(** The path spells the input. *)
Definition spells (inp : string) (entry : list ref * string) : bool :=
  String.eqb (snd entry) (escapeHTML inp).

(** How a search that may build [budget] paths ends, told from the paths
    themselves: with the first of the [budget] first paths that spells the
    input; at the cap, when there are [budget] paths and none of them spells
    it; with an empty queue otherwise. *)
Definition verdict (inp : string) (budget : nat) (paths : list (list ref * string))
    : SearchEnd :=
  match find (fun entry => String.eqb (snd entry) inp) (take budget paths) with
  | Some entry => Found (fst entry)
  | None => if Nat.leb budget (length paths) then LimitReached else QueueExhausted
  end.

(** ** Concrete grammars *)

(** The store before anything was parsed. *)
Definition empty_world : World := mkWorld [] 0 "" [].

(** [S -> 0XX], [X -> epsilon | 1], built as in the test file. *)
Definition grammar_0XX : Grammar :=
  Grammar_addProduction
    (Grammar_addProduction (new_Grammar (Sym "S" false))
       (mkProduction (Sym "S" false) [[Sym "0" true; Sym "X" false; Sym "X" false]]))
    (mkProduction (Sym "X" false) [[]; [Sym "1" true]]).

(** [S -> 0S0 | 1S1 | 0 | 1 | epsilon], added in three overlapping parts as
    in the test file. *)
Definition grammar_palindrome : Grammar :=
  Grammar_addProduction
    (Grammar_addProduction
       (Grammar_addProduction (new_Grammar (Sym "S" false))
          (mkProduction (Sym "S" false)
             [[Sym "0" true; Sym "S" false; Sym "0" true];
              [Sym "1" true; Sym "S" false; Sym "1" true]]))
       (mkProduction (Sym "S" false)
          [[Sym "1" true; Sym "S" false; Sym "1" true]; [Sym "0" true]; [Sym "1" true]]))
    (mkProduction (Sym "S" false) [[Sym "0" true]; [Sym "1" true]; []]).

(** [S -> epsilon | X], where the nonterminal [X] has no Production. *)
Definition grammar_undefined : Grammar :=
  Grammar_addProduction (new_Grammar (Sym "S" false))
    (mkProduction (Sym "S" false) [[]; [Sym "X" false]]).

(** A nonterminal named by a character that HTML escapes: [< -> a]. *)
Definition grammar_lt : Grammar :=
  Grammar_addProduction (new_Grammar (Sym "<" false))
    (mkProduction (Sym "<" false) [[Sym "a" true]]).

(** The same with a unit cycle: [< -> < | a]. *)
Definition grammar_lt_cycle : Grammar :=
  Grammar_addProduction (new_Grammar (Sym "<" false))
    (mkProduction (Sym "<" false) [[Sym "<" false]; [Sym "a" true]]).

(** [allDefined], computed. *)
Definition allDefinedb (g : Grammar) : bool :=
  forallb (fun X => isTerminal X
                    || match productions g !! ch X with Some _ => true | None => false end)
          (startSymbol g :: concat (altsOf g)).

(** ** Derivations of the grammar *)

(** One step of a derivation: a nonterminal of the sentential form is
    replaced by an alternative of its Production. *)
Inductive derives_step (g : Grammar) : list Symbol -> list Symbol -> Prop :=
  | derives_step_intro u X v production alt :
      isTerminal X = false ->
      productions g !! ch X = Some production ->
      alt ∈ rhs production ->
      derives_step g (u ++ X :: v) (u ++ alt ++ v).

Definition derives (g : Grammar) : list Symbol -> list Symbol -> Prop :=
  rtc (derives_step g).

(** The nonterminals that can vanish, by their characters. *)
Inductive nullable (g : Grammar) : string -> Prop :=
  | nullable_intro c production alt :
      productions g !! c = Some production ->
      alt ∈ rhs production ->
      nullable_array g alt ->
      nullable g c
with nullable_array (g : Grammar) : list Symbol -> Prop :=
  | nullable_nil : nullable_array g []
  | nullable_cons X a :
      isTerminal X = false ->
      nullable g (ch X) ->
      nullable_array g a ->
      nullable_array g (X :: a).

Scheme nullable_mut := Minimality for nullable Sort Prop
  with nullable_array_mut := Minimality for nullable_array Sort Prop.

(** Some State of bucket [i] stands for the dotted rule [it]. *)
Definition hasItem (w : World) (i : nat)
    (it : (string * bool) * list (string * bool) * Z * nat) : Prop :=
  exists e, e ∈ states w !!! i /\ item (deref (heap w) e) = it.

(** The chart that [doesMatch] leaves for a grammar and an input. *)
Definition chart_of (g : Grammar) (inp : string) : World :=
  match buildChart 20 g inp empty_world with
  | Ret _ w => w
  | _ => empty_world
  end.

(** [S -> Sa | a] is left-recursive. *)
Definition grammar_left_recursive : Grammar :=
  Grammar_addProduction (new_Grammar (Sym "S" false))
    (mkProduction (Sym "S" false) [[Sym "S" false; Sym "a" true]; [Sym "a" true]]).

(** [S -> A], [A -> B | epsilon], [B -> A]: a cycle that produces epsilon. *)
Definition grammar_epsilon_cycle : Grammar :=
  Grammar_addProduction
    (Grammar_addProduction
       (Grammar_addProduction (new_Grammar (Sym "S" false))
          (mkProduction (Sym "S" false) [[Sym "A" false]]))
       (mkProduction (Sym "A" false) [[Sym "B" false]; []]))
    (mkProduction (Sym "B" false) [[Sym "A" false]]).

(** ** Grammars *)

(** Symbols are compared by their fields. *)
Global Instance Symbol_eq_dec : EqDecision Symbol.
Proof. solve_decision. Defined.

(** A grammar as the page and the tests build it: Productions added one
    after the other to a new Grammar. *)
Definition built (start : Symbol) (ps : list Production) : Grammar :=
  fold_left Grammar_addProduction ps (new_Grammar start).

(** ** The items of Earley's algorithm *)

(** The dotted rules with origin that the algorithm calls for at each index
    of the input: the seed, and what prediction, scanning and completion
    make of items that are called for. *)
Inductive earley (g : Grammar) (inp : string)
    : nat -> Symbol -> list Symbol -> Z -> nat -> Prop :=
  | earley_seed : earley g inp 0 START_LHS [startSymbol g] 0 0
  | earley_predict i l a d o X production alt :
      earley g inp i l a d o ->
      js_index a d = Some X -> isTerminal X = false ->
      productions g !! ch X = Some production -> alt ∈ rhs production ->
      earley g inp i X alt 0 i
  | earley_scan i l a d o X :
      earley g inp i l a d o ->
      js_index a d = Some X -> isTerminal X = true ->
      input_matches inp i (ch X) = true ->
      earley g inp (S i) l a (d + 1) o
  | earley_complete i l a k l' a' d' o X :
      earley g inp i l a (Z.of_nat (length a)) k ->
      earley g inp k l' a' d' o ->
      js_index a' d' = Some X -> Symbol_equals l X = true ->
      earley g inp i l' a' (d' + 1) o.

(** The State [r], in the bucket at [p], is an item the algorithm calls
    for. *)
Definition justified (g : Grammar) (w : World) (p : nat) (r : ref) : Prop :=
  earley g (input w) p (lhs (deref (heap w) r)) (symArray (deref (heap w) r))
         (currentPosition (deref (heap w) r)) (originPosition (deref (heap w) r)).

Definition Sound (g : Grammar) (w : World) : Prop :=
  forall p r, r ∈ states w !!! p -> justified g w p r.

(** The ids of the States of the chart: none is beyond [State.counter], and
    no two States share one. *)
Definition Ids (w : World) : Prop :=
  (forall (p : nat) r, r ∈ states w !!! p ->
     counter (deref (heap w) r) <= State_counter w) /\
  (forall (p p' : nat) r r', r ∈ states w !!! p -> r' ∈ states w !!! p' ->
     counter (deref (heap w) r) = counter (deref (heap w) r') -> r = r').

(** A back-pointer to a complete State points to a rule of the grammar's:
    its left-hand side is a Symbol of the grammar. *)
Definition PrevOk (g : Grammar) (w : World) : Prop :=
  forall (p : nat) r x, r ∈ states w !!! p -> x ∈ prev (deref (heap w) r) ->
    State_isComplete (deref (heap w) x) = true ->
    lhs (deref (heap w) x) ∈ startSymbol g :: concat (altsOf g).

Definition Good (g : Grammar) (w : World) : Prop := Sound g w /\ Ids w /\ PrevOk g w.

(** Only the bucket at [i] differs. *)
Definition Frozen (i : nat) (w w' : World) : Prop :=
  forall q, q <> i -> states w' !! q = states w !! q.

(** A part of the closure of bucket [i] adds only items that are called
    for, and only to that bucket. *)
Definition tracks (g : Grammar) (i : nat) (P : World -> Prop) (m : M bool) : Prop :=
  forall w b w', Inv g w -> P w -> Good g w -> m w = Ret b w' ->
    Good g w' /\ Frozen i w w'.

(** What scanning makes of the State [state] of bucket [i] is in the next
    bucket. *)
Definition scanned (w : World) (i : nat) (state : ref) : Prop :=
  forall X, State_getNextSymbol (deref (heap w) state) = Some X -> isTerminal X = true ->
    input_matches (input w) i (ch X) = true ->
    hasItem w (i + 1)
      (symKey (lhs (deref (heap w) state)), map symKey (symArray (deref (heap w) state)),
       (currentPosition (deref (heap w) state) + 1)%Z, originPosition (deref (heap w) state)).

(** The chart is complete up to the bucket at [n]: every bucket before it is
    closed under prediction and completion, and scanned. *)
Definition doneBefore (g : Grammar) (w : World) (n : nat) : Prop :=
  forall q, q < n ->
    closedBucket g w q /\ forall state, state ∈ states w !!! q -> scanned w q state.

(** The terminals an input string stands for. *)
Definition sentence (inp : string) : list Symbol :=
  map (fun c => Sym c true) (list_ascii_of_string inp).

(** The words a string of Symbols generates, rule by rule from the left. *)
Inductive generates (g : Grammar) : list Symbol -> list ascii -> Prop :=
  | generates_nil : generates g [] []
  | generates_terminal c a w :
      generates g a w -> generates g (Sym c true :: a) (c :: w)
  | generates_nonterminal X production alt a w1 w2 :
      isTerminal X = false ->
      productions g !! ch X = Some production -> alt ∈ rhs production ->
      generates g alt w1 -> generates g a w2 ->
      generates g (X :: a) (w1 ++ w2).

(** ** Derivations *)

(** Each State of the path is a back-pointer of the one before it. *)
Definition chained (h : list State) (path : list ref) : Prop :=
  forall k x y, path !! k = Some x -> path !! S k = Some y -> y ∈ prev (deref h x).

(** An entry of the queue of [getDerivation]: a path of back-pointers from
    the match, and the string it spells. *)
Definition goodEntry (h : list State) (mtch : ref) (s0 : string)
    (entry : list ref * string) : Prop :=
  exists rest, fst entry = mtch :: rest /\ chained h (fst entry) /\
               snd entry = fold_left (nextSymString h) rest s0.

(** The sentential forms [formatDerivation] goes through. *)
Fixpoint sententialForms (h : list State) (sts : list ref) (symArray0 : SymArray)
    : list SymArray :=
  match sts with
  | [] => []
  | r :: rest =>
      let symArray' :=
        replaceLastNonterminal symArray0 (lhs (deref h r)) (symArray (deref h r)) in
      symArray' :: sententialForms h rest symArray'
  end.

Definition derivationForms (h : list State) (matchStates : list ref) : list SymArray :=
  match List.filter (fun r => State_isComplete (deref h r)) matchStates with
  | [] => []
  | s0 :: rest => symArray (deref h s0) :: sententialForms h rest (symArray (deref h s0))
  end.

(** The character of a Symbol of a grammar. *)
Definition charOf (X : Symbol) : ascii :=
  match X with Sym c _ => c | START_LHS => "000"%char end.

(** A Symbol of a grammar whose character HTML does not escape. *)
Definition plainSym (X : Symbol) : Prop :=
  X <> START_LHS /\ escapeChar (charOf X) = String (charOf X) "".

(** The Symbols one after the other, as [toString(false)] shows each: what
    [SymArray.toString(false)] gives for a SymArray that is not empty. *)
Definition render (a : list Symbol) : string :=
  fold_right (fun s str => Symbol_toString s +:+ str) "" a.

(** A grammar over plain characters, none of them at once a terminal and a
    nonterminal; [State.START_LHS] is not one of its Symbols. *)
Definition plainGrammar (g : Grammar) : Prop :=
  Forall plainSym (startSymbol g :: concat (altsOf g)) /\
  forall X Y, X ∈ startSymbol g :: concat (altsOf g) ->
              Y ∈ startSymbol g :: concat (altsOf g) -> ch X = ch Y -> X = Y.

(** Each form follows from the one before it by one rule of the grammar, or
    is the same. *)
Definition stepwise (g : Grammar) (forms : list (list Symbol)) : Prop :=
  forall k a b, forms !! k = Some a -> forms !! S k = Some b -> derives_step g a b \/ b = a.

(** * Properties *)

(** The range guards of the State constructor and of [addState]. *)
Ltac guard_is b :=
  match goal with
  | |- context [((?x <? 0) || (?x >? ?y))%Z] =>
      replace ((x <? 0) || (x >? y))%Z with b
        by (symmetry;
            first [ apply orb_false_iff; rewrite Z.ltb_ge, Z.gtb_ltb, Z.ltb_ge; lia
                  | apply orb_true_iff; rewrite Z.ltb_lt, Z.gtb_gt; lia ])
  end.

(** ** What [equals] compares *)

Lemma Symbol_equals_spec a b : Symbol_equals a b = true <-> symKey a = symKey b.
Proof.
  unfold Symbol_equals, symKey. rewrite andb_true_iff, String.eqb_eq, Bool.eqb_true_iff.
  split; [intros [-> ->]; reflexivity | intros [= -> ->]; split; reflexivity].
Qed.

Lemma SymArray_equals_spec a b :
  SymArray_equals a b = true <-> map symKey a = map symKey b.
Proof.
  revert b. induction a as [|x a IH]; intros [|y b]; cbn [SymArray_equals map];
    try (split; congruence).
  rewrite andb_true_iff, Symbol_equals_spec, IH.
  generalize (symKey x) (symKey y) (map symKey a) (map symKey b).
  intros k1 k2 l1 l2. split; [intros [-> ->]; reflexivity | intros [= -> ->]; auto].
Qed.

Lemma State_equals_spec a b : State_equals a b = true <-> item a = item b.
Proof.
  unfold State_equals, item.
  rewrite !andb_true_iff, Symbol_equals_spec, SymArray_equals_spec, Z.eqb_eq, Nat.eqb_eq.
  generalize (symKey (lhs a)) (symKey (lhs b)) (map symKey (symArray a))
    (map symKey (symArray b)).
  intros k1 k2 l1 l2.
  split; [intros [[[-> ->] ->] ->]; reflexivity | intros [= -> -> -> ->]; auto].
Qed.

Lemma State_equals_refl a : State_equals a a = true.
Proof. apply State_equals_spec. reflexivity. Qed.

Lemma prevArraysEqual_loop_refl h l : prevArraysEqual_loop h l l = true.
Proof. induction l as [|x l IH]; simpl; [reflexivity|]. rewrite Nat.eqb_refl. exact IH. Qed.

(** A back-pointer that is in the array is found there by [containsState]. *)
Lemma containsState_elem h l x b : x ∈ l -> containsState h l x b = true.
Proof.
  intros Hx. unfold containsState. apply existsb_exists. exists x. split.
  - apply list_elem_of_In. exact Hx.
  - rewrite State_equals_refl. unfold prevArraysEqual.
    rewrite prevArraysEqual_loop_refl. destruct b; reflexivity.
Qed.

(** What [containsState] finds equals the State that was looked for. *)
Lemma containsState_equal h l x b :
  containsState h l x b = true ->
  exists y, y ∈ l /\ State_equals (deref h y) (deref h x) = true.
Proof.
  unfold containsState. intros H. apply existsb_exists in H as (y & Hy & H).
  apply andb_true_iff in H as [H _]. exists y. split; [apply list_elem_of_In|]; assumption.
Qed.

Lemma prevArraysEqual_loop_spec h l1 l2 :
  prevArraysEqual_loop h l1 l2 = true <->
  map (fun r => counter (deref h r)) l1 = map (fun r => counter (deref h r)) l2.
Proof.
  revert l2. induction l1 as [|x l1 IH]; intros [|y l2]; simpl;
    try (split; [discriminate | discriminate]); [split; reflexivity|].
  rewrite andb_true_iff, Nat.eqb_eq, IH. split.
  - intros [-> ->]. reflexivity.
  - intros [= H1 H2]. auto.
Qed.

(** What [containsState(states, state, true)] looks for: an entry that
    equals [state] structurally and has a [prev] array with the same ids. *)
Lemma containsState_lookalike h l x :
  containsState h l x true = true <->
  exists y, y ∈ l /\ item (deref h y) = item (deref h x) /\
            map (fun r => counter (deref h r)) (prev (deref h y))
            = map (fun r => counter (deref h r)) (prev (deref h x)).
Proof.
  unfold containsState. rewrite existsb_exists. split.
  - intros (y & Hy & Hc). apply andb_true_iff in Hc as [He Hp]. simpl in Hp.
    exists y. split; [apply list_elem_of_In; exact Hy|].
    split; [apply State_equals_spec; exact He | apply prevArraysEqual_loop_spec; exact Hp].
  - intros (y & Hy & He & Hp). exists y. split; [apply list_elem_of_In; exact Hy|].
    apply andb_true_iff. split; [apply State_equals_spec; exact He|].
    simpl. apply prevArraysEqual_loop_spec. exact Hp.
Qed.

(** ** The State constructor *)

(** C9: constructing a State with [currentPosition] below 0 or above the
    length of its SymArray throws StateCurrentPositionOutOfBounds, which
    carries the rule and the offending position; for a position within
    [0, length] the constructor returns a new State that holds exactly the
    position it was given (no clamping), and takes the next counter value. *)
Theorem new_State_bounds (l : Symbol) (a : SymArray) (cur : Z) (origin : nat)
    (pv : list ref) (w : World) :
  (((cur < 0)%Z \/ (cur > Z.of_nat (length a))%Z) ->
     new_State l a cur origin pv w = Throw (StateCurrentPositionOutOfBounds l a cur)) /\
  ((0 <= cur <= Z.of_nat (length a))%Z ->
     exists w',
       new_State l a cur origin pv w = Ret (length (heap w)) w' /\
       deref (heap w') (length (heap w))
         = mkState l a cur origin pv (S (State_counter w)) /\
       currentPosition (deref (heap w') (length (heap w))) = cur).
Proof.
  unfold new_State. split.
  - intros Hout. guard_is true. reflexivity.
  - intros Hin. guard_is false.
    eexists. split; [reflexivity|]. simpl. unfold deref.
    rewrite list_lookup_total_middle by reflexivity. split; reflexivity.
Qed.

Lemma new_State_bounds_witness :
  new_State (Sym "S" false) [Sym "0" true] (-1) 0 [] (mkWorld [] 0 "" [[]])
    = Throw (StateCurrentPositionOutOfBounds (Sym "S" false) [Sym "0" true] (-1))
  /\ new_State (Sym "S" false) [Sym "0" true] 2 0 [] (mkWorld [] 0 "" [[]])
    = Throw (StateCurrentPositionOutOfBounds (Sym "S" false) [Sym "0" true] 2)
  /\ exists w',
       new_State (Sym "S" false) [Sym "0" true] 1 0 [] (mkWorld [] 0 "" [[]]) = Ret 0 w' /\
       deref (heap w') 0 = mkState (Sym "S" false) [Sym "0" true] 1 0 [] 1 /\
       currentPosition (deref (heap w') 0) = 1%Z.
Proof.
  split; [|split].
  - apply (new_State_bounds (Sym "S" false) [Sym "0" true] (-1) 0 [] (mkWorld [] 0 "" [[]])).
    left. reflexivity.
  - apply (new_State_bounds (Sym "S" false) [Sym "0" true] 2 0 [] (mkWorld [] 0 "" [[]])).
    right. reflexivity.
  - apply (new_State_bounds (Sym "S" false) [Sym "0" true] 1 0 [] (mkWorld [] 0 "" [[]])).
    simpl. lia.
Defined.

(** ** Chart insertion *)

(** C8: [addState] at index exactly [input.length + 1] returns false and
    leaves the whole store as it was; at a negative index or an index above
    [input.length + 1] it throws StateInputIndexOutOfBounds, and the
    exception ends whatever computation the call was part of. *)
Theorem addState_index_range (state : ref) (inputIndex : Z) (w : World) :
  (inputIndex = (Z.of_nat (String.length (input w)) + 1)%Z ->
     Context_addState state inputIndex w = Ret false w) /\
  (((inputIndex < 0)%Z \/ (inputIndex > Z.of_nat (String.length (input w)) + 1)%Z) ->
     Context_addState state inputIndex w
       = Throw (StateInputIndexOutOfBounds state inputIndex) /\
     forall (B : Type) (k : bool -> M B),
       (do b <- Context_addState state inputIndex; k b) w
         = Throw (StateInputIndexOutOfBounds state inputIndex)).
Proof.
  unfold bind, Context_addState. split.
  - intros ->. guard_is false. rewrite Z.eqb_refl. reflexivity.
  - intros Hout. guard_is true. split; [reflexivity | intros B k; reflexivity].
Qed.

Lemma addState_index_range_witness :
  Context_addState 0 3 (mkWorld [mkState START_LHS [Sym "S" false] 0 0 [] 1] 1 "ab" [[]; []; []])
    = Ret false (mkWorld [mkState START_LHS [Sym "S" false] 0 0 [] 1] 1 "ab" [[]; []; []])
  /\ Context_addState 0 (-1) (mkWorld [mkState START_LHS [Sym "S" false] 0 0 [] 1] 1 "ab" [[]; []; []])
    = Throw (StateInputIndexOutOfBounds 0 (-1))
  /\ Context_addState 0 4 (mkWorld [mkState START_LHS [Sym "S" false] 0 0 [] 1] 1 "ab" [[]; []; []])
    = Throw (StateInputIndexOutOfBounds 0 4).
Proof.
  split; [|split].
  - apply (addState_index_range 0 3
             (mkWorld [mkState START_LHS [Sym "S" false] 0 0 [] 1] 1 "ab" [[]; []; []])).
    reflexivity.
  - apply (addState_index_range 0 (-1)
             (mkWorld [mkState START_LHS [Sym "S" false] 0 0 [] 1] 1 "ab" [[]; []; []])).
    left. reflexivity.
  - apply (addState_index_range 0 4
             (mkWorld [mkState START_LHS [Sym "S" false] 0 0 [] 1] 1 "ab" [[]; []; []])).
    right. reflexivity.
Defined.

Lemma item_with_prev s pv : item (with_prev s pv) = item s.
Proof. reflexivity. Qed.

Lemma deref_set_prev_eq h e pv :
  e < length h -> deref (set_prev h e pv) e = with_prev (deref h e) pv.
Proof. intros He. unfold deref, set_prev. apply list_lookup_total_insert_eq. exact He. Qed.

Lemma deref_set_prev_ne h e pv r : r <> e -> deref (set_prev h e pv) r = deref h r.
Proof. intros Hne. unfold deref, set_prev. apply list_lookup_total_insert_ne. congruence. Qed.

Lemma length_set_prev h e pv : length (set_prev h e pv) = length h.
Proof. apply length_insert. Qed.

Lemma set_prev_set_prev h e pv pv' :
  set_prev (set_prev h e pv) e pv' = set_prev h e pv'.
Proof.
  unfold set_prev. destruct (decide (e < length h)) as [He|He].
  - fold (set_prev h e pv). rewrite deref_set_prev_eq by exact He.
    unfold set_prev. rewrite list_insert_insert_eq. reflexivity.
  - repeat (rewrite list_insert_ge by (rewrite ?length_insert; lia)). reflexivity.
Qed.

Lemma set_prev_same h e : set_prev h e (prev (deref h e)) = h.
Proof.
  unfold set_prev. destruct (decide (e < length h)) as [He|He].
  - apply list_insert_id. unfold deref.
    rewrite (list_lookup_lookup_total_lt h e He). f_equal.
    destruct (h !!! e); reflexivity.
  - apply list_insert_ge. lia.
Qed.

Lemma item_deref_set_prev h e pv r : item (deref (set_prev h e pv) r) = item (deref h r).
Proof.
  destruct (decide (r = e)) as [->|Hne]; [|rewrite deref_set_prev_ne by exact Hne; reflexivity].
  destruct (decide (e < length h)) as [He|He].
  - rewrite deref_set_prev_eq by exact He. reflexivity.
  - unfold set_prev. rewrite list_insert_ge by lia. reflexivity.
Qed.

Lemma push_prev_set_prev h e x :
  push_prev h e x = set_prev h e (prev (deref h e) ++ [x]).
Proof. reflexivity. Qed.

(** The merge loop of [addState]: the [prev] array of the equal entry grows
    at its end by some of the candidates, in their order. *)
Lemma merge_fold (e : ref) (cands : list ref) :
  forall (h : list State) (b : bool),
    e < length h ->
    exists added,
      fold_left (merge_step e) cands (h, b)
        = (set_prev h e (prev (deref h e) ++ added),
           match added with [] => b | _ => true end) /\
      sublist added cands /\
      NoDup added /\
      (forall x, x ∈ added -> x ∉ prev (deref h e)) /\
      (forall x, x ∈ cands ->
         exists y, y ∈ prev (deref h e) ++ added /\ item (deref h y) = item (deref h x)).
Proof.
  induction cands as [|x cands IH]; intros h b He.
  - exists []. simpl. rewrite app_nil_r, set_prev_same.
    repeat split; [constructor | constructor | | ]; intros x Hx; inversion Hx.
  - simpl. destruct (containsState h (prev (deref h e)) x true) eqn:Hc.
    + destruct (IH h b He) as (added & Hf & Hsub & Hnd & Hnew & Hrep).
      exists added. rewrite Hf. repeat split; try assumption.
      * apply sublist_cons. exact Hsub.
      * intros z Hz. apply elem_of_cons in Hz as [->|Hz]; [|apply Hrep; exact Hz].
        apply containsState_equal in Hc as (y & Hy & Heq).
        exists y. split; [apply elem_of_app; left; exact Hy|].
        apply State_equals_spec. exact Heq.
    + assert (Hx : x ∉ prev (deref h e)).
      { intros Hx. rewrite (containsState_elem _ _ _ true Hx) in Hc. discriminate. }
      rewrite push_prev_set_prev.
      destruct (IH (set_prev h e (prev (deref h e) ++ [x])) true) as
        (added & Hf & Hsub & Hnd & Hnew & Hrep); [rewrite length_set_prev; exact He|].
      rewrite deref_set_prev_eq in Hf, Hnew, Hrep by exact He. simpl in Hf, Hnew, Hrep.
      rewrite set_prev_set_prev, <- app_assoc in Hf. simpl in Hf.
      exists (x :: added). rewrite Hf. repeat split.
      * destruct added; reflexivity.
      * apply sublist_skip. exact Hsub.
      * constructor; [|exact Hnd]. intros Hin. apply (Hnew x Hin).
        apply elem_of_app. right. apply list_elem_of_singleton. reflexivity.
      * intros z Hz. apply elem_of_cons in Hz as [->|Hz]; [exact Hx|].
        intros Hin. apply (Hnew z Hz). apply elem_of_app. left. exact Hin.
      * intros z Hz. apply elem_of_cons in Hz as [->|Hz].
        -- exists x. split; [|reflexivity].
           apply elem_of_app. right. apply elem_of_cons. left. reflexivity.
        -- destruct (Hrep z Hz) as (y & Hy & Heq).
           rewrite !item_deref_set_prev in Heq.
           exists y. split; [|exact Heq].
           rewrite <- app_assoc in Hy. exact Hy.
Qed.

(** The merge loop of [addState], turn by turn: [adds k] is what the first
    [k] turns have pushed.  Turn [k] pushes its candidate exactly when
    [containsState] does not find it in the array as it is by then. *)
Lemma merge_turns (e : ref) (cands : list ref) (h : list State) (b : bool) :
  e < length h ->
  exists adds : nat -> list ref,
    adds 0 = [] /\
    (forall k x, cands !! k = Some x ->
       adds (S k)
       = adds k ++
         if containsState (set_prev h e (prev (deref h e) ++ adds k))
                          (prev (deref h e) ++ adds k) x true
         then [] else [x]) /\
    fold_left (merge_step e) cands (h, b)
    = (set_prev h e (prev (deref h e) ++ adds (length cands)),
       match adds (length cands) with [] => b | _ => true end).
Proof.
  intros He. induction cands as [|x cands IH] using rev_ind.
  - exists (fun _ => []). split; [reflexivity|]. split; [intros k x Hk; discriminate|].
    simpl. rewrite app_nil_r, set_prev_same. reflexivity.
  - destruct IH as (adds & H0 & Hstep & Hfold).
    set (n := length cands) in *.
    set (hn := set_prev h e (prev (deref h e) ++ adds n)) in *.
    set (turn := if containsState hn (prev (deref h e) ++ adds n) x true then [] else [x]).
    exists (fun k => if decide (k <= n) then adds k else adds n ++ turn).
    assert (Hlen : length (cands ++ [x]) = S n) by (rewrite length_app; simpl; lia).
    split; [|split].
    + destruct (decide (0 <= n)); [exact H0 | lia].
    + intros k y Hk. destruct (decide (k < n)) as [Hlt|Hge].
      * rewrite lookup_app_l in Hk by exact Hlt.
        destruct (decide (S k <= n)); [|lia]. destruct (decide (k <= n)); [|lia].
        apply (Hstep k y Hk).
      * assert (k = n) as ->.
        { apply lookup_lt_Some in Hk. rewrite Hlen in Hk. lia. }
        rewrite list_lookup_middle in Hk by reflexivity. injection Hk as <-.
        destruct (decide (S n <= n)); [lia|]. destruct (decide (n <= n)); [|lia].
        reflexivity.
    + rewrite Hlen. destruct (decide (S n <= n)); [lia|].
      rewrite fold_left_app, Hfold. simpl. fold hn.
      assert (Hprev : prev (deref hn e) = prev (deref h e) ++ adds n).
      { unfold hn. rewrite deref_set_prev_eq by exact He. reflexivity. }
      rewrite Hprev. unfold turn.
      destruct (containsState hn (prev (deref h e) ++ adds n) x true).
      * rewrite app_nil_r. reflexivity.
      * rewrite push_prev_set_prev, Hprev. unfold hn. rewrite set_prev_set_prev, <- app_assoc.
        f_equal. destruct (adds n); reflexivity.
Qed.

(** When the State that is added is the equal entry itself, the merge loop
    runs over the very array it could push to; it pushes nothing, so the
    array does not change under the loop. *)
Lemma merge_self (e : ref) (l : list ref) :
  forall (h : list State) (b : bool),
    (forall x, x ∈ l -> x ∈ prev (deref h e)) ->
    fold_left (merge_step e) l (h, b) = (h, b).
Proof.
  induction l as [|x l IH]; intros h b Hin; [reflexivity|]. simpl.
  rewrite (containsState_elem h _ x true (Hin x (list_elem_of_here x l))).
  apply IH. intros y Hy. apply Hin. apply list_elem_of_further. exact Hy.
Qed.

(** C3, as stated, fails: the back-pointer of State 3 has id 2, which is not
    among the ids of the existing entry's [prev] (only id 1), yet [addState]
    appends nothing and returns false, where insertion by id appends it and
    returns true. *)
Lemma addState_not_by_id :
  Context_getState merge_world 3 0 = Some 2 /\
  prev (deref (heap merge_world) 3) = [1] /\
  presentById (heap merge_world) (prev (deref (heap merge_world) 2)) 1 = false /\
  Context_addState 3 0 merge_world = Ret false merge_world /\
  insert_by_id 3 0 merge_world
    = Ret true (mkWorld (set_prev (heap merge_world) 2 [0; 1]) 4 "" [[0; 2]]).
Proof. repeat split. Qed.

Lemma addState_in_bounds state p w :
  p <= String.length (input w) ->
  Context_addState state (Z.of_nat p) w =
    match Context_getState w state p with
    | None =>
        Ret true (mkWorld (heap w) (State_counter w) (input w)
                          (alter (fun b => b ++ [state]) p (states w)))
    | Some equalState =>
        let '(h, addedPrev) :=
          fold_left (merge_step equalState) (prev (deref (heap w) state)) (heap w, false) in
        Ret addedPrev (mkWorld h (State_counter w) (input w) (states w))
    end.
Proof.
  intros Hp. unfold Context_addState. guard_is false.
  replace (Z.of_nat p =? _)%Z with false by (symmetry; apply Z.eqb_neq; lia).
  rewrite Nat2Z.id. reflexivity.
Qed.

(** C3, amended: at an index within [0, input.length], [addState] appends
    the State to the bucket and returns true when the bucket has no equal
    entry.  When it has one, the first such entry keeps its [prev] array and
    gets [added] appended to it, and the result is true iff [added] is not
    empty.  [added] is fixed turn by turn: the loop goes through the State's
    own [prev] in order, and the turn of a back-pointer [x] appends [x]
    exactly when [containsState(equalState.prev, x, true)] is false of the
    array as the turns before have left it.  Presence is so decided by
    [containsState], not by id: [x] counts as present when an entry of the
    array is structurally equal to [x] and has a [prev] array with the same
    ids.  It follows that [added] is a duplicate-free subsequence of the
    State's [prev], none of it in the entry's [prev] before, and that every
    back-pointer of the State is matched in the entry's [prev] afterwards by
    a structurally equal one. *)
Theorem addState_in_range (w : World) (state : ref) (p : nat) :
  p <= String.length (input w) ->
  (Context_getState w state p = None ->
     Context_addState state (Z.of_nat p) w
       = Ret true (mkWorld (heap w) (State_counter w) (input w)
                     (alter (fun b => b ++ [state]) p (states w)))) /\
  (forall e, Context_getState w state p = Some e -> e < length (heap w) ->
     exists added,
       Context_addState state (Z.of_nat p) w
         = Ret (match added with [] => false | _ => true end)
               (mkWorld (set_prev (heap w) e (prev (deref (heap w) e) ++ added))
                        (State_counter w) (input w) (states w)) /\
       sublist added (prev (deref (heap w) state)) /\
       NoDup added /\
       (forall x, x ∈ added -> x ∉ prev (deref (heap w) e)) /\
       (forall x, x ∈ prev (deref (heap w) state) ->
          exists y, y ∈ prev (deref (heap w) e) ++ added /\
                    item (deref (heap w) y) = item (deref (heap w) x)) /\
       (forall x, prev (deref (heap w) state) = [x] ->
          added = if containsState (heap w) (prev (deref (heap w) e)) x true
                  then [] else [x]) /\
       (exists adds : nat -> list ref,
          adds 0 = [] /\
          adds (length (prev (deref (heap w) state))) = added /\
          forall k x, prev (deref (heap w) state) !! k = Some x ->
            adds (S k)
            = adds k ++
              if containsState
                   (set_prev (heap w) e (prev (deref (heap w) e) ++ adds k))
                   (prev (deref (heap w) e) ++ adds k) x true
              then [] else [x])) /\
  (forall h l x,
     containsState h l x true = true <->
     exists y, y ∈ l /\ item (deref h y) = item (deref h x) /\
               map (fun r => counter (deref h r)) (prev (deref h y))
               = map (fun r => counter (deref h r)) (prev (deref h x))).
Proof.
  intros Hp. rewrite (addState_in_bounds state p w Hp).
  split; [|split; [|apply containsState_lookalike]].
  - intros ->. reflexivity.
  - intros e -> He.
    destruct (merge_fold e (prev (deref (heap w) state)) (heap w) false He)
      as (added & Hf & Hsub & Hnd & Hnew & Hrep).
    destruct (merge_turns e (prev (deref (heap w) state)) (heap w) false He)
      as (adds & H0 & Hstep & Hturns).
    assert (Hsame : adds (length (prev (deref (heap w) state))) = added).
    { rewrite Hf in Hturns. injection Hturns as Hh _.
      apply (f_equal (fun h => prev (deref h e))) in Hh.
      rewrite !deref_set_prev_eq in Hh by exact He. simpl in Hh.
      apply app_inv_head in Hh. congruence. }
    exists added. rewrite Hf. repeat split; try assumption.
    + intros x Hx. rewrite Hx in Hsame, Hstep. simpl in Hsame.
      rewrite <- Hsame, (Hstep 0 x eq_refl), H0, app_nil_r, set_prev_same. reflexivity.
    + exists adds. repeat split; assumption.
Qed.

Lemma addState_in_range_witness :
  exists added,
    Context_addState 4 (Z.of_nat 0) merge_world_three
      = Ret (match added with [] => false | _ => true end)
            (mkWorld (set_prev (heap merge_world_three) 3
                        (prev (deref (heap merge_world_three) 3) ++ added))
                     (State_counter merge_world_three) (input merge_world_three)
                     (states merge_world_three)) /\
    added = [0; 1].
Proof.
  destruct (addState_in_range merge_world_three 4 0) as (_ & H & _); [simpl; lia|].
  destruct (H 3) as (added & Hr & _ & _ & _ & _ & _ & adds & H0 & Hlast & Hstep);
    [reflexivity | simpl; lia |].
  exists added. split; [exact Hr|].
  rewrite <- Hlast. change (length (prev (deref (heap merge_world_three) 4))) with 3.
  rewrite (Hstep 2 2 eq_refl), (Hstep 1 1 eq_refl), (Hstep 0 0 eq_refl), H0.
  reflexivity.
Defined.

(** ** Invariants of the chart *)

Lemma elem_of_concat {A} (x : A) (ls : list (list A)) :
  x ∈ concat ls <-> exists p l, ls !! p = Some l /\ x ∈ l.
Proof.
  rewrite list_elem_of_In, in_concat. split.
  - intros (l & Hl & Hx). apply list_elem_of_In, list_elem_of_lookup in Hl as [p Hp].
    exists p, l. split; [exact Hp | apply list_elem_of_In; exact Hx].
  - intros (p & l & Hp & Hx). exists l. split; apply list_elem_of_In;
      [apply (list_elem_of_lookup_2 _ p); exact Hp | exact Hx].
Qed.

Lemma inChart_bucket w p b r : states w !! p = Some b -> r ∈ b -> inChart w r.
Proof. intros Hp Hr. apply elem_of_concat. exists p, b. split; assumption. Qed.

Lemma ext_refl w : ext w w.
Proof.
  constructor; try reflexivity.
  intros p b Hb. exists b. split; [exact Hb | reflexivity].
Qed.

Lemma ext_trans w1 w2 w3 : ext w1 w2 -> ext w2 w3 -> ext w1 w3.
Proof.
  intros [Hi1 Hh1 Hc1 Hp1 Hl1 Hs1] [Hi2 Hh2 Hc2 Hp2 Hl2 Hs2]. constructor.
  - congruence.
  - lia.
  - intros r Hr. rewrite Hc2 by lia. apply Hc1. exact Hr.
  - intros r Hr. etransitivity; [apply Hp1; exact Hr | apply Hp2; lia].
  - congruence.
  - intros p b Hb. destruct (Hs1 p b Hb) as (b1 & Hb1 & Hpre1).
    destruct (Hs2 p b1 Hb1) as (b2 & Hb2 & Hpre2).
    exists b2. split; [exact Hb2 | etransitivity; eassumption].
Qed.

Lemma same_chart_ext w w' : same_chart w w' -> ext w w'.
Proof.
  intros [Hi Hh Hd Hs]. constructor; try assumption.
  - intros r Hr. rewrite Hd by exact Hr. reflexivity.
  - intros r Hr. rewrite Hd by exact Hr. reflexivity.
  - rewrite Hs. reflexivity.
  - intros p b Hb. exists b. rewrite Hs. split; [exact Hb | reflexivity].
Qed.

Lemma same_chart_refl w : same_chart w w.
Proof. constructor; reflexivity. Qed.

Lemma same_chart_trans w1 w2 w3 : same_chart w1 w2 -> same_chart w2 w3 -> same_chart w1 w3.
Proof.
  intros [Hi1 Hh1 Hd1 Hs1] [Hi2 Hh2 Hd2 Hs2]. constructor; try congruence; try lia.
  intros r Hr. rewrite Hd2 by lia. apply Hd1. exact Hr.
Qed.

Lemma ext_inChart w w' r : ext w w' -> inChart w r -> inChart w' r.
Proof.
  intros Hext Hr. apply elem_of_concat in Hr as (p & b & Hb & Hr).
  destruct (ext_states _ _ Hext p b Hb) as (b' & Hb' & Hpre).
  apply (inChart_bucket w' p b' r Hb'). destruct Hpre as [k ->].
  apply elem_of_app. left. exact Hr.
Qed.

Lemma ext_fields w w' r :
  ext w w' -> r < length (heap w) ->
  lhs (deref (heap w') r) = lhs (deref (heap w) r) /\
  symArray (deref (heap w') r) = symArray (deref (heap w) r) /\
  currentPosition (deref (heap w') r) = currentPosition (deref (heap w) r) /\
  originPosition (deref (heap w') r) = originPosition (deref (heap w) r) /\
  counter (deref (heap w') r) = counter (deref (heap w) r).
Proof.
  intros Hext Hr. pose proof (ext_core _ _ Hext r Hr) as Hc.
  unfold core, with_prev in Hc. injection Hc as H1 H2 H3 H4 H5. auto.
Qed.

Lemma ext_item w w' r :
  ext w w' -> r < length (heap w) -> item (deref (heap w') r) = item (deref (heap w) r).
Proof.
  intros Hext Hr. destruct (ext_fields w w' r Hext Hr) as (H1 & H2 & H3 & H4 & _).
  unfold item. rewrite H1, H2, H3, H4. reflexivity.
Qed.

Lemma ext_wfState g p w w' r :
  ext w w' -> r < length (heap w) ->
  wfState g p (deref (heap w) r) -> wfState g p (deref (heap w') r).
Proof.
  intros Hext Hr. destruct (ext_fields w w' r Hext Hr) as (H1 & H2 & H3 & H4 & _).
  unfold wfState. rewrite H1, H2, H3, H4. auto.
Qed.

Lemma sum_list_with_le {A} (f f' : A -> nat) (l k : list A) :
  (forall x, x ∈ l -> f x <= f' x) ->
  sum_list_with f l <= sum_list_with f' (l ++ k).
Proof.
  induction l as [|x l IH]; intros Hle; simpl; [lia|].
  pose proof (Hle x (list_elem_of_here x l)).
  assert (sum_list_with f l <= sum_list_with f' (l ++ k)).
  { apply IH. intros y Hy. apply Hle. apply list_elem_of_further. exact Hy. }
  lia.
Qed.

Lemma sum_list_with_gain {A} (f f' : A -> nat) (l : list A) (e : A) (n : nat) :
  e ∈ l -> (forall x, x ∈ l -> f x <= f' x) -> f e + n <= f' e ->
  sum_list_with f l + n <= sum_list_with f' l.
Proof.
  intros He Hle Hgain. induction l as [|x l IH]; [inversion He|]. simpl.
  assert (Hl : sum_list_with f l <= sum_list_with f' l).
  { rewrite <- (app_nil_r l) at 2. apply sum_list_with_le.
    intros y Hy. apply Hle. apply list_elem_of_further. exact Hy. }
  apply elem_of_cons in He as [->|He].
  - lia.
  - pose proof (Hle x (list_elem_of_here x l)).
    assert (sum_list_with f l + n <= sum_list_with f' l).
    { apply IH; [exact He|]. intros y Hy. apply Hle. apply list_elem_of_further. exact Hy. }
    lia.
Qed.

Lemma bucket_lookup w p b : states w !! p = Some b -> states w !!! p = b.
Proof. intros H. apply list_lookup_total_correct. exact H. Qed.

Lemma bucket_total g w p :
  Inv g w -> p <= String.length (input w) -> states w !! p = Some (states w !!! p).
Proof.
  intros HI Hp. apply list_lookup_lookup_total_lt. rewrite (inv_len _ _ HI). lia.
Qed.

(** The weight of a bucket does not go down. *)
Lemma weight_mono g w w' i : Inv g w -> ext w w' -> weight w i <= weight w' i.
Proof.
  intros HI Hext. unfold weight.
  destruct (states w !! i) as [b|] eqn:Hb.
  - destruct (ext_states _ _ Hext i b Hb) as (b' & Hb' & [k ->]).
    rewrite (bucket_lookup _ _ _ Hb), (bucket_lookup _ _ _ Hb'), length_app.
    assert (sum_list_with (fun r => length (prev (deref (heap w) r))) b
            <= sum_list_with (fun r => length (prev (deref (heap w') r))) (b ++ k)).
    { apply sum_list_with_le. intros r Hr. apply prefix_length, (ext_prev _ _ Hext).
      apply (inv_valid _ _ HI), (inChart_bucket w i b r Hb Hr). }
    lia.
  - rewrite (list_lookup_total_alt (states w)), Hb. simpl. lia.
Qed.

Lemma same_chart_weight g w w' i : Inv g w -> same_chart w w' -> weight w' i = weight w i.
Proof.
  intros HI [_ _ Hd Hs]. unfold weight. rewrite Hs. f_equal.
  destruct (states w !! i) as [b|] eqn:Hb.
  - rewrite (bucket_lookup _ _ _ Hb).
    assert (Hall : forall r, r ∈ b -> r < length (heap w)).
    { intros r Hr. apply (inv_valid _ _ HI), (inChart_bucket w i b r Hb Hr). }
    clear Hb. induction b as [|r b IH]; [reflexivity|]. simpl.
    rewrite Hd by (apply Hall; left). rewrite IH; [reflexivity|].
    intros r' Hr'. apply Hall. right. exact Hr'.
  - rewrite (list_lookup_total_alt (states w)), Hb. reflexivity.
Qed.

Lemma same_chart_Inv g w w' : Inv g w -> same_chart w w' -> Inv g w'.
Proof.
  intros HI [Hi Hh Hd Hs].
  assert (Hv : forall r, inChart w' r -> r < length (heap w)).
  { intros r Hr. apply (inv_valid _ _ HI). unfold inChart in *. rewrite <- Hs. exact Hr. }
  constructor.
  - rewrite Hs, Hi. apply (inv_len _ _ HI).
  - intros r Hr. specialize (Hv r Hr). lia.
  - intros p b Hb. rewrite Hs in Hb.
    erewrite list_fmap_ext; [apply (inv_nodup _ _ HI p b Hb)|].
    intros k r Hr. simpl. rewrite Hd; [reflexivity|].
    apply Hv. unfold inChart. rewrite Hs.
    apply (inChart_bucket w p b r Hb), (list_elem_of_lookup_2 _ k), Hr.
  - intros p b r Hb Hr. rewrite Hs in Hb. rewrite Hd.
    + apply (inv_shape _ _ HI p b r Hb Hr).
    + apply (inv_valid _ _ HI), (inChart_bucket w p b r Hb Hr).
  - intros r Hr. rewrite Hd by (apply Hv; exact Hr).
    unfold inChart in *. rewrite Hs in *. apply (inv_prev _ _ HI r Hr).
Qed.

Lemma Step_refl i w : Step i false w w.
Proof.
  constructor; [apply ext_refl | simpl; lia | intros _; apply same_chart_refl].
Qed.

Lemma Step_trans g i b1 b2 w1 w2 w3 :
  Inv g w1 -> Inv g w2 -> Step i b1 w1 w2 -> Step i b2 w2 w3 -> Step i (b1 || b2) w1 w3.
Proof.
  intros HI1 HI2 [He1 Hw1 Hs1] [He2 Hw2 Hs2]. constructor.
  - eapply ext_trans; eassumption.
  - pose proof (weight_mono g w1 w2 i HI1 He1).
    pose proof (weight_mono g w2 w3 i HI2 He2).
    destruct b1, b2; simpl in *; lia.
  - intros Hb. apply orb_false_iff in Hb as [-> ->].
    eapply same_chart_trans; [apply Hs1 | apply Hs2]; reflexivity.
Qed.

Lemma same_chart_Step g i w w' : Inv g w -> same_chart w w' -> Step i false w w'.
Proof.
  intros HI Hs. constructor.
  - apply same_chart_ext. exact Hs.
  - rewrite (same_chart_weight g w w' i HI Hs). simpl. lia.
  - intros _. exact Hs.
Qed.

(** Making a State leaves the chart alone. *)
Lemma new_State_ok g w l a cur origin pv :
  Inv g w -> (0 <= cur <= Z.of_nat (length a))%Z ->
  exists w',
    new_State l a cur origin pv w = Ret (length (heap w)) w' /\
    heap w' = heap w ++ [mkState l a cur origin pv (S (State_counter w))] /\
    same_chart w w' /\ Inv g w'.
Proof.
  intros HI Hcur. unfold new_State. guard_is false.
  eexists. split; [reflexivity|]. split; [reflexivity|].
  assert (Hs : same_chart w
            (mkWorld (heap w ++ [mkState l a cur origin pv (S (State_counter w))])
                     (S (State_counter w)) (input w) (states w))).
  { constructor; simpl; try reflexivity.
    - rewrite length_app. lia.
    - intros r Hr. unfold deref. apply lookup_total_app_l. exact Hr. }
  split; [exact Hs | apply (same_chart_Inv g w _ HI Hs)].
Qed.

(** Appending back-pointers to a State of the chart. *)
Lemma set_prev_ok g w e added :
  Inv g w -> inChart w e -> NoDup added ->
  (forall x, x ∈ added -> x ∉ prev (deref (heap w) e)) ->
  (forall x, x ∈ added -> inChart w x) ->
  Inv g (mkWorld (set_prev (heap w) e (prev (deref (heap w) e) ++ added))
                 (State_counter w) (input w) (states w)) /\
  ext w (mkWorld (set_prev (heap w) e (prev (deref (heap w) e) ++ added))
                 (State_counter w) (input w) (states w)) /\
  forall p, e ∈ states w !!! p ->
    weight w p + length added
    <= weight (mkWorld (set_prev (heap w) e (prev (deref (heap w) e) ++ added))
                       (State_counter w) (input w) (states w)) p.
Proof.
  intros HI He Hnd Hnew Hin.
  pose proof (inv_valid _ _ HI e He) as Hev.
  set (h' := set_prev (heap w) e (prev (deref (heap w) e) ++ added)).
  assert (Hcore : forall r, core (deref h' r) = core (deref (heap w) r)).
  { intros r. unfold h'. destruct (decide (r = e)) as [->|Hne].
    - rewrite deref_set_prev_eq by exact Hev. reflexivity.
    - rewrite deref_set_prev_ne by exact Hne. reflexivity. }
  assert (Hprev : forall r,
            prev (deref h' r) = prev (deref (heap w) r) ++ (if decide (r = e) then added else [])).
  { intros r. unfold h'. destruct (decide (r = e)) as [->|Hne].
    - rewrite deref_set_prev_eq by exact Hev. reflexivity.
    - rewrite deref_set_prev_ne by exact Hne. rewrite app_nil_r. reflexivity. }
  assert (Hitem : forall r, item (deref h' r) = item (deref (heap w) r)).
  { intros r. apply item_deref_set_prev. }
  split; [|split].
  - constructor; simpl.
    + apply (inv_len _ _ HI).
    + intros r Hr. unfold h'. rewrite length_set_prev. apply (inv_valid _ _ HI r Hr).
    + intros p b Hb. erewrite list_fmap_ext; [apply (inv_nodup _ _ HI p b Hb)|].
      intros k r _. simpl. apply Hitem.
    + intros p b r Hb Hr. pose proof (inv_shape _ _ HI p b r Hb Hr) as Hwf.
      pose proof (Hcore r) as Hc. unfold core, with_prev in Hc.
      injection Hc as H1 H2 H3 H4 _. unfold wfState. rewrite H1, H2, H3, H4. exact Hwf.
    + intros r Hr. destruct (inv_prev _ _ HI r Hr) as [Hnd' Hin']. rewrite Hprev.
      destruct (decide (r = e)) as [->|Hne].
      * split.
        -- apply NoDup_app. repeat split; [exact Hnd' | | exact Hnd].
           intros x Hx Hx'. apply (Hnew x Hx' Hx).
        -- intros x Hx. apply elem_of_app in Hx as [Hx|Hx]; [apply Hin' | apply Hin]; exact Hx.
      * rewrite app_nil_r. split; assumption.
  - constructor; simpl; try reflexivity.
    + unfold h'. rewrite length_set_prev. lia.
    + intros r _. apply Hcore.
    + intros r _. rewrite Hprev. apply prefix_app_r. reflexivity.
    + intros p b Hb. exists b. split; [exact Hb | reflexivity].
  - intros p Hp. unfold weight. simpl.
    assert (sum_list_with (fun r => length (prev (deref (heap w) r))) (states w !!! p)
              + length added
            <= sum_list_with (fun r => length (prev (deref h' r))) (states w !!! p)).
    { apply (sum_list_with_gain _ _ _ e); [exact Hp | |].
      - intros r _. rewrite Hprev, length_app. lia.
      - rewrite Hprev, length_app. destruct (decide (e = e)); [lia | congruence]. }
    lia.
Qed.

(** Appending a State to a bucket. *)
Lemma push_state_ok g w next p :
  Inv g w -> p <= String.length (input w) -> next < length (heap w) ->
  wfState g p (deref (heap w) next) ->
  NoDup (prev (deref (heap w) next)) ->
  (forall x, x ∈ prev (deref (heap w) next) -> inChart w x) ->
  Context_getState w next p = None ->
  Inv g (mkWorld (heap w) (State_counter w) (input w)
                 (alter (fun b => b ++ [next]) p (states w))) /\
  ext w (mkWorld (heap w) (State_counter w) (input w)
                 (alter (fun b => b ++ [next]) p (states w))) /\
  weight w p + 1
  <= weight (mkWorld (heap w) (State_counter w) (input w)
                     (alter (fun b => b ++ [next]) p (states w))) p.
Proof.
  intros HI Hp Hv Hwf Hnd Hin Hget.
  pose proof (bucket_total g w p HI Hp) as Hb.
  set (w' := mkWorld _ _ _ _).
  assert (Hlook : forall q b', states w' !! q = Some b' ->
            (q = p /\ b' = states w !!! p ++ [next]) \/ (q <> p /\ states w !! q = Some b')).
  { intros q b' Hq. unfold w' in Hq. cbn [states] in Hq.
    destruct (decide (q = p)) as [->|Hne].
    - left. rewrite list_lookup_alter_eq, Hb in Hq. simpl in Hq. split; congruence.
    - right. rewrite list_lookup_alter_ne in Hq by congruence. split; assumption. }
  assert (Hext : ext w w').
  { constructor; simpl; try reflexivity.
    - apply length_alter.
    - intros q b Hq. destruct (decide (q = p)) as [->|Hne].
      + exists (b ++ [next]). rewrite list_lookup_alter_eq, Hq. simpl.
        split; [reflexivity | apply prefix_app_r; reflexivity].
      + exists b. rewrite list_lookup_alter_ne by congruence.
        split; [exact Hq | reflexivity]. }
  assert (Hchart : forall r, inChart w' r -> inChart w r \/ r = next).
  { intros r Hr. apply elem_of_concat in Hr as (q & b' & Hq & Hr).
    destruct (Hlook q b' Hq) as [[-> ->]|[_ Hq']].
    - apply elem_of_app in Hr as [Hr|Hr].
      + left. apply (inChart_bucket w p _ r Hb Hr).
      + right. apply list_elem_of_singleton in Hr. exact Hr.
    - left. apply (inChart_bucket w q b' r Hq' Hr). }
  split; [|split].
  - constructor; simpl.
    + rewrite length_alter. apply (inv_len _ _ HI).
    + intros r Hr. destruct (Hchart r Hr) as [Hr'| ->]; [apply (inv_valid _ _ HI r Hr') | exact Hv].
    + intros q b' Hq. destruct (Hlook q b' Hq) as [[-> ->]|[_ Hq']].
      * rewrite fmap_app. apply NoDup_app. repeat split.
        -- apply (inv_nodup _ _ HI p _ Hb).
        -- intros it Hit Hit'. simpl in Hit'. apply list_elem_of_singleton in Hit'. subst it.
           apply list_elem_of_fmap in Hit as (r & Heq & Hr).
           unfold Context_getState in Hget.
           pose proof (find_none _ _ Hget r) as Hf.
           rewrite <- list_elem_of_In in Hf. specialize (Hf Hr).
           apply not_true_iff_false in Hf. apply Hf, State_equals_spec. symmetry. exact Heq.
        -- simpl. apply NoDup_singleton.
      * apply (inv_nodup _ _ HI q b' Hq').
    + intros q b' r Hq Hr. destruct (Hlook q b' Hq) as [[-> ->]|[_ Hq']].
      * apply elem_of_app in Hr as [Hr|Hr].
        -- apply (inv_shape _ _ HI p _ r Hb Hr).
        -- apply list_elem_of_singleton in Hr. subst r. exact Hwf.
      * apply (inv_shape _ _ HI q b' r Hq' Hr).
    + intros r Hr. destruct (Hchart r Hr) as [Hr'| ->].
      * destruct (inv_prev _ _ HI r Hr') as [Hnd' Hin']. split; [exact Hnd'|].
        intros x Hx. apply (ext_inChart w w' x Hext), Hin', Hx.
      * split; [exact Hnd|]. intros x Hx. apply (ext_inChart w w' x Hext), Hin, Hx.
  - exact Hext.
  - unfold weight, w'. simpl. rewrite list_lookup_total_alter_eq by (rewrite (inv_len _ _ HI); lia).
    rewrite length_app, sum_list_with_app. simpl. lia.
Qed.

(** [addState] of a well-formed State at an index of the input. *)
Lemma addState_ok g w next p :
  Inv g w -> p <= String.length (input w) -> next < length (heap w) ->
  wfState g p (deref (heap w) next) ->
  NoDup (prev (deref (heap w) next)) ->
  (forall x, x ∈ prev (deref (heap w) next) -> inChart w x) ->
  exists b w',
    Context_addState next (Z.of_nat p) w = Ret b w' /\
    Inv g w' /\ ext w w' /\
    length (heap w') = length (heap w) /\
    weight w p + b2n b <= weight w' p /\
    (forall q, q <> p -> states w' !! q = states w !! q) /\
    (b = false ->
       w' = w /\
       exists e, e ∈ states w !!! p /\ item (deref (heap w) e) = item (deref (heap w) next)).
Proof.
  intros HI Hp Hv Hwf Hnd Hin. rewrite (addState_in_bounds next p w Hp).
  destruct (Context_getState w next p) as [e|] eqn:Hget.
  - unfold Context_getState in Hget. apply find_some in Hget as [He Heq].
    apply list_elem_of_In in He. apply State_equals_spec in Heq.
    assert (Hec : inChart w e).
    { apply (inChart_bucket w p _ e (bucket_total g w p HI Hp) He). }
    pose proof (inv_valid _ _ HI e Hec) as Hev.
    destruct (merge_fold e (prev (deref (heap w) next)) (heap w) false Hev)
      as (added & Hf & Hsub & Hnda & Hnew & _).
    rewrite Hf.
    assert (Hina : forall x, x ∈ added -> inChart w x).
    { intros x Hx. apply Hin. eapply elem_of_sublist; eassumption. }
    destruct (set_prev_ok g w e added HI Hec Hnda Hnew Hina) as (HI' & Hext & Hw).
    eexists _, _. split; [reflexivity|]. split; [exact HI'|]. split; [exact Hext|].
    split; [simpl; apply length_set_prev|]. split; [|split].
    + specialize (Hw p He). destruct added; simpl in *; lia.
    + intros q _. reflexivity.
    + intros Hb. destruct added; [|discriminate]. split.
      * rewrite app_nil_r, set_prev_same. destruct w; reflexivity.
      * exists e. split; assumption.
  - destruct (push_state_ok g w next p HI Hp Hv Hwf Hnd Hin Hget) as (HI' & Hext & Hw).
    eexists _, _. split; [reflexivity|]. split; [exact HI'|]. split; [exact Hext|].
    split; [reflexivity|]. split; [simpl; exact Hw|]. split; [|discriminate].
    intros q Hq. simpl. apply list_lookup_alter_ne. congruence.
Qed.

Lemma for_each_closes {A} g i (P : World -> Prop) (l : list A) (body : A -> M bool)
    (Q : A -> World -> Prop) :
  (forall w w', Inv g w -> P w -> ext w w' -> P w') ->
  (forall x w w', Inv g w -> same_chart w w' -> Q x w -> Q x w') ->
  (forall x, x ∈ l -> closes g i P (body x) (Q x)) ->
  closes g i P (for_each l body) (fun w => forall x, x ∈ l -> Q x w).
Proof.
  intros HP HQ. induction l as [|x l IH]; intros Hbody w HI HPw.
  - simpl. unfold ret. split; [exact HI|]. split; [apply Step_refl|].
    intros _ x Hx. inversion Hx.
  - simpl. unfold bind.
    pose proof (Hbody x (list_elem_of_here x l) w HI HPw) as Hx.
    destruct (body x w) as [b w1| |]; [|exact Hx|exact Hx].
    destruct Hx as (HI1 & Hs1 & HQ1).
    assert (HP1 : P w1) by (apply (HP w w1 HI HPw), (step_ext _ _ _ _ Hs1)).
    assert (Hl : closes g i P (for_each l body) (fun w => forall x, x ∈ l -> Q x w)).
    { apply IH. intros y Hy. apply Hbody. apply list_elem_of_further. exact Hy. }
    specialize (Hl w1 HI1 HP1).
    destruct (for_each l body w1) as [bs w2| |]; [|exact Hl|exact Hl].
    destruct Hl as (HI2 & Hs2 & HQ2). unfold ret.
    split; [exact HI2|]. split; [apply (Step_trans g i b bs w w1 w2 HI HI1 Hs1 Hs2)|].
    intros Hb. apply orb_false_iff in Hb as [-> ->].
    intros y Hy. apply elem_of_cons in Hy as [->|Hy].
    + apply (HQ x w1 w2 HI1); [apply (step_same _ _ _ _ Hs2); reflexivity|].
      apply HQ1. reflexivity.
    + apply HQ2; [reflexivity | exact Hy].
Qed.

Lemma bucket_elem_lookup w i e : e ∈ states w !!! i -> states w !! i = Some (states w !!! i).
Proof.
  intros He. rewrite list_lookup_total_alt in *.
  destruct (states w !! i); [reflexivity | inversion He].
Qed.

Lemma bucket_elem_inChart w i e : e ∈ states w !!! i -> inChart w e.
Proof.
  intros He. apply (inChart_bucket w i _ e (bucket_elem_lookup w i e He) He).
Qed.

(** Making a State with the single back-pointer [state] and adding it at
    index [p]: the three places where [doesMatch] creates States. *)
Lemma make_and_add_ok g w l a cur origin state p :
  Inv g w -> p <= String.length (input w) -> inChart w state ->
  l ∈ lhsU g -> a ∈ altU g -> (0 <= cur <= Z.of_nat (length a))%Z -> origin <= p ->
  exists b w',
    (do next <- new_State l a cur origin [state];
     Context_addState next (Z.of_nat p)) w = Ret b w' /\
    Inv g w' /\ ext w w' /\
    weight w p + b2n b <= weight w' p /\
    (forall q, q <> p -> states w' !! q = states w !! q) /\
    (b = false ->
       same_chart w w' /\
       exists e, e ∈ states w' !!! p /\
                 item (deref (heap w') e) = (symKey l, map symKey a, cur, origin)).
Proof.
  intros HI Hp Hst Hl Ha Hcur Ho. unfold bind.
  destruct (new_State_ok g w l a cur origin [state] HI Hcur) as (w1 & -> & Hh1 & Hs1 & HI1).
  assert (Hd : deref (heap w1) (length (heap w)) = mkState l a cur origin [state] (S (State_counter w))).
  { rewrite Hh1. unfold deref. apply list_lookup_total_middle. reflexivity. }
  destruct (addState_ok g w1 (length (heap w)) p HI1) as (b & w2 & Hr & HI2 & Hext & _ & Hw & Hq & Hf).
  - rewrite (same_input _ _ Hs1). exact Hp.
  - rewrite Hh1, length_app. simpl. lia.
  - rewrite Hd. repeat split; simpl; try assumption; lia.
  - rewrite Hd. simpl. apply NoDup_singleton.
  - rewrite Hd. simpl. intros x Hx. apply list_elem_of_singleton in Hx. subst x.
    apply (ext_inChart w w1 state (same_chart_ext _ _ Hs1) Hst).
  - exists b, w2. split; [exact Hr|]. split; [exact HI2|].
    split; [eapply ext_trans; [apply same_chart_ext; exact Hs1 | exact Hext]|].
    split; [rewrite <- (same_chart_weight g w w1 p HI Hs1); exact Hw|].
    split; [intros q Hne; rewrite (Hq q Hne), (same_states _ _ Hs1); reflexivity|].
    intros Hb. destruct (Hf Hb) as (-> & e & He & Hit).
    split; [exact Hs1|]. exists e. split; [exact He|]. rewrite Hit, Hd. reflexivity.
Qed.

Lemma js_index_Some {A} (a : list A) (i : Z) (x : A) :
  js_index a i = Some x -> (0 <= i < Z.of_nat (length a))%Z.
Proof.
  unfold js_index. destruct (i <? 0)%Z eqn:Hi; [discriminate|].
  intros H. apply lookup_lt_Some in H. apply Z.ltb_ge in Hi. lia.
Qed.

Lemma js_index_elem {A} (a : list A) (i : Z) (x : A) : js_index a i = Some x -> x ∈ a.
Proof.
  unfold js_index. destruct (i <? 0)%Z; [discriminate|].
  intros H. apply (list_elem_of_lookup_2 _ _ _ H).
Qed.

(** Advancing the dot of [c] and adding the result at index [p]. *)
Lemma advance_and_add_ok g w c state p q X :
  Inv g w -> p <= String.length (input w) -> inChart w state ->
  wfState g q (deref (heap w) c) -> q <= p ->
  js_index (symArray (deref (heap w) c)) (currentPosition (deref (heap w) c)) = Some X ->
  exists b w',
    (do next <- State_getAdvancedState c [state];
     Context_addState next (Z.of_nat p)) w = Ret b w' /\
    Inv g w' /\ ext w w' /\
    weight w p + b2n b <= weight w' p /\
    (forall q', q' <> p -> states w' !! q' = states w !! q') /\
    (b = false ->
       same_chart w w' /\
       exists e, e ∈ states w' !!! p /\
                 item (deref (heap w') e)
                   = (symKey (lhs (deref (heap w) c)), map symKey (symArray (deref (heap w) c)),
                      (currentPosition (deref (heap w) c) + 1)%Z,
                      originPosition (deref (heap w) c))).
Proof.
  intros HI Hp Hst (Hl & Ha & Hcur & Ho) Hq HX. apply js_index_Some in HX.
  apply (make_and_add_ok g w _ _ _ _ state p HI Hp Hst Hl Ha); lia.
Qed.

Lemma same_chart_bucket_deref g w w' i e :
  Inv g w -> same_chart w w' -> e ∈ states w !!! i ->
  deref (heap w') e = deref (heap w) e.
Proof.
  intros HI Hs He. apply (same_deref _ _ Hs), (inv_valid _ _ HI), (bucket_elem_inChart w i e He).
Qed.

Lemma same_chart_predicted g w w' i state :
  Inv g w -> same_chart w w' -> inChart w state ->
  predicted g w i state -> predicted g w' i state.
Proof.
  intros HI Hs Hst Hpred X production alt HX Ht Hprod Halt.
  rewrite (same_deref _ _ Hs) in HX by (apply (inv_valid _ _ HI), Hst).
  destruct (Hpred X production alt HX Ht Hprod Halt) as (e & He & Hit).
  exists e. rewrite (same_states _ _ Hs). split; [exact He|].
  rewrite (same_chart_bucket_deref g w w' i e HI Hs He). exact Hit.
Qed.

Lemma same_chart_completed_by g w w' i state candidate :
  Inv g w -> same_chart w w' -> inChart w state -> inChart w candidate ->
  completed_by w i state candidate -> completed_by w' i state candidate.
Proof.
  intros HI Hs Hst Hc Hcomp. unfold completed_by in *.
  rewrite !(same_deref _ _ Hs) by (apply (inv_valid _ _ HI); assumption).
  intros Hnext. destruct (Hcomp Hnext) as (e & He & Hit).
  exists e. rewrite (same_states _ _ Hs). split; [exact He|].
  rewrite (same_chart_bucket_deref g w w' i e HI Hs He). exact Hit.
Qed.

Lemma same_chart_completed g w w' i state :
  Inv g w -> same_chart w w' -> inChart w state ->
  completed w i state -> completed w' i state.
Proof.
  intros HI Hs Hst Hcomp. unfold completed in *.
  rewrite !(same_deref _ _ Hs) by (apply (inv_valid _ _ HI); assumption).
  rewrite (same_states _ _ Hs).
  intros Hc candidate Hcand.
  apply (same_chart_completed_by g w w' i state candidate HI Hs Hst).
  - apply (bucket_elem_inChart w _ candidate Hcand).
  - apply Hcomp; assumption.
Qed.

Lemma predict_closes g i nextSymbol state alt :
  nextSymbol ∈ lhsU g -> alt ∈ altU g ->
  closes g i (fun w => i <= String.length (input w) /\ inChart w state)
    (predict nextSymbol i state alt)
    (fun w => exists e, e ∈ states w !!! i /\
                        item (deref (heap w) e) = (symKey nextSymbol, map symKey alt, 0%Z, i)).
Proof.
  intros Hl Ha w HI [Hi Hst]. unfold predict.
  destruct (make_and_add_ok g w nextSymbol alt 0 i state i HI Hi Hst Hl Ha)
    as (b & w' & -> & HI' & Hext & Hw & _ & Hf); [lia | lia |].
  split; [exact HI'|]. split.
  - constructor; [exact Hext | exact Hw | intros Hb; apply Hf, Hb].
  - intros Hb. apply Hf, Hb.
Qed.

Lemma complete_closes g i state candidate :
  closes g i
    (fun w => i <= String.length (input w) /\ inChart w state /\ inChart w candidate /\
              wfState g i (deref (heap w) candidate))
    (complete i state candidate)
    (fun w => inChart w state /\ inChart w candidate /\ completed_by w i state candidate).
Proof.
  intros w HI (Hi & Hst & Hc & Hwf). unfold complete.
  destruct (State_hasNonterminalNext _ _) eqn:Hnext.
  - unfold State_hasNonterminalNext in Hnext.
    destruct (js_index _ _) as [X|] eqn:HX; [|discriminate].
    destruct (advance_and_add_ok g w candidate state i i X HI Hi Hst Hwf (le_n _) HX)
      as (b & w' & -> & HI' & Hext & Hw & _ & Hf).
    split; [exact HI'|]. split.
    + constructor; [exact Hext | exact Hw | intros Hb; apply Hf, Hb].
    + intros Hb. destruct (Hf Hb) as (Hs & e & He & Hit).
      split; [apply (ext_inChart w w' _ Hext Hst)|].
      split; [apply (ext_inChart w w' _ Hext Hc)|].
      intros _. exists e. split; [exact He|].
      rewrite (same_deref _ _ Hs candidate) by (apply (inv_valid _ _ HI), Hc). exact Hit.
  - split; [exact HI|]. split; [apply Step_refl|]. intros _.
    split; [exact Hst|]. split; [exact Hc|]. intros Hn. congruence.
Qed.

Lemma closes_weaken g i (P P' : World -> Prop) m (Q Q' : World -> Prop) :
  (forall w, Inv g w -> P' w -> P w) -> (forall w, Inv g w -> Q w -> Q' w) ->
  closes g i P m Q -> closes g i P' m Q'.
Proof.
  intros HP HQ Hm w HI HPw. specialize (Hm w HI (HP w HI HPw)).
  destruct (m w) as [b w'| |]; try exact Hm.
  destruct Hm as (HI' & Hs & Hq). split; [exact HI'|]. split; [exact Hs|].
  intros Hb. apply (HQ w' HI'), Hq, Hb.
Qed.

Lemma altsOf_lookup g k production alt :
  productions g !! k = Some production -> alt ∈ rhs production -> alt ∈ altsOf g.
Proof.
  intros Hk Halt. unfold altsOf. apply list_elem_of_In, in_concat.
  exists (rhs production). split; [|apply list_elem_of_In; exact Halt].
  apply in_map_iff. exists (k, production). split; [reflexivity|].
  apply list_elem_of_In, elem_of_map_to_list. exact Hk.
Qed.

Lemma altU_symbols g a X : a ∈ altU g -> X ∈ a -> X ∈ startSymbol g :: concat (altsOf g).
Proof.
  intros Ha HX. unfold altU in Ha. apply elem_of_cons in Ha as [->|Ha].
  - apply list_elem_of_singleton in HX. subst X. left.
  - right. apply list_elem_of_In, in_concat. exists a.
    split; apply list_elem_of_In; assumption.
Qed.

Lemma getNextSymbol_Some s X :
  State_getNextSymbol s = Some X ->
  State_isComplete s = false /\ js_index (symArray s) (currentPosition s) = Some X.
Proof.
  unfold State_getNextSymbol. destruct (State_isComplete s); [discriminate|]. auto.
Qed.

Lemma completion_closes g i state :
  closes g i (fun w => i <= String.length (input w) /\ state ∈ states w !!! i)
    (completion i state)
    (fun w => completed w i state).
Proof.
  intros w HI [Hi Hst]. unfold completion.
  pose proof (bucket_elem_inChart w i state Hst) as Hsc.
  pose proof (inv_valid _ _ HI state Hsc) as Hsv.
  destruct (State_isComplete (deref (heap w) state)) eqn:Hc.
  - pose proof (inv_shape _ _ HI i _ state (bucket_total g w i HI Hi) Hst) as (_ & _ & _ & Ho).
    assert (Hoi : originPosition (deref (heap w) state) <= String.length (input w)) by lia.
    pose proof (bucket_total g w _ HI Hoi) as Hss. rewrite Hss.
    set (ss := states w !!! originPosition (deref (heap w) state)) in *.
    pose proof (for_each_closes g i
      (fun w' => i <= String.length (input w') /\ inChart w' state /\
                 forall c, c ∈ ss -> inChart w' c /\ wfState g i (deref (heap w') c))
      ss (complete i state)
      (fun c w' => inChart w' state /\ inChart w' c /\ completed_by w' i state c)) as Hloop.
    assert (Hpre : forall c, c ∈ ss -> inChart w c /\ wfState g i (deref (heap w) c)).
    { intros c Hcs. split; [apply (inChart_bucket w _ ss c Hss Hcs)|].
      destruct (inv_shape _ _ HI _ ss c Hss Hcs) as (H1 & H2 & H3 & H4).
      repeat split; try assumption; lia. }
    specialize (Hloop ltac:(
      intros w1 w2 HI1 (Hi1 & Hst1 & Hall) Hext; split; [rewrite (ext_input _ _ Hext); exact Hi1|];
      split; [apply (ext_inChart w1 w2 _ Hext Hst1)|];
      intros c Hcs; destruct (Hall c Hcs) as [Hc1 Hw1];
      split; [apply (ext_inChart w1 w2 _ Hext Hc1)
             | apply (ext_wfState g i w1 w2 c Hext (inv_valid _ _ HI1 c Hc1) Hw1)])).
    specialize (Hloop ltac:(
      intros c w1 w2 HI1 Hs (Hst1 & Hc1 & Hcb);
      split; [apply (ext_inChart w1 w2 _ (same_chart_ext _ _ Hs) Hst1)|];
      split; [apply (ext_inChart w1 w2 _ (same_chart_ext _ _ Hs) Hc1)|];
      apply (same_chart_completed_by g w1 w2 i state c HI1 Hs Hst1 Hc1 Hcb))).
    specialize (Hloop ltac:(
      intros c Hcs; eapply closes_weaken; [| |apply (complete_closes g i state c)];
      [intros w1 _ (Hi1 & Hst1 & Hall); destruct (Hall c Hcs); auto
      |intros w1 _ Hq; exact Hq])).
    specialize (Hloop w HI (conj Hi (conj Hsc Hpre))).
    destruct (for_each ss (complete i state) w) as [b w'| |]; try exact Hloop.
    destruct Hloop as (HI' & Hs & Hq). split; [exact HI'|]. split; [exact Hs|].
    intros Hb. specialize (Hq Hb). pose proof (step_same _ _ _ _ Hs Hb) as Hsame.
    intros _ candidate Hcand.
    rewrite (same_deref _ _ Hsame state Hsv), (same_states _ _ Hsame) in Hcand.
    apply (Hq candidate Hcand).
  - split; [exact HI|]. split; [apply Step_refl|]. intros _ Hc'. congruence.
Qed.

Lemma examine_closes g i state :
  closes g i (fun w => i <= String.length (input w) /\ state ∈ states w !!! i)
    (examine g i state)
    (fun w => closedAt g w i state).
Proof.
  intros w HI [Hi Hst]. unfold examine.
  pose proof (bucket_elem_inChart w i state Hst) as Hsc.
  pose proof (inv_valid _ _ HI state Hsc) as Hsv.
  pose proof (completion_closes g i state w HI (conj Hi Hst)) as Hcompl.
  assert (Hviacompl :
    (forall X, State_getNextSymbol (deref (heap w) state) = Some X -> isTerminal X = true) ->
    match completion i state w with
    | Ret b w' => Inv g w' /\ Step i b w w' /\ (b = false -> closedAt g w' i state)
    | Throw _ => ~ allDefined g
    | OutOfFuel => False
    end).
  { intros Hterm. destruct (completion i state w) as [b w'| |]; try exact Hcompl.
    destruct Hcompl as (HI' & Hs & Hq). split; [exact HI'|]. split; [exact Hs|].
    intros Hb. split; [|apply Hq, Hb].
    intros X production alt HX Ht. pose proof (step_same _ _ _ _ Hs Hb) as Hsame.
    rewrite (same_deref _ _ Hsame state Hsv) in HX. rewrite (Hterm X HX) in Ht. discriminate. }
  destruct (State_getNextSymbol (deref (heap w) state)) as [X|] eqn:HX;
    [|apply Hviacompl; intros X; discriminate].
  destruct (isTerminal X) eqn:Ht; simpl;
    [apply Hviacompl; intros X' [= <-]; exact Ht|].
  clear Hviacompl Hcompl.
  destruct (getNextSymbol_Some _ _ HX) as [Hnc Hidx].
  pose proof (inv_shape _ _ HI i _ state (bucket_total g w i HI Hi) Hst) as (_ & Ha & _ & _).
  pose proof (altU_symbols g _ X Ha (js_index_elem _ _ _ Hidx)) as HXg.
  destruct (productions g !! ch X) as [production|] eqn:Hprod.
  - pose proof (for_each_closes g i
      (fun w' => i <= String.length (input w') /\ inChart w' state)
      (rhs production) (predict X i state)
      (fun alt w' => exists e, e ∈ states w' !!! i /\
                       item (deref (heap w') e) = (symKey X, map symKey alt, 0%Z, i))) as Hloop.
    specialize (Hloop ltac:(
      intros w1 w2 HI1 (Hi1 & Hst1) Hext; split; [rewrite (ext_input _ _ Hext); exact Hi1|];
      apply (ext_inChart w1 w2 _ Hext Hst1))).
    specialize (Hloop ltac:(
      intros alt w1 w2 HI1 Hs (e & He & Hit); exists e; rewrite (same_states _ _ Hs);
      split; [exact He|]; rewrite (same_chart_bucket_deref g w1 w2 i e HI1 Hs He); exact Hit)).
    specialize (Hloop ltac:(
      intros alt Halt; apply predict_closes;
      [right; exact HXg | right; apply (altsOf_lookup g _ production alt Hprod Halt)])).
    specialize (Hloop w HI (conj Hi Hsc)).
    destruct (for_each (rhs production) (predict X i state) w) as [b w'| |]; try exact Hloop.
    destruct Hloop as (HI' & Hs & Hq). split; [exact HI'|]. split; [exact Hs|].
    intros Hb. specialize (Hq Hb). pose proof (step_same _ _ _ _ Hs Hb) as Hsame. split.
    + intros X' production' alt HX' _ Hprod' Halt.
      rewrite (same_deref _ _ Hsame state Hsv), HX in HX'. injection HX' as <-.
      rewrite Hprod in Hprod'. injection Hprod' as <-. apply (Hq alt Halt).
    + intros Hc. rewrite (same_deref _ _ Hsame state Hsv) in Hc. congruence.
  - intros Hdef. destruct (Hdef X HXg Ht) as [production Hsome]. congruence.
Qed.

Lemma ext_bucket w w' i r : ext w w' -> r ∈ states w !!! i -> r ∈ states w' !!! i.
Proof.
  intros Hext Hr. pose proof (bucket_elem_lookup w i r Hr) as Hb.
  destruct (ext_states _ _ Hext i _ Hb) as (b' & Hb' & [k Hk]).
  rewrite (bucket_lookup _ _ _ Hb'), Hk. apply elem_of_app. left. exact Hr.
Qed.

Lemma same_chart_closedAt g w w' i state :
  Inv g w -> same_chart w w' -> inChart w state ->
  closedAt g w i state -> closedAt g w' i state.
Proof.
  intros HI Hs Hst [Hp Hc].
  split; [eapply same_chart_predicted | eapply same_chart_completed]; eassumption.
Qed.

Lemma closes_also g i (P : World -> Prop) m (Q R : World -> Prop) :
  (forall w w', Inv g w -> P w -> ext w w' -> R w') ->
  closes g i P m Q -> closes g i P m (fun w => R w /\ Q w).
Proof.
  intros HR Hm w HI HPw. specialize (Hm w HI HPw).
  destruct (m w) as [b w'| |]; try exact Hm.
  destruct Hm as (HI' & Hs & Hq). split; [exact HI'|]. split; [exact Hs|].
  intros Hb. split; [apply (HR w w' HI HPw (step_ext _ _ _ _ Hs)) | apply Hq, Hb].
Qed.

Lemma pass_closes g i :
  closes g i (fun w => i <= String.length (input w)) (pass g i)
    (fun w => closedBucket g w i).
Proof.
  intros w HI Hi. unfold pass.
  set (l := states w !!! i).
  pose proof (for_each_closes g i
    (fun w' => i <= String.length (input w') /\ forall x, x ∈ l -> x ∈ states w' !!! i)
    l (examine g i)
    (fun x w' => inChart w' x /\ closedAt g w' i x)) as Hloop.
  specialize (Hloop ltac:(
    intros w1 w2 HI1 (Hi1 & Hall) Hext; split; [rewrite (ext_input _ _ Hext); exact Hi1|];
    intros x Hx; apply (ext_bucket w1 w2 i x Hext), Hall, Hx)).
  specialize (Hloop ltac:(
    intros x w1 w2 HI1 Hs (Hx & Hcl);
    split; [apply (ext_inChart w1 w2 _ (same_chart_ext _ _ Hs) Hx)|];
    apply (same_chart_closedAt g w1 w2 i x HI1 Hs Hx Hcl))).
  specialize (Hloop ltac:(
    intros x Hx; apply closes_also;
    [intros w1 w2 HI1 (Hi1 & Hall) Hext;
     apply (ext_inChart w1 w2 x Hext), (bucket_elem_inChart w1 i x), Hall, Hx
    |eapply closes_weaken; [| |apply (examine_closes g i x)];
     [intros w1 _ (Hi1 & Hall); split; [exact Hi1 | apply Hall, Hx]
     |intros w1 _ Hq; exact Hq]])).
  specialize (Hloop w HI (conj Hi (fun x Hx => Hx))).
  destruct (for_each l (examine g i) w) as [b w'| |]; try exact Hloop.
  destruct Hloop as (HI' & Hs & Hq). split; [exact HI'|]. split; [exact Hs|].
  intros Hb state Hst. rewrite (same_states _ _ (step_same _ _ _ _ Hs Hb)) in Hst.
  apply (Hq Hb state Hst).
Qed.

(** ** Counting: how much a bucket can hold *)

Lemma length_itemU g inp : length (itemU g inp) = bucketCap g inp.
Proof.
  unfold itemU, bucketCap. rewrite !length_prod, !length_map, !length_seq. reflexivity.
Qed.

Lemma length_le_concat {A} (a : list A) (ls : list (list A)) :
  a ∈ ls -> length a <= length (concat ls).
Proof.
  induction ls as [|b ls IH]; intros Ha; [inversion Ha|].
  simpl. rewrite length_app. apply elem_of_cons in Ha as [->|Ha]; [lia|].
  specialize (IH Ha). lia.
Qed.

Lemma altU_length g a : a ∈ altU g -> length a < dotCount g.
Proof.
  unfold altU, dotCount. intros Ha. apply elem_of_cons in Ha as [->|Ha]; [simpl; lia|].
  pose proof (length_le_concat a (altsOf g) Ha). lia.
Qed.

Lemma item_in_itemU g inp p s :
  wfState g p s -> p <= String.length inp -> In (item s) (itemU g inp).
Proof.
  intros (Hl & Ha & Hcur & Ho) Hp. unfold item, itemU.
  pose proof (altU_length g _ Ha) as Hlen.
  repeat apply in_prod.
  - apply in_map, list_elem_of_In, Hl.
  - apply in_map, list_elem_of_In, Ha.
  - apply in_map_iff. exists (Z.to_nat (currentPosition s)).
    split; [lia | apply in_seq; lia].
  - apply in_seq. lia.
Qed.

Lemma bucket_length_bound g w p b :
  Inv g w -> states w !! p = Some b -> length b <= bucketCap g (input w).
Proof.
  intros HI Hb. rewrite <- length_itemU.
  rewrite <- (length_fmap (fun r => item (deref (heap w) r)) b).
  apply submseteq_length, NoDup_submseteq; [apply (inv_nodup _ _ HI p b Hb)|].
  intros it Hit. apply list_elem_of_fmap in Hit as (r & -> & Hr).
  apply list_elem_of_In, (item_in_itemU g (input w) p).
  - apply (inv_shape _ _ HI p b r Hb Hr).
  - apply lookup_lt_Some in Hb. rewrite (inv_len _ _ HI) in Hb. lia.
Qed.

Lemma concat_length_bound {A} (ls : list (list A)) (c : nat) :
  (forall l, l ∈ ls -> length l <= c) -> length (concat ls) <= length ls * c.
Proof.
  induction ls as [|l ls IH]; intros Hall; simpl; [lia|].
  rewrite length_app. pose proof (Hall l (list_elem_of_here l ls)).
  assert (length (concat ls) <= length ls * c).
  { apply IH. intros l' Hl'. apply Hall. apply list_elem_of_further. exact Hl'. }
  lia.
Qed.

Lemma chart_length_bound g w :
  Inv g w -> length (concat (states w)) <= S (String.length (input w)) * bucketCap g (input w).
Proof.
  intros HI. rewrite <- (inv_len _ _ HI). apply concat_length_bound.
  intros b Hb. apply list_elem_of_lookup in Hb as [p Hp].
  apply (bucket_length_bound g w p b HI Hp).
Qed.

Lemma prev_length_bound g w r :
  Inv g w -> inChart w r ->
  length (prev (deref (heap w) r)) <= S (String.length (input w)) * bucketCap g (input w).
Proof.
  intros HI Hr. destruct (inv_prev _ _ HI r Hr) as [Hnd Hin].
  etransitivity; [|apply (chart_length_bound g w HI)].
  apply submseteq_length, NoDup_submseteq; [exact Hnd | exact Hin].
Qed.

Lemma sum_list_with_bound {A} (f : A -> nat) (l : list A) (c : nat) :
  (forall x, x ∈ l -> f x <= c) -> sum_list_with f l <= length l * c.
Proof.
  induction l as [|x l IH]; intros Hall; simpl; [lia|].
  pose proof (Hall x (list_elem_of_here x l)).
  assert (sum_list_with f l <= length l * c).
  { apply IH. intros y Hy. apply Hall. apply list_elem_of_further. exact Hy. }
  lia.
Qed.

(** The weight of a bucket is bounded, whatever the grammar. *)
Lemma weight_bound g w i : Inv g w -> weight w i <= closureCap g (input w).
Proof.
  intros HI. unfold weight, closureCap.
  destruct (states w !! i) as [b|] eqn:Hb.
  - rewrite (bucket_lookup _ _ _ Hb).
    pose proof (bucket_length_bound g w i b HI Hb) as Hlen.
    assert (Hsum : sum_list_with (fun r => length (prev (deref (heap w) r))) b
                   <= length b * (S (String.length (input w)) * bucketCap g (input w))).
    { apply sum_list_with_bound. intros r Hr.
      apply (prev_length_bound g w r HI), (inChart_bucket w i b r Hb Hr). }
    pose proof (Nat.mul_le_mono_r _ _
      (S (String.length (input w)) * bucketCap g (input w)) Hlen).
    lia.
  - rewrite (list_lookup_total_alt (states w)), Hb. simpl. lia.
Qed.

(** ** The loops of [doesMatch] *)

Lemma closure_ok g i :
  forall fuel w,
    Inv g w -> i <= String.length (input w) ->
    closureCap g (input w) - weight w i < fuel ->
    runs g w (closure fuel g i w) (fun w' => closedBucket g w' i).
Proof.
  induction fuel as [|fuel IH]; intros w HI Hi Hfuel; [lia|].
  simpl. unfold bind. pose proof (pass_closes g i w HI Hi) as Hpass.
  destruct (pass g i w) as [b w1| |]; try exact Hpass.
  destruct Hpass as (HI1 & Hs & Hq).
  pose proof (step_ext _ _ _ _ Hs) as Hext.
  destruct b.
  - pose proof (step_weight _ _ _ _ Hs) as Hw. simpl in Hw.
    pose proof (weight_bound g w1 i HI1) as Hb.
    rewrite (ext_input _ _ Hext) in Hb.
    specialize (IH w1 HI1). rewrite (ext_input _ _ Hext) in IH.
    specialize (IH Hi ltac:(lia)). unfold runs in *.
    destruct (closure fuel g i w1) as [u w2| |]; try exact IH.
    destruct IH as (HI2 & Hext2 & Hq2).
    split; [exact HI2|]. split; [eapply ext_trans; eassumption | exact Hq2].
  - unfold ret, runs. split; [exact HI1|]. split; [exact Hext | apply Hq; reflexivity].
Qed.

Lemma string_get_Some i s a : String.get i s = Some a -> i < String.length s.
Proof.
  revert i. induction s as [|c s IH]; intros [|i]; simpl; try discriminate; try lia.
  intros H. specialize (IH i H). lia.
Qed.

Lemma input_matches_lt inp i c : input_matches inp i c = true -> i < String.length inp.
Proof.
  unfold input_matches. destruct (String.get i inp) eqn:Hg; [|discriminate].
  intros _. apply (string_get_Some i inp a Hg).
Qed.

Lemma scan_ok g i state w :
  Inv g w -> i <= String.length (input w) -> state ∈ states w !!! i ->
  runs g w (scan i state w) (fun w' => forall q, q <= i -> states w' !! q = states w !! q).
Proof.
  intros HI Hi Hst. unfold scan.
  assert (Hnop : runs g w (Ret tt w)
                   (fun w' => forall q, q <= i -> states w' !! q = states w !! q)).
  { split; [exact HI|]. split; [apply ext_refl | reflexivity]. }
  destruct (State_getNextSymbol (deref (heap w) state)) as [X|] eqn:HX; [|exact Hnop].
  destruct (isTerminal X && input_matches (input w) i (ch X)) eqn:Hm; [|exact Hnop].
  apply andb_true_iff in Hm as [_ Hm]. apply input_matches_lt in Hm.
  destruct (getNextSymbol_Some _ _ HX) as [_ Hidx].
  pose proof (inv_shape _ _ HI i _ state (bucket_total g w i HI Hi) Hst) as Hwf.
  destruct (advance_and_add_ok g w state state (i + 1) i X HI ltac:(lia)
              (bucket_elem_inChart w i state Hst) Hwf ltac:(lia) Hidx)
    as (b & w' & Hr & HI' & Hext & _ & Hq & _).
  unfold bind in *.
  destruct (State_getAdvancedState state [state] w) as [next w1| |]; try discriminate.
  rewrite Hr. unfold ret, runs. split; [exact HI'|]. split; [exact Hext|].
  intros q Hqi. apply Hq. lia.
Qed.

Lemma ext_getNextSymbol w w' r :
  ext w w' -> r < length (heap w) ->
  State_getNextSymbol (deref (heap w') r) = State_getNextSymbol (deref (heap w) r) /\
  State_isComplete (deref (heap w') r) = State_isComplete (deref (heap w) r) /\
  forall l, State_hasNonterminalNext (deref (heap w') r) l
            = State_hasNonterminalNext (deref (heap w) r) l.
Proof.
  intros Hext Hr. destruct (ext_fields w w' r Hext Hr) as (H1 & H2 & H3 & H4 & _).
  unfold State_getNextSymbol, State_isComplete, State_hasNonterminalNext.
  rewrite H2, H3. auto.
Qed.

(** A closed bucket stays closed while the buckets up to it stay as they
    are. *)
Lemma frozen_closedBucket g w w' i :
  Inv g w -> i <= String.length (input w) -> ext w w' ->
  (forall q, q <= i -> states w' !! q = states w !! q) ->
  closedBucket g w i -> closedBucket g w' i.
Proof.
  intros HI Hi Hext Hfrozen Hcl.
  assert (Hbucket : forall q, q <= i -> states w' !!! q = states w !!! q).
  { intros q Hq. rewrite !list_lookup_total_alt, (Hfrozen q Hq). reflexivity. }
  intros state Hst. rewrite (Hbucket i (le_n _)) in Hst.
  pose proof (inv_valid _ _ HI state (bucket_elem_inChart w i state Hst)) as Hsv.
  destruct (ext_getNextSymbol w w' state Hext Hsv) as (Hn & Hc & _).
  destruct (ext_fields w w' state Hext Hsv) as (Hlhs & _ & _ & Horig & _).
  destruct (Hcl state Hst) as [Hpred Hcomp].
  assert (Hback : forall e it, e ∈ states w !!! i -> item (deref (heap w) e) = it ->
                    exists e', e' ∈ states w' !!! i /\ item (deref (heap w') e') = it).
  { intros e it He Hit. exists e. rewrite (Hbucket i (le_n _)). split; [exact He|].
    rewrite (ext_item w w' e Hext); [exact Hit|].
    apply (inv_valid _ _ HI), (bucket_elem_inChart w i e He). }
  split.
  - intros X production alt HX Ht Hprod Halt. rewrite Hn in HX.
    destruct (Hpred X production alt HX Ht Hprod Halt) as (e & He & Hit).
    apply (Hback e _ He Hit).
  - intros Hcompl candidate Hcand. rewrite Hc in Hcompl. rewrite Horig in Hcand.
    pose proof (inv_shape _ _ HI i _ state (bucket_total g w i HI Hi) Hst) as (_ & _ & _ & Ho).
    rewrite (Hbucket _ Ho) in Hcand.
    pose proof (inv_valid _ _ HI candidate (bucket_elem_inChart w _ candidate Hcand)) as Hcv.
    destruct (ext_getNextSymbol w w' candidate Hext Hcv) as (_ & _ & Hnn).
    destruct (ext_fields w w' candidate Hext Hcv) as (Hl & Ha & Hcu & Hor & _).
    unfold completed_by. rewrite Hnn, Hlhs, Hl, Ha, Hcu, Hor. intros Hnext.
    destruct (Hcomp Hcompl candidate Hcand Hnext) as (e & He & Hit).
    apply (Hback e _ He Hit).
Qed.

Lemma runs_weaken g w o (Q Q' : World -> Prop) :
  (forall w', Inv g w' -> ext w w' -> Q w' -> Q' w') -> runs g w o Q -> runs g w o Q'.
Proof.
  intros HQ. destruct o as [u w'| |]; simpl; auto.
  intros (HI & Hext & Hq). auto.
Qed.

Lemma runs_bind g w (m : M unit) (k : M unit) (Q Q' : World -> Prop) :
  runs g w (m w) Q ->
  (forall w1, Inv g w1 -> ext w w1 -> Q w1 -> runs g w1 (k w1) Q') ->
  runs g w ((run m; k) w) Q'.
Proof.
  intros Hm Hk. unfold bind. destruct (m w) as [u w1| |]; simpl in *; auto.
  destruct Hm as (HI1 & Hext1 & Hq1). specialize (Hk w1 HI1 Hext1 Hq1).
  destruct (k w1) as [u' w2| |]; simpl in *; auto.
  destruct Hk as (HI2 & Hext2 & Hq2).
  split; [exact HI2|]. split; [eapply ext_trans; eassumption | exact Hq2].
Qed.

Lemma for_states_ok g i cfuel :
  forall fuel j w,
    Inv g w -> i <= String.length (input w) ->
    closureCap g (input w) < cfuel ->
    bucketCap g (input w) < fuel + j -> j <= length (states w !!! i) ->
    (0 < j -> closedBucket g w i) ->
    runs g w (for_states fuel cfuel g i j w) (fun w' => closedBucket g w' i).
Proof.
  induction fuel as [|fuel IH]; intros j w HI Hi Hcf Hfuel Hj Hcl.
  - pose proof (bucket_length_bound g w i _ HI (bucket_total g w i HI Hi)). lia.
  - simpl. destruct ((states w !!! i) !! j) as [state|] eqn:Hlook.
    + apply (runs_bind g w _ _ (fun w' => closedBucket g w' i)).
      { apply closure_ok; [exact HI | exact Hi | lia]. }
      intros w1 HI1 Hext1 Hcl1.
      assert (Hi1 : i <= String.length (input w1)) by (rewrite (ext_input _ _ Hext1); exact Hi).
      assert (Hst1 : state ∈ states w1 !!! i).
      { apply (ext_bucket w w1 i state Hext1), (list_elem_of_lookup_2 _ j), Hlook. }
      apply (runs_bind g w1 _ _ (fun w' => closedBucket g w' i /\
                                            j < length (states w' !!! i))).
      { eapply runs_weaken; [|apply (scan_ok g i state w1 HI1 Hi1 Hst1)].
        intros w2 HI2 Hext2 Hfrozen. split.
        - apply (frozen_closedBucket g w1 w2 i HI1 Hi1 Hext2 Hfrozen Hcl1).
        - rewrite !list_lookup_total_alt, (Hfrozen i (le_n _)).
          rewrite <- list_lookup_total_alt.
          apply lookup_lt_Some in Hlook.
          destruct (ext_states _ _ Hext1 i _ (bucket_total g w i HI Hi)) as (b' & Hb' & Hpre).
          rewrite (bucket_lookup _ _ _ Hb'). apply prefix_length in Hpre. lia. }
      intros w2 HI2 Hext2 [Hcl2 Hj2].
      assert (Hin2 : input w2 = input w).
      { rewrite (ext_input _ _ Hext2), (ext_input _ _ Hext1). reflexivity. }
      apply IH; rewrite ?Hin2; try assumption; try lia. intros _. exact Hcl2.
    + split; [exact HI|]. split; [apply ext_refl|].
      destruct j as [|j]; [|apply Hcl; lia].
      intros state Hst. destruct (states w !!! i); [inversion Hst | discriminate].
Qed.

Lemma for_range_ok g fuel :
  forall n from w,
    Inv g w -> from + n <= S (String.length (input w)) ->
    closureCap g (input w) < fuel ->
    runs g w (for_range n from (fun i => for_states fuel fuel g i 0) w)
         (fun w' => 0 < n -> closedBucket g w' (from + n - 1)).
Proof.
  induction n as [|n IH]; intros from w HI Hn Hfuel.
  - simpl. unfold ret. split; [exact HI|]. split; [apply ext_refl | lia].
  - simpl. apply (runs_bind g w _ _ (fun w' => closedBucket g w' from)).
    { apply for_states_ok; try assumption; try lia. unfold closureCap in Hfuel. lia. }
    intros w1 HI1 Hext1 Hcl1.
    assert (Hin1 : input w1 = input w) by apply (ext_input _ _ Hext1).
    destruct n as [|n].
    + simpl. unfold ret. split; [exact HI1|]. split; [apply ext_refl|].
      intros _. replace (from + 1 - 1) with from by lia. exact Hcl1.
    + eapply runs_weaken; [|apply IH; rewrite ?Hin1; try assumption; lia].
      intros w2 HI2 Hext2 Hcl2 _.
      replace (from + S (S n) - 1) with (S from + S n - 1) by lia. apply Hcl2. lia.
Qed.

Lemma Inv_new_Context g h c inp :
  Inv g (mkWorld h c inp (replicate (S (String.length inp)) [])).
Proof.
  assert (Hempty : forall p b, replicate (S (String.length inp)) ([] : list nat) !! p = Some b
                               -> b = []).
  { intros p b Hb. apply lookup_replicate in Hb as [-> _]. reflexivity. }
  assert (Hnone : forall r, ~ inChart (mkWorld h c inp (replicate (S (String.length inp)) [])) r).
  { intros r Hr. apply elem_of_concat in Hr as (p & b & Hb & Hr). simpl in Hb.
    rewrite (Hempty p b Hb) in Hr. inversion Hr. }
  constructor; cbn [states input heap].
  - apply length_replicate.
  - intros r Hr. destruct (Hnone r Hr).
  - intros p b Hb. rewrite (Hempty p b Hb). constructor.
  - intros p b r Hb Hr. rewrite (Hempty p b Hb) in Hr. inversion Hr.
  - intros r Hr. destruct (Hnone r Hr).
Qed.

(** The chart is built without running out of fuel, from any store. *)
Lemma buildChart_ok g inp fuel w0 :
  closureCap g inp < fuel ->
  match buildChart fuel g inp w0 with
  | Ret _ w' =>
      Inv g w' /\ input w' = inp /\
      closedBucket g w' (String.length inp) /\
      exists r0, (states w' !!! 0) !! 0 = Some r0 /\
                 core (deref (heap w') r0)
                   = mkState START_LHS [startSymbol g] 0 0 [] (S (State_counter w0))
  | Throw _ => ~ allDefined g
  | OutOfFuel => False
  end.
Proof.
  intros Hfuel. unfold buildChart, bind, new_Context.
  set (w1 := mkWorld (heap w0) (State_counter w0) inp (replicate (S (String.length inp)) [])).
  pose proof (Inv_new_Context g (heap w0) (State_counter w0) inp) as HI1. fold w1 in HI1.
  destruct (new_State_ok g w1 START_LHS [startSymbol g] 0 0 [] HI1 ltac:(simpl; lia))
    as (w2 & -> & Hh2 & Hs2 & HI2).
  assert (Hd2 : deref (heap w2) (length (heap w1))
                = mkState START_LHS [startSymbol g] 0 0 [] (S (State_counter w0))).
  { rewrite Hh2. unfold deref. apply list_lookup_total_middle. reflexivity. }
  assert (Hin2 : input w2 = inp) by apply (same_input _ _ Hs2).
  destruct (addState_ok g w2 (length (heap w1)) 0 HI2) as (b & w3 & Hr & HI3 & Hext3 & _ & _ & _ & Hf).
  - lia.
  - rewrite Hh2, length_app. simpl. lia.
  - rewrite Hd2. repeat split; simpl; try lia; [left | left].
  - rewrite Hd2. simpl. constructor.
  - rewrite Hd2. simpl. intros x Hx. inversion Hx.
  - assert (Hb3 : states w3 !! 0 = Some [length (heap w1)]).
    { rewrite (addState_in_bounds _ 0 w2 ltac:(lia)) in Hr.
      assert (Hget : Context_getState w2 (length (heap w1)) 0 = None).
      { unfold Context_getState. rewrite (same_states _ _ Hs2). reflexivity. }
      rewrite Hget in Hr. injection Hr as _ <-. cbn [states].
      rewrite (same_states _ _ Hs2). reflexivity. }
    change (Z.of_nat 0) with 0%Z in Hr. rewrite Hr.
    assert (Hin3 : input w3 = inp) by (rewrite (ext_input _ _ Hext3); exact Hin2).
    pose proof (for_range_ok g fuel (S (String.length inp)) 0 w3 HI3) as Hloop.
    rewrite Hin3 in Hloop. specialize (Hloop ltac:(lia) Hfuel).
    destruct (for_range _ _ _ w3) as [u w4| |]; simpl in *; auto.
    destruct Hloop as (HI4 & Hext4 & Hcl4).
    split; [exact HI4|]. split; [rewrite (ext_input _ _ Hext4); exact Hin3|].
    split; [replace (String.length inp) with (0 + S (String.length inp) - 1) by lia;
            apply Hcl4; lia|].
    exists (length (heap w1)).
    destruct (ext_states _ _ Hext4 0 _ Hb3) as (b4 & Hb4 & [k ->]).
    rewrite (bucket_lookup _ _ _ Hb4). split; [reflexivity|].
    assert (Hv : length (heap w1) < length (heap w2)) by (rewrite Hh2, length_app; simpl; lia).
    rewrite (ext_core _ _ Hext4) by (pose proof (ext_heap _ _ Hext3); lia).
    rewrite (ext_core _ _ Hext3) by exact Hv. exact (f_equal core Hd2).
Qed.

(** ** More fuel changes nothing *)

Lemma bind_more {A B} (m m' : M A) (k k' : A -> M B) w :
  (m w <> OutOfFuel -> m' w = m w) ->
  (forall a w1, m w = Ret a w1 -> k a w1 <> OutOfFuel -> k' a w1 = k a w1) ->
  bind m k w <> OutOfFuel -> bind m' k' w = bind m k w.
Proof.
  unfold bind. intros Hm Hk Hrun.
  destruct (m w) as [a w1| |] eqn:Hmw.
  - rewrite Hm by discriminate. apply (Hk a w1 eq_refl Hrun).
  - rewrite Hm by discriminate. reflexivity.
  - congruence.
Qed.

Lemma closure_more g i :
  forall fuel fuel' w,
    fuel <= fuel' -> closure fuel g i w <> OutOfFuel ->
    closure fuel' g i w = closure fuel g i w.
Proof.
  induction fuel as [|fuel IH]; intros fuel' w Hle Hrun; [simpl in Hrun; congruence|].
  destruct fuel' as [|fuel']; [lia|]. simpl in *.
  apply bind_more; [reflexivity | | exact Hrun].
  intros [] w1 _ Hk; [|reflexivity]. apply IH; [lia | exact Hk].
Qed.

Lemma for_states_more g i :
  forall fuel fuel' cfuel cfuel' j w,
    fuel <= fuel' -> cfuel <= cfuel' ->
    for_states fuel cfuel g i j w <> OutOfFuel ->
    for_states fuel' cfuel' g i j w = for_states fuel cfuel g i j w.
Proof.
  induction fuel as [|fuel IH]; intros fuel' cfuel cfuel' j w Hle Hcle Hrun;
    [simpl in Hrun; congruence|].
  destruct fuel' as [|fuel']; [lia|]. simpl in *.
  destruct ((states w !!! i) !! j) as [state|]; [|reflexivity].
  apply bind_more; [apply closure_more; exact Hcle | | exact Hrun].
  intros _ w1 _ Hk. apply bind_more; [reflexivity | | exact Hk].
  intros _ w2 _ Hk2. apply IH; [lia | exact Hcle | exact Hk2].
Qed.

Lemma for_range_more g fuel fuel' :
  fuel <= fuel' ->
  forall n from w,
    for_range n from (fun i => for_states fuel fuel g i 0) w <> OutOfFuel ->
    for_range n from (fun i => for_states fuel' fuel' g i 0) w
      = for_range n from (fun i => for_states fuel fuel g i 0) w.
Proof.
  intros Hle. induction n as [|n IH]; intros from w Hrun; [reflexivity|]. simpl in *.
  apply bind_more; [apply for_states_more; exact Hle | | exact Hrun].
  intros _ w1 _ Hk. apply IH. exact Hk.
Qed.

Lemma buildChart_more g inp fuel fuel' w :
  fuel <= fuel' -> buildChart fuel g inp w <> OutOfFuel ->
  buildChart fuel' g inp w = buildChart fuel g inp w.
Proof.
  intros Hle Hrun. unfold buildChart in *.
  apply bind_more; [reflexivity | | exact Hrun].
  intros _ w1 _ Hk1. apply bind_more; [reflexivity | | exact Hk1].
  intros r w2 _ Hk2. apply bind_more; [reflexivity | | exact Hk2].
  intros _ w3 _ Hk3. apply for_range_more; [exact Hle | exact Hk3].
Qed.

(** A run of [doesMatch] that had fuel left is the run with any more fuel. *)
Lemma doesMatchFuel_more g inp fuel fuel' w :
  fuel <= fuel' -> doesMatchFuel fuel g inp w <> OutOfFuel ->
  doesMatchFuel fuel' g inp w = doesMatchFuel fuel g inp w.
Proof.
  intros Hle Hrun. unfold doesMatchFuel in *.
  apply bind_more; [apply buildChart_more; exact Hle | | exact Hrun].
  intros _ w1 _ _. reflexivity.
Qed.

Lemma finish_returns inp w : exists r, finish inp w = Ret r w.
Proof. unfold finish. destruct (findCompleteParse w); eauto. Qed.

Lemma doesMatchFuel_ok g inp fuel w0 :
  closureCap g inp < fuel ->
  match doesMatchFuel fuel g inp w0 with
  | Ret _ w' => Inv g w' /\ input w' = inp
  | Throw _ => ~ allDefined g
  | OutOfFuel => False
  end.
Proof.
  intros Hfuel. unfold doesMatchFuel, bind.
  pose proof (buildChart_ok g inp fuel w0 Hfuel) as Hb.
  destruct (buildChart fuel g inp w0) as [u w1| |]; try exact Hb.
  destruct (finish_returns inp w1) as [r ->]. destruct Hb as (HI & Hin & _). auto.
Qed.

Lemma fuelBound_enough g inp : closureCap g inp < fuelBound g inp.
Proof. unfold fuelBound. lia. Qed.

(** ** Termination, deduplication, exceptions *)

(** C1: [doesMatch] needs no more fuel than [fuelBound], whatever the grammar
    (epsilon cycles and left recursion included) and the input: neither
    the closure loop [while (newAddedStates)] nor the loop over the growing
    bucket runs forever, and with any more fuel the run is the same.  The
    bound counts the dotted rules with origin, which [addState] never
    duplicates, and the back-pointers each can get. *)
Theorem doesMatch_terminates (g : Grammar) (inp : string) (w0 : World) :
  doesMatch g inp w0 <> OutOfFuel /\
  forall fuel, fuelBound g inp <= fuel -> doesMatchFuel fuel g inp w0 = doesMatch g inp w0.
Proof.
  assert (Hrun : doesMatch g inp w0 <> OutOfFuel).
  { unfold doesMatch. pose proof (doesMatchFuel_ok g inp _ w0 (fuelBound_enough g inp)) as H.
    destruct (doesMatchFuel _ g inp w0); [discriminate | discriminate | destruct H]. }
  split; [exact Hrun|]. intros fuel Hle. apply doesMatchFuel_more; assumption.
Qed.

(** The closure loop itself, in any store the parser can be in. *)
Lemma closure_terminates (g : Grammar) (i : nat) (w : World) :
  Inv g w -> i <= String.length (input w) ->
  closure (fuelBound g (input w)) g i w <> OutOfFuel.
Proof.
  intros HI Hi.
  pose proof (closure_ok g i (fuelBound g (input w)) w HI Hi) as H.
  pose proof (fuelBound_enough g (input w)).
  specialize (H ltac:(lia)).
  destruct (closure _ g i w); [discriminate | discriminate | destruct H].
Qed.

(** C2: after a run of [doesMatch], no bucket of the chart holds two States
    that are equal in the sense of [State.equals] (same [lhs], same
    SymArray, same dot, same origin; [prev] and [counter] are not
    compared). *)
Theorem chart_has_no_equal_states (fuel : nat) (g : Grammar) (inp : string)
    (w0 w' : World) (result : option (list ref)) :
  doesMatchFuel fuel g inp w0 = Ret result w' ->
  forall p bucket j k x y,
    states w' !! p = Some bucket ->
    bucket !! j = Some x -> bucket !! k = Some y -> j <> k ->
    State_equals (deref (heap w') x) (deref (heap w') y) = false.
Proof.
  intros Hrun p bucket j k x y Hb Hx Hy Hjk.
  assert (HI : Inv g w').
  { destruct (Nat.le_gt_cases fuel (closureCap g inp)) as [Hsmall|Hbig].
    - pose proof (doesMatchFuel_ok g inp (fuelBound g inp) w0 (fuelBound_enough g inp)) as H.
      rewrite (doesMatchFuel_more g inp fuel (fuelBound g inp) w0) in H;
        [|unfold fuelBound; lia | congruence].
      rewrite Hrun in H. apply H.
    - pose proof (doesMatchFuel_ok g inp fuel w0 Hbig) as H. rewrite Hrun in H. apply H. }
  apply not_true_iff_false. intros Heq. apply State_equals_spec in Heq.
  pose proof (inv_nodup _ _ HI p bucket Hb) as Hnd.
  apply Hjk. apply (NoDup_lookup _ j k (item (deref (heap w') x)) Hnd);
    rewrite list_lookup_fmap.
  - rewrite Hx. reflexivity.
  - rewrite Hy. simpl. rewrite Heq. reflexivity.
Qed.

(** With every nonterminal defined, [doesMatch] returns. *)
Lemma doesMatch_returns g inp w0 :
  allDefined g -> exists result w', doesMatch g inp w0 = Ret result w'.
Proof.
  intros Hdef. unfold doesMatch.
  pose proof (doesMatchFuel_ok g inp _ w0 (fuelBound_enough g inp)) as H.
  destruct (doesMatchFuel _ g inp w0) as [r w'| |]; [eauto | destruct (H Hdef) | destruct H].
Qed.

(** ** The search for a derivation *)

Lemma expand_inr h inp sts str :
  forall prevs queue cnt queue' cnt',
    expand h inp sts str prevs queue cnt = inr (queue', cnt') ->
    ((cnt <= DERIVATION_LIMIT)%N -> (cnt' <= DERIVATION_LIMIT)%N) /\
    length queue' + N.to_nat cnt = length queue + N.to_nat cnt'.
Proof.
  induction prevs as [|x prevs IH]; intros queue cnt queue' cnt' H; simpl in H.
  - injection H as <- <-. split; [auto | reflexivity].
  - destruct (String.eqb _ _); [discriminate|].
    destruct (DERIVATION_LIMIT <? cnt + 1)%N eqn:Hlim; [discriminate|].
    apply N.ltb_ge in Hlim. destruct (IH _ _ _ _ H) as [H1 H2].
    rewrite length_app in H2. simpl in H2. split; [intros _; apply H1; exact Hlim | lia].
Qed.

Lemma search_total h inp :
  forall fuel queue cnt,
    (cnt <= DERIVATION_LIMIT)%N ->
    length queue + N.to_nat DERIVATION_LIMIT < fuel + N.to_nat cnt ->
    search fuel h inp queue cnt <> None.
Proof.
  induction fuel as [|fuel IH]; intros queue cnt Hcnt Hfuel; [lia|].
  simpl. destruct queue as [|[sts str] queue]; [discriminate|].
  destruct (expand h inp sts str _ queue cnt) as [e|[queue' cnt']] eqn:He; [discriminate|].
  destruct (expand_inr _ _ _ _ _ _ _ _ _ He) as [H1 H2].
  apply IH; [apply H1; exact Hcnt | simpl in Hfuel; lia].
Qed.

(** The search always ends: by a path, at the cap, or with an empty queue. *)
Lemma derivationSearch_total h mtch inp : derivationSearch h mtch inp <> None.
Proof.
  unfold derivationSearch, search_fuel. apply search_total; [apply N.le_0_l|].
  generalize (N.to_nat DERIVATION_LIMIT). intros n. simpl. lia.
Qed.

Lemma expand_Found h inp sts str :
  forall prevs queue cnt newStates,
    expand h inp sts str prevs queue cnt = inl (Found newStates) -> newStates <> [].
Proof.
  induction prevs as [|x prevs IH]; intros queue cnt newStates H; simpl in H; [discriminate|].
  destruct (String.eqb _ _).
  - injection H as <-. destruct sts; discriminate.
  - destruct (DERIVATION_LIMIT <? cnt + 1)%N; [discriminate|]. apply (IH _ _ _ H).
Qed.

Lemma search_Found h inp :
  forall fuel queue cnt newStates,
    search fuel h inp queue cnt = Some (Found newStates) -> newStates <> [].
Proof.
  induction fuel as [|fuel IH]; intros queue cnt newStates H; simpl in H; [discriminate|].
  destruct queue as [|[sts str] queue]; [discriminate|].
  destruct (expand h inp sts str _ queue cnt) as [e|[queue' cnt']] eqn:He.
  - injection H as ->. apply (expand_Found _ _ _ _ _ _ _ _ He).
  - apply (IH _ _ _ H).
Qed.

Lemma findCompleteParse_Some w r :
  r ∈ states w !!! String.length (input w) ->
  State_isCompleteParse (deref (heap w) r) = true ->
  exists mtch, findCompleteParse w = Some mtch /\
               mtch ∈ states w !!! String.length (input w) /\
               State_isCompleteParse (deref (heap w) mtch) = true.
Proof.
  intros Hr Hc. unfold findCompleteParse.
  destruct (find _ _) as [m|] eqn:Hf.
  - apply find_some in Hf as [Hm Hmc]. exists m.
    split; [reflexivity|]. split; [apply list_elem_of_In; exact Hm | exact Hmc].
  - apply list_elem_of_In in Hr. pose proof (find_none _ _ Hf r Hr) as Hn.
    simpl in Hn. congruence.
Qed.

(** *** The search and the paths it builds *)

Lemma expand_paths h inp sts str :
  forall prevs queue cnt budget,
    budget + N.to_nat cnt = N.to_nat DERIVATION_LIMIT + 1 -> 0 < budget ->
    let paths := map (fun x => (sts ++ [x], nextSymString h str x)) prevs in
    match expand h inp sts str prevs queue cnt with
    | inl e =>
        e = verdict inp budget paths /\
        (is_Some (find (fun entry => String.eqb (snd entry) inp) (take budget paths)) \/
         budget <= length paths)
    | inr (queue', cnt') =>
        queue' = queue ++ paths /\ cnt' = (cnt + N.of_nat (length paths))%N /\
        length paths < budget /\
        find (fun entry => String.eqb (snd entry) inp) paths = None
    end.
Proof.
  induction prevs as [|x prevs IH]; intros queue cnt budget Hb Hpos; simpl.
  - rewrite app_nil_r. repeat split; [lia | lia].
  - destruct budget as [|budget]; [lia|].
    destruct (String.eqb (nextSymString h str x) inp) eqn:Heq.
    + unfold verdict. simpl. rewrite Heq. split; [reflexivity | left; eexists; reflexivity].
    + destruct (DERIVATION_LIMIT <? cnt + 1)%N eqn:Hlim.
      * apply N.ltb_lt in Hlim. assert (budget = 0) as -> by lia.
        unfold verdict. simpl. rewrite Heq. simpl. split; [reflexivity | right; lia].
      * apply N.ltb_ge in Hlim.
        specialize (IH (queue ++ [(sts ++ [x], nextSymString h str x)]) (cnt + 1)%N budget
                       ltac:(lia) ltac:(lia)).
        simpl in IH.
        destruct (expand h inp sts str prevs _ (cnt + 1)%N) as [e|[queue' cnt']].
        -- destruct IH as [-> Hwhy]. unfold verdict. simpl. rewrite Heq.
           split; [reflexivity|]. destruct Hwhy as [Hf|Hl]; [left; exact Hf | right; lia].
        -- destruct IH as (-> & -> & Hlen & Hnone). rewrite <- app_assoc.
           repeat split; [lia | lia | exact Hnone].
Qed.

Lemma find_app_Some {A} (f : A -> bool) (l k : list A) :
  is_Some (find f l) -> find f (l ++ k) = find f l.
Proof.
  induction l as [|x l IH]; simpl; [intros [? ?]; discriminate|].
  destruct (f x); [reflexivity | exact IH].
Qed.

Lemma find_app_None {A} (f : A -> bool) (l k : list A) :
  find f l = None -> find f (l ++ k) = find f k.
Proof.
  induction l as [|x l IH]; simpl; [reflexivity|].
  destruct (f x); [discriminate | exact IH].
Qed.

Lemma verdict_decided inp budget paths more :
  is_Some (find (fun entry => String.eqb (snd entry) inp) (take budget paths)) \/
  budget <= length paths ->
  verdict inp budget (paths ++ more) = verdict inp budget paths.
Proof.
  intros Hwhy. unfold verdict.
  destruct (decide (budget <= length paths)) as [Hle|Hgt].
  - rewrite take_app_le by exact Hle. rewrite length_app.
    destruct (find _ (take budget paths)); [reflexivity|].
    rewrite (proj2 (Nat.leb_le budget (length paths + length more))) by lia.
    rewrite (proj2 (Nat.leb_le budget (length paths)) Hle). reflexivity.
  - destruct Hwhy as [Hf|Hle]; [|lia].
    rewrite take_app_ge by lia. rewrite (take_ge paths budget) in Hf |- * by lia.
    rewrite (find_app_Some _ _ _ Hf). destruct Hf as [entry ->]. reflexivity.
Qed.

Lemma verdict_undecided inp budget paths more :
  length paths < budget ->
  find (fun entry => String.eqb (snd entry) inp) paths = None ->
  verdict inp budget (paths ++ more) = verdict inp (budget - length paths) more.
Proof.
  intros Hlt Hnone. unfold verdict.
  rewrite take_app_ge by lia. rewrite (find_app_None _ _ _ Hnone), length_app.
  destruct (find _ (take (budget - length paths) more)); [reflexivity|].
  destruct (Nat.leb (budget - length paths) (length more)) eqn:Hl.
  - apply Nat.leb_le in Hl. rewrite (proj2 (Nat.leb_le _ _)) by lia. reflexivity.
  - apply Nat.leb_gt in Hl. rewrite (proj2 (Nat.leb_gt _ _)) by lia. reflexivity.
Qed.

(** The search with its cap ends as the paths of the search without cap
    say: by the first of them that spells the input if it is among the
    paths the cap lets through, at the cap if there are that many paths and
    none of them spells the input, and with an empty queue otherwise. *)
Lemma search_paths h inp :
  forall fuel queue cnt budget,
    budget + N.to_nat cnt = N.to_nat DERIVATION_LIMIT + 1 -> 0 < budget ->
    length queue + budget <= fuel ->
    search fuel h inp queue cnt = Some (verdict inp budget (levelOrder fuel h queue)).
Proof.
  induction fuel as [|fuel IH]; intros queue cnt budget Hb Hpos Hfuel; [lia|].
  cbn [search levelOrder]. destruct queue as [|[sts str] queue].
  - unfold verdict. rewrite take_nil. simpl.
    rewrite (proj2 (Nat.leb_gt _ _)) by (simpl; lia). reflexivity.
  - pose proof (expand_paths h inp sts str (prev (deref h (List.last sts 0))) queue cnt
                  budget Hb Hpos) as He.
    unfold extend. cbn [fst snd]. cbv zeta in He.
    set (paths := map (fun x => (sts ++ [x], nextSymString h str x))
                      (prev (deref h (List.last sts 0)))) in *.
    destruct (expand h inp sts str _ queue cnt) as [e|[queue' cnt']].
    + destruct He as [-> Hwhy]. rewrite (verdict_decided _ _ _ _ Hwhy). reflexivity.
    + destruct He as (-> & -> & Hlen & Hnone).
      rewrite (verdict_undecided _ _ _ _ Hlen Hnone).
      apply IH; [lia | lia |]. rewrite length_app. simpl in Hfuel. lia.
Qed.

Lemma derivationSearch_paths h mtch inp :
  derivationSearch h mtch inp
  = Some (verdict (escapeHTML inp) (N.to_nat DERIVATION_LIMIT + 1)
            (levelOrder search_fuel h
               [([mtch], SymArray_toString (symArray (deref h mtch)))])).
Proof.
  unfold derivationSearch. apply search_paths; unfold search_fuel; simpl length; lia.
Qed.

(** Taking more paths off the queue does not change the first [n] paths
    that are built, once [n] + the length of the queue have been taken. *)
Lemma levelOrder_more h :
  forall fuel fuel' n queue,
    length queue + n <= fuel -> fuel <= fuel' ->
    take n (levelOrder fuel' h queue) = take n (levelOrder fuel h queue).
Proof.
  induction fuel as [|fuel IH]; intros fuel' n queue Hn Hle.
  - assert (n = 0) as -> by lia. reflexivity.
  - destruct fuel' as [|fuel']; [lia|]. cbn [levelOrder].
    destruct queue as [|entry queue]; [reflexivity|].
    destruct (decide (n <= length (extend h entry))) as [Hs|Hl].
    + rewrite !take_app_le by exact Hs. reflexivity.
    + rewrite !take_app_ge by lia. f_equal.
      apply IH; [|lia]. rewrite length_app. simpl in Hn. lia.
Qed.

Lemma verdict_limit inp budget paths :
  verdict inp budget paths = LimitReached <->
  budget <= length (take budget paths) /\
  forallb (fun entry => negb (String.eqb (snd entry) inp)) (take budget paths) = true.
Proof.
  unfold verdict. rewrite length_take.
  destruct (find _ (take budget paths)) as [entry|] eqn:Hf.
  - apply find_some in Hf as [Hin Heq]. split; [discriminate|]. intros [_ Hall].
    rewrite forallb_forall in Hall. specialize (Hall entry Hin). rewrite Heq in Hall.
    discriminate.
  - assert (Hall : forallb (fun entry => negb (String.eqb (snd entry) inp))
                     (take budget paths) = true).
    { apply forallb_forall. intros entry Hin. rewrite (find_none _ _ Hf entry Hin).
      reflexivity. }
    destruct (Nat.leb budget (length paths)) eqn:Hl.
    + apply Nat.leb_le in Hl. split; [intros _; split; [lia | exact Hall] | reflexivity].
    + apply Nat.leb_gt in Hl. split; [discriminate | intros [Hle _]; lia].
Qed.

Lemma limit_paths h mtch inp :
  derivationSearch h mtch inp = Some LimitReached <->
  (50000 < N.of_nat (length (pathsBuilt h mtch (N.to_nat 50001))))%N /\
  forallb (fun entry => negb (spells inp entry)) (pathsBuilt h mtch (N.to_nat 50001)) = true.
Proof.
  rewrite derivationSearch_paths. unfold pathsBuilt, search_fuel.
  assert (HL : N.to_nat 50001 = N.to_nat DERIVATION_LIMIT + 1).
  { change 50001%N with (DERIVATION_LIMIT + 1)%N. rewrite N2Nat.inj_add. f_equal. }
  rewrite HL. clear HL. change 50000%N with DERIVATION_LIMIT.
  replace (N.to_nat DERIVATION_LIMIT + 3) with (S (S (N.to_nat DERIVATION_LIMIT + 1))) by lia.
  generalize (levelOrder (S (S (N.to_nat DERIVATION_LIMIT + 1))) h
                [([mtch], SymArray_toString (symArray (deref h mtch)))]).
  intros paths.
  assert (Hb : forall k : nat, (DERIVATION_LIMIT < N.of_nat k)%N <->
                               N.to_nat DERIVATION_LIMIT + 1 <= k) by (intros k; lia).
  revert Hb. generalize (N.to_nat DERIVATION_LIMIT + 1). intros budget Hb.
  rewrite Hb. split.
  - intros Hv. apply (inj Some) in Hv. apply verdict_limit in Hv. exact Hv.
  - intros Hv. f_equal. apply verdict_limit. exact Hv.
Qed.

(** C5: when the chart holds a complete parse State at [input.length], the
    search for its derivation is given up exactly when it builds more than
    [DERIVATION_LIMIT] = 50000 paths without one that spells the input: the
    first 50001 paths of the search without cap exist and none of them
    spells it.  [doesMatch] then returns the empty array, which is not
    [null], the result for no match. *)
Theorem derivation_limit_is_still_a_match (fuel : nat) (g : Grammar) (inp : string)
    (w0 w : World) (mtch : ref) :
  buildChart fuel g inp w0 = Ret tt w ->
  findCompleteParse w = Some mtch ->
  (derivationSearch (heap w) mtch inp = Some LimitReached <->
   (50000 < N.of_nat (length (pathsBuilt (heap w) mtch (N.to_nat 50001))))%N /\
   forallb (fun entry => negb (spells inp entry))
           (pathsBuilt (heap w) mtch (N.to_nat 50001)) = true) /\
  ((50000 < N.of_nat (length (pathsBuilt (heap w) mtch (N.to_nat 50001))))%N ->
   forallb (fun entry => negb (spells inp entry))
           (pathsBuilt (heap w) mtch (N.to_nat 50001)) = true ->
   doesMatchFuel fuel g inp w0 = Ret (Some []) w /\
   Some [] <> (None : option (list ref))) /\
  DERIVATION_LIMIT = 50000%N.
Proof.
  intros Hchart Hfind. split; [apply limit_paths|]. split; [|reflexivity].
  intros Hlen Hall. split; [|discriminate].
  unfold doesMatchFuel, bind, finish, getDerivation.
  rewrite Hchart, Hfind, (proj2 (limit_paths (heap w) mtch inp) (conj Hlen Hall)).
  reflexivity.
Qed.

(** C10: when the chart holds a complete parse State at [input.length],
    [doesMatch] does not return [null]: it returns the derivation of the
    first such State, which is a non-empty path when the search finds one,
    and the empty array both when the search hits its cap and when it runs
    out of paths; the caller gets the same value in the last two cases. *)
Theorem complete_parse_is_never_null (fuel : nat) (g : Grammar) (inp : string)
    (w0 w : World) (r : ref) :
  buildChart fuel g inp w0 = Ret tt w ->
  r ∈ states w !!! String.length (input w) ->
  State_isCompleteParse (deref (heap w) r) = true ->
  exists mtch path,
    findCompleteParse w = Some mtch /\
    doesMatchFuel fuel g inp w0 = Ret (Some path) w /\
    match derivationSearch (heap w) mtch inp with
    | Some (Found newStates) => path = newStates /\ newStates <> []
    | Some LimitReached => path = []
    | Some QueueExhausted => path = []
    | None => False
    end.
Proof.
  intros Hchart Hr Hc.
  destruct (findCompleteParse_Some w r Hr Hc) as (mtch & Hfind & _).
  exists mtch, (getDerivation (heap w) mtch inp).
  split; [exact Hfind|]. split.
  - unfold doesMatchFuel, bind, finish. rewrite Hchart, Hfind. reflexivity.
  - unfold getDerivation. pose proof (derivationSearch_total (heap w) mtch inp) as Htot.
    destruct (derivationSearch (heap w) mtch inp) as [[p| |]|] eqn:Hs; try reflexivity.
    + split; [reflexivity|]. apply (search_Found _ _ _ _ _ _ Hs).
    + congruence.
Qed.

(** ** Runs on little fuel *)

Lemma fuelBound_ge_22 g inp : 22 <= fuelBound g inp.
Proof.
  unfold fuelBound, closureCap, bucketCap, dotCount, lhsU, altU. simpl length.
  set (a := length (concat (altsOf g))). set (b := length (altsOf g)).
  set (n := String.length inp).
  assert (H : 4 <= S (S a) * S b * S (S a) * S n).
  { change 4 with (2 * 1 * 2 * 1). repeat apply Nat.mul_le_mono; lia. }
  set (c := S (S a) * S b * S (S a) * S n) in *.
  assert (H2 : 4 * (1 * 4) <= c * (S n * c)).
  { repeat apply Nat.mul_le_mono; lia. }
  lia.
Qed.

(** A run that ends with little fuel is the run of [doesMatch]. *)
Lemma doesMatch_Ret g inp w fuel result w' :
  fuel <= 22 -> doesMatchFuel fuel g inp w = Ret result w' ->
  doesMatch g inp w = Ret result w'.
Proof.
  intros Hle Hrun. unfold doesMatch. rewrite <- Hrun. apply doesMatchFuel_more; [|congruence].
  pose proof (fuelBound_ge_22 g inp). lia.
Qed.

Lemma doesMatch_Throw g inp w fuel e :
  fuel <= 22 -> doesMatchFuel fuel g inp w = Throw e ->
  doesMatch g inp w = Throw e.
Proof.
  intros Hle Hrun. unfold doesMatch. rewrite <- Hrun. apply doesMatchFuel_more; [|congruence].
  pose proof (fuelBound_ge_22 g inp). lia.
Qed.

Lemma allDefinedb_spec g : allDefinedb g = true -> allDefined g.
Proof.
  unfold allDefinedb, allDefined. rewrite forallb_forall. intros H X HX Ht.
  apply list_elem_of_In in HX. specialize (H X HX). rewrite Ht in H. simpl in H.
  destruct (productions g !! ch X); [eauto | discriminate].
Qed.

(** ** Deriving the empty string *)

Lemma nullable_array_app g a b :
  nullable_array g (a ++ b) <-> nullable_array g a /\ nullable_array g b.
Proof.
  induction a as [|X a IH]; simpl.
  - split; [intros H; split; [constructor | exact H] | intros [_ H]; exact H].
  - split.
    + intros H. inversion H as [|X' a' Ht HX Ha]; subst.
      apply IH in Ha as [Ha Hb]. split; [constructor; assumption | exact Hb].
    + intros [H Hb]. inversion H as [|X' a' Ht HX Ha]; subst.
      constructor; [exact Ht | exact HX | apply IH; split; assumption].
Qed.

Lemma derives_nullable g a : derives g a [] -> nullable_array g a.
Proof.
  unfold derives. intros H. remember [] as e eqn:He.
  induction H as [a|a b c Hstep Hrest IH]; subst; [constructor|].
  specialize (IH eq_refl). destruct Hstep as [u X v production alt Ht Hprod Halt].
  apply nullable_array_app in IH as [Hu Hav].
  apply nullable_array_app in Hav as [Ha Hv].
  apply nullable_array_app. split; [exact Hu|].
  constructor; [exact Ht | | exact Hv].
  apply (nullable_intro g (ch X) production alt Hprod Halt Ha).
Qed.

Lemma item_next_symbol s lk ak d o k :
  item s = (lk, ak, Z.of_nat d, o) -> ak !! d = Some k ->
  exists X, symKey X = k /\ State_isComplete s = false /\
            js_index (symArray s) (currentPosition s) = Some X.
Proof.
  unfold item. intros [= <- <- Hcur <-] Hk.
  change (map symKey (symArray s)) with (symKey <$> symArray s) in Hk.
  rewrite list_lookup_fmap in Hk.
  destruct (symArray s !! d) as [X|] eqn:HX; [|discriminate]. injection Hk as Hk.
  exists X. split; [exact Hk|]. pose proof (lookup_lt_Some _ _ _ HX) as Hlt. split.
  - unfold State_isComplete. apply Z.eqb_neq. rewrite Hcur.
    intros H. apply Nat2Z.inj in H. lia.
  - unfold js_index. rewrite Hcur. replace (Z.of_nat d <? 0)%Z with false
      by (symmetry; apply Z.ltb_ge; lia).
    rewrite Nat2Z.id. exact HX.
Qed.

Lemma closed_predict g w i lk ak d o c production alt :
  closedBucket g w i ->
  hasItem w i (lk, ak, Z.of_nat d, o) -> ak !! d = Some (c, false) ->
  productions g !! c = Some production -> alt ∈ rhs production ->
  hasItem w i ((c, false), map symKey alt, 0%Z, i).
Proof.
  intros Hcl (e & He & Hit) Hk Hprod Halt.
  destruct (item_next_symbol _ _ _ _ _ _ Hit Hk) as (X & HXk & Hnc & Hidx).
  injection HXk as Hch Ht.
  destruct (Hcl e He) as [Hpred _].
  destruct (Hpred X production alt) as (e' & He' & Hit'); try assumption.
  - unfold State_getNextSymbol. rewrite Hnc. exact Hidx.
  - rewrite Hch. exact Hprod.
  - exists e'. split; [exact He'|]. rewrite Hit'. unfold symKey. rewrite Hch, Ht. reflexivity.
Qed.

Lemma closed_complete g w i lk ak o lk2 ak2 d2 o2 :
  closedBucket g w i ->
  hasItem w i (lk, ak, Z.of_nat (length ak), o) ->
  hasItem w o (lk2, ak2, Z.of_nat d2, o2) -> ak2 !! d2 = Some lk ->
  hasItem w i (lk2, ak2, Z.of_nat (S d2), o2).
Proof.
  intros Hcl (e & He & Hit) (c & Hc & Hitc) Hk.
  destruct (item_next_symbol _ _ _ _ _ _ Hitc Hk) as (X & HXk & _ & Hidx).
  destruct (Hcl e He) as [_ Hcomp].
  unfold item in Hit. injection Hit as Hl Ha Hcur Ho.
  destruct (Hcomp) with (candidate := c) as (e' & He' & Hit').
  - unfold State_isComplete. apply Z.eqb_eq. rewrite Hcur, <- Ha, length_map. reflexivity.
  - rewrite Ho. exact Hc.
  - unfold State_hasNonterminalNext. rewrite Hidx. apply Symbol_equals_spec. congruence.
  - exists e'. split; [exact He'|]. rewrite Hit'.
    unfold item in Hitc. injection Hitc as -> -> -> ->. f_equal. f_equal. lia.
Qed.

Lemma item_dot_end g w i lk ak d o :
  Inv g w -> hasItem w i (lk, ak, Z.of_nat d, o) -> drop d ak = map symKey [] ->
  d = length ak.
Proof.
  intros HI (e & He & Hit) Hdrop.
  pose proof (inv_shape _ _ HI i _ e (bucket_elem_lookup w i e He) He) as (_ & _ & Hcur & _).
  unfold item in Hit. injection Hit as _ Ha Hc _.
  assert (Hlen : length ak = length (symArray (deref (heap w) e))).
  { rewrite <- Ha. apply length_map. }
  apply (f_equal length) in Hdrop. rewrite length_drop in Hdrop. simpl in Hdrop. lia.
Qed.

(** In a closed bucket the dot moves over every nonterminal that can
    vanish, and from there to the end of a rule whose rest can vanish. *)
Lemma nullable_skip g w i :
  Inv g w -> closedBucket g w i ->
  (forall c, nullable g c ->
     forall lk ak d o, hasItem w i (lk, ak, Z.of_nat d, o) -> ak !! d = Some (c, false) ->
                       hasItem w i (lk, ak, Z.of_nat (S d), o)) /\
  (forall alt, nullable_array g alt ->
     forall lk ak d o, hasItem w i (lk, ak, Z.of_nat d, o) -> drop d ak = map symKey alt ->
                       hasItem w i (lk, ak, Z.of_nat (length ak), o)).
Proof.
  intros HI Hcl.
  assert (Hboth : forall c, nullable g c ->
     forall lk ak d o, hasItem w i (lk, ak, Z.of_nat d, o) -> ak !! d = Some (c, false) ->
                       hasItem w i (lk, ak, Z.of_nat (S d), o)).
  { apply (nullable_mut g
      (fun c => forall lk ak d o, hasItem w i (lk, ak, Z.of_nat d, o) ->
                  ak !! d = Some (c, false) -> hasItem w i (lk, ak, Z.of_nat (S d), o))
      (fun alt => forall lk ak d o, hasItem w i (lk, ak, Z.of_nat d, o) ->
                  drop d ak = map symKey alt -> hasItem w i (lk, ak, Z.of_nat (length ak), o))).
    - intros c production alt Hprod Halt _ IHalt lk ak d o Hhas Hk.
      pose proof (closed_predict g w i lk ak d o c production alt Hcl Hhas Hk Hprod Halt) as Hp.
      specialize (IHalt (c, false) (map symKey alt) 0 i Hp eq_refl).
      apply (closed_complete g w i (c, false) (map symKey alt) i lk ak d o Hcl IHalt Hhas Hk).
    - intros lk ak d o Hhas Hdrop.
      rewrite <- (item_dot_end g w i lk ak d o HI Hhas Hdrop). exact Hhas.
    - intros X a Ht _ IHX _ IHa lk ak d o Hhas Hdrop.
      assert (Hk : ak !! d = Some (ch X, false)).
      { pose proof (lookup_drop ak d 0) as Hl. rewrite Nat.add_0_r in Hl.
        rewrite <- Hl, Hdrop. simpl. unfold symKey. rewrite Ht. reflexivity. }
      specialize (IHX lk ak d o Hhas Hk).
      apply (IHa lk ak (S d) o IHX).
      replace (S d) with (d + 1) by lia. rewrite <- drop_drop, Hdrop. reflexivity. }
  split; [exact Hboth|].
  apply (nullable_array_mut g
      (fun c => forall lk ak d o, hasItem w i (lk, ak, Z.of_nat d, o) ->
                  ak !! d = Some (c, false) -> hasItem w i (lk, ak, Z.of_nat (S d), o))
      (fun alt => forall lk ak d o, hasItem w i (lk, ak, Z.of_nat d, o) ->
                  drop d ak = map symKey alt -> hasItem w i (lk, ak, Z.of_nat (length ak), o))).
  - intros c production alt Hprod Halt Hn _. apply Hboth.
    apply (nullable_intro g c production alt Hprod Halt Hn).
  - intros lk ak d o Hhas Hdrop.
    rewrite <- (item_dot_end g w i lk ak d o HI Hhas Hdrop). exact Hhas.
  - intros X a Ht HX _ _ IHa lk ak d o Hhas Hdrop.
    assert (Hk : ak !! d = Some (ch X, false)).
    { pose proof (lookup_drop ak d 0) as Hl. rewrite Nat.add_0_r in Hl.
      rewrite <- Hl, Hdrop. simpl. unfold symKey. rewrite Ht. reflexivity. }
    pose proof (Hboth (ch X) HX lk ak d o Hhas Hk) as Hnext.
    apply (IHa lk ak (S d) o Hnext).
    replace (S d) with (d + 1) by lia. rewrite <- drop_drop, Hdrop. reflexivity.
Qed.

Lemma symKey_START s : symKey s = symKey START_LHS -> s = START_LHS.
Proof. destruct s as [|c t]; [reflexivity | discriminate]. Qed.

(** The empty string is matched when the start symbol can vanish and
    every nonterminal has a Production. *)
Lemma epsilon_matches g w0 :
  allDefined g -> derives g [startSymbol g] [] ->
  exists path w', doesMatch g "" w0 = Ret (Some path) w'.
Proof.
  intros Hdef Hder. unfold doesMatch, doesMatchFuel, bind.
  pose proof (buildChart_ok g "" _ w0 (fuelBound_enough g "")) as Hb.
  destruct (buildChart (fuelBound g "") g "" w0) as [u w| |]; [|destruct (Hb Hdef)|destruct Hb].
  destruct Hb as (HI & Hin & Hcl & r0 & Hr0 & Hcore). simpl in Hcl.
  assert (Hstart : hasItem w 0 (symKey START_LHS, [symKey (startSymbol g)], Z.of_nat 0, 0)).
  { exists r0. split; [apply (list_elem_of_lookup_2 _ 0), Hr0|].
    change (item (deref (heap w) r0)) with (item (core (deref (heap w) r0))).
    rewrite Hcore. reflexivity. }
  apply derives_nullable in Hder. inversion Hder as [|X a Ht HX _]; subst.
  destruct (nullable_skip g w 0 HI Hcl) as [Hskip _].
  destruct (Hskip _ HX _ _ 0 _ Hstart) as (e & He & Hit).
  { simpl. unfold symKey. rewrite Ht. reflexivity. }
  pose proof (f_equal (fun t => fst (fst (fst t))) Hit) as Hl.
  pose proof (f_equal (fun t => snd (fst (fst t))) Hit) as Ha.
  pose proof (f_equal (fun t => snd (fst t)) Hit) as Hc.
  cbn [item fst snd] in Hl, Ha, Hc.
  assert (Hparse : State_isCompleteParse (deref (heap w) e) = true).
  { unfold State_isCompleteParse, State_hasStart, State_isComplete.
    rewrite (symKey_START _ Hl), Hc. apply (f_equal length) in Ha.
    rewrite length_map in Ha. simpl in Ha. rewrite Ha. reflexivity. }
  destruct (findCompleteParse_Some w e) as (mtch & Hfind & _); [rewrite Hin; exact He | exact Hparse|].
  unfold finish. rewrite Hfind. eauto.
Qed.

(** ** Results on the concrete grammars *)

Lemma derives_S_epsilon g production :
  startSymbol g = Sym "S" false ->
  productions g !! "S" = Some production -> [] ∈ rhs production ->
  derives g [startSymbol g] [].
Proof.
  intros -> Hprod Halt. eapply rtc_l; [|apply rtc_refl].
  apply (derives_step_intro g [] (Sym "S" false) [] production [] eq_refl Hprod Halt).
Qed.

(** C4, as stated, fails: [S -> epsilon | X] leaves [X] undefined, which
    the specification allows, and [doesMatch] throws a TypeError when
    prediction reads [production.rhs] of the missing Production. *)
Lemma doesMatch_throws_on_undefined_nonterminal :
  doesMatch grammar_undefined "" empty_world = Throw TypeError.
Proof. apply (doesMatch_Throw _ _ _ 20); [lia | vm_compute; reflexivity]. Qed.

(** C4, amended: for every grammar in which every nonterminal that occurs
    on a right-hand side, and the start symbol if it is a nonterminal, has
    a Production, and for every input, [doesMatch] does not throw; it
    returns [null] (no match), the empty array (match, derivation
    unavailable) or a non-empty path (match with derivation). *)
Theorem doesMatch_never_throws_when_defined (g : Grammar) (inp : string) (w0 : World) :
  allDefined g ->
  exists result w',
    doesMatch g inp w0 = Ret result w' /\
    (result = None \/ result = Some [] \/ exists path, path <> [] /\ result = Some path).
Proof.
  intros Hdef. destruct (doesMatch_returns g inp w0 Hdef) as (result & w' & Hrun).
  exists result, w'. split; [exact Hrun|].
  destruct result as [[|x path]|]; [right; left; reflexivity | | left; reflexivity].
  right. right. exists (x :: path). split; [discriminate | reflexivity].
Qed.

Lemma doesMatch_never_throws_when_defined_witness :
  exists result w',
    doesMatch grammar_0XX "01" empty_world = Ret result w' /\
    (result = None \/ result = Some [] \/ exists path, path <> [] /\ result = Some path).
Proof.
  apply (doesMatch_never_throws_when_defined grammar_0XX "01" empty_world).
  apply allDefinedb_spec. vm_compute. reflexivity.
Defined.

(** C6, as stated, fails: "011" is derived by [S -> 0XX] with both [X -> 1],
    and [doesMatch] returns a derivation for it, not [null]. *)
Lemma parse_0XX_011_is_a_match :
  exists w', doesMatch grammar_0XX "011" empty_world
             = Ret (Some [118; 116; 109; 71; 66; 44]) w'.
Proof. eexists. apply (doesMatch_Ret _ _ _ 20); [lia | vm_compute; reflexivity]. Qed.

(** C6, amended: for [S -> 0XX], [X -> epsilon | 1] with start symbol [S],
    [doesMatch] returns a derivation for "01", for "0" and for "011" (the
    two [X] both take 1), and [null] for "0111", which has one 1 too many. *)
Theorem scenario_0XX :
  (exists w', doesMatch grammar_0XX "01" empty_world = Ret (Some [72; 67; 70; 66; 44]) w') /\
  (exists w', doesMatch grammar_0XX "0" empty_world = Ret (Some [22; 13; 5; 9; 5]) w') /\
  (exists w', doesMatch grammar_0XX "011" empty_world
              = Ret (Some [118; 116; 109; 71; 66; 44]) w') /\
  (exists w', doesMatch grammar_0XX "0111" empty_world = Ret None w').
Proof.
  repeat split; eexists; apply (doesMatch_Ret _ _ _ 20); try lia; vm_compute; reflexivity.
Qed.

(** C7, as stated, fails: in [S -> epsilon | X] the start symbol derives the
    empty string, yet [doesMatch] on the empty input throws instead of
    returning a match, because [X] has no Production. *)
Lemma epsilon_throws_on_undefined_nonterminal :
  derives grammar_undefined [startSymbol grammar_undefined] [] /\
  doesMatch grammar_undefined "" empty_world = Throw TypeError.
Proof.
  split.
  - apply (derives_S_epsilon grammar_undefined
             (mkProduction (Sym "S" false) [[]; [Sym "X" false]])).
    + reflexivity.
    + vm_compute. reflexivity.
    + left.
  - apply (doesMatch_Throw _ _ _ 20); [lia | vm_compute; reflexivity].
Qed.

(** C7, amended: when every nonterminal of the grammar has a Production and
    the start symbol derives the empty string, [doesMatch] on the empty
    input returns a match (not [null]), from any store; for the palindrome
    grammar [S -> 0S0 | 1S1 | 0 | 1 | epsilon] it returns a derivation for
    "101", [null] for "10", and a derivation for the empty input. *)
Theorem epsilon_and_palindromes :
  (forall g w0, allDefined g -> derives g [startSymbol g] [] ->
     exists path w', doesMatch g "" w0 = Ret (Some path) w') /\
  (exists w', doesMatch grammar_palindrome "101" empty_world
              = Ret (Some [219; 205; 139; 105]) w') /\
  (exists w', doesMatch grammar_palindrome "10" empty_world = Ret None w') /\
  (exists w', doesMatch grammar_palindrome "" empty_world = Ret (Some [11; 5]) w').
Proof.
  split; [intros g w0; apply epsilon_matches|].
  repeat split; eexists; apply (doesMatch_Ret _ _ _ 20); try lia; vm_compute; reflexivity.
Qed.

Lemma epsilon_and_palindromes_witness :
  exists path w', doesMatch grammar_palindrome "" empty_world = Ret (Some path) w'.
Proof.
  destruct epsilon_and_palindromes as [H _].
  apply (H grammar_palindrome empty_world).
  - apply allDefinedb_spec. vm_compute. reflexivity.
  - apply (derives_S_epsilon grammar_palindrome
             (mkProduction (Sym "S" false)
                [[Sym "0" true; Sym "S" false; Sym "0" true];
                 [Sym "1" true; Sym "S" false; Sym "1" true];
                 [Sym "0" true]; [Sym "1" true]; []])).
    + reflexivity.
    + vm_compute. reflexivity.
    + repeat constructor.
Defined.

Lemma chart_has_no_equal_states_witness :
  State_equals (deref (heap (chart_of grammar_0XX "0")) 4)
               (deref (heap (chart_of grammar_0XX "0")) 5) = false.
Proof.
  apply (chart_has_no_equal_states 20 grammar_0XX "0" empty_world
           (chart_of grammar_0XX "0") (Some [22; 13; 5; 9; 5])
           ltac:(vm_compute; reflexivity) 1 [4; 5; 6; 9; 13; 22] 0 1 4 5);
    [vm_compute; reflexivity | reflexivity | reflexivity | discriminate].
Defined.

Lemma derivation_limit_is_still_a_match_witness :
  doesMatchFuel 20 grammar_lt_cycle "a" empty_world
    = Ret (Some []) (chart_of grammar_lt_cycle "a") /\
  Some [] <> (None : option (list ref)).
Proof.
  destruct (derivation_limit_is_still_a_match 20 grammar_lt_cycle "a" empty_world
              (chart_of grammar_lt_cycle "a") 20) as (_ & H & _);
    [vm_compute; reflexivity | vm_compute; reflexivity |].
  apply H; vm_compute; reflexivity.
Defined.

Lemma complete_parse_is_never_null_witness :
  exists mtch path,
    findCompleteParse (chart_of grammar_lt "a") = Some mtch /\
    doesMatchFuel 20 grammar_lt "a" empty_world = Ret (Some path) (chart_of grammar_lt "a") /\
    match derivationSearch (heap (chart_of grammar_lt "a")) mtch "a" with
    | Some (Found newStates) => path = newStates /\ newStates <> []
    | Some LimitReached => path = []
    | Some QueueExhausted => path = []
    | None => False
    end.
Proof.
  apply (complete_parse_is_never_null 20 grammar_lt "a" empty_world
           (chart_of grammar_lt "a") 5);
    [vm_compute; reflexivity | vm_compute; repeat constructor | vm_compute; reflexivity].
Defined.

(** The search can run out of paths: with the nonterminal [<], escaped to
    four characters, the strings the search builds never equal the input,
    and the back-pointers of this chart have no cycle. *)
Lemma exhausted_search_example :
  findCompleteParse (chart_of grammar_lt "a") = Some 5 /\
  derivationSearch (heap (chart_of grammar_lt "a")) 5 "a" = Some QueueExhausted /\
  doesMatch grammar_lt "a" empty_world = Ret (Some []) (chart_of grammar_lt "a").
Proof.
  split; [vm_compute; reflexivity|]. split; [vm_compute; reflexivity|].
  apply (doesMatch_Ret _ _ _ 20); [lia | vm_compute; reflexivity].
Qed.

Lemma left_recursion_example :
  exists path w', doesMatch grammar_left_recursive "aaa" empty_world = Ret (Some path) w'.
Proof. eexists _, _. apply (doesMatch_Ret _ _ _ 20); [lia | vm_compute; reflexivity]. Qed.

Lemma epsilon_cycle_example :
  (exists path w', doesMatch grammar_epsilon_cycle "" empty_world = Ret (Some path) w') /\
  (exists w', doesMatch grammar_epsilon_cycle "a" empty_world = Ret None w').
Proof.
  split; [eexists _, _ | eexists];
    apply (doesMatch_Ret _ _ _ 20); try lia; vm_compute; reflexivity.
Qed.

(** Strings from the test file: palindromes match, the others do not. *)
Lemma palindrome_test_strings :
  (exists path w', doesMatch grammar_palindrome "1" empty_world = Ret (Some path) w') /\
  (exists path w', doesMatch grammar_palindrome "11" empty_world = Ret (Some path) w') /\
  (exists path w', doesMatch grammar_palindrome "00" empty_world = Ret (Some path) w') /\
  (exists w', doesMatch grammar_palindrome "110" empty_world = Ret None w') /\
  (exists w', doesMatch grammar_palindrome "01" empty_world = Ret None w') /\
  (exists w', doesMatch grammar_palindrome "3" empty_world = Ret None w').
Proof.
  repeat split; first [eexists _, _ | eexists];
    apply (doesMatch_Ret _ _ _ 20); try lia; vm_compute; reflexivity.
Qed.

Lemma SymArray_equals_eq a b : SymArray_equals a b = true <-> a = b.
Proof.
  rewrite SymArray_equals_spec. split; [|intros ->; reflexivity].
  revert b. induction a as [|x a IH]; intros [|y b]; simpl; try discriminate; [reflexivity|].
  intros H. pose proof (f_equal (fun t => hd_error t) H) as Hx. simpl in Hx.
  pose proof (f_equal (fun t => tl t) H) as Hab. simpl in Hab.
  assert (Hk : symKey x = symKey y) by congruence.
  rewrite (IH b Hab). f_equal.
  destruct x as [|c t], y as [|c' t']; unfold symKey in Hk; simpl in Hk; congruence.
Qed.

Lemma rhsContains_elem p a : Production_rhsContains p a = true <-> a ∈ rhs p.
Proof.
  unfold Production_rhsContains. rewrite existsb_exists. split.
  - intros (b & Hb & Heq). apply SymArray_equals_eq in Heq. subst b.
    apply list_elem_of_In. exact Hb.
  - intros Ha. exists a. split; [apply list_elem_of_In; exact Ha | apply SymArray_equals_eq; reflexivity].
Qed.

Lemma addArray_rhs p a :
  rhs (Production_addArray p a) = if decide (a ∈ rhs p) then rhs p else rhs p ++ [a].
Proof.
  unfold Production_addArray. destruct (Production_rhsContains p a) eqn:Hc.
  - apply rhsContains_elem in Hc. destruct (decide (a ∈ rhs p)); [reflexivity | contradiction].
  - destruct (decide (a ∈ rhs p)) as [Hin|_]; [|reflexivity].
    apply rhsContains_elem in Hin. congruence.
Qed.

Lemma addArray_lhs p a : p_lhs (Production_addArray p a) = p_lhs p.
Proof. unfold Production_addArray. destruct (Production_rhsContains p a); reflexivity. Qed.

Lemma addArray_facts (p : Production) (a : SymArray) :
  Production_rhsContains (Production_addArray p a) a = true /\
  rhs p `prefix_of` rhs (Production_addArray p a) /\
  (forall b, b ∈ rhs (Production_addArray p a) <-> b ∈ rhs p \/ b = a) /\
  (NoDup (rhs p) -> NoDup (rhs (Production_addArray p a))) /\
  (Production_rhsContains p a = true -> Production_addArray p a = p).
Proof.
  rewrite rhsContains_elem, addArray_rhs.
  destruct (decide (a ∈ rhs p)) as [Hin|Hnot].
  - split; [exact Hin|]. split; [reflexivity|]. split; [|split].
    + intros b. split; [auto | intros [H| ->]; assumption].
    + auto.
    + intros Hc. unfold Production_addArray. rewrite Hc. reflexivity.
  - split; [apply elem_of_app; right; left|]. split; [apply prefix_app_r; reflexivity|].
    split; [|split].
    + intros b. rewrite elem_of_app, list_elem_of_singleton. reflexivity.
    + intros Hnd. apply NoDup_app. split; [exact Hnd|]. split; [|apply NoDup_singleton].
      intros x Hx Hx'. apply list_elem_of_singleton in Hx'. subst x. contradiction.
    + intros Hc. apply rhsContains_elem in Hc. contradiction.
Qed.

(** X17: [Production.addArray]: the alternative is there afterwards, the ones
    that were there stay where they are, and no duplicate comes in. *)
Theorem addArray_spec (p : Production) (a : SymArray) :
  Production_rhsContains (Production_addArray p a) a = true /\
  rhs p `prefix_of` rhs (Production_addArray p a) /\
  (forall b, b ∈ rhs (Production_addArray p a) <-> b ∈ rhs p \/ b = a) /\
  (NoDup (rhs p) -> NoDup (rhs (Production_addArray p a))) /\
  (Production_rhsContains p a = true -> Production_addArray p a = p).
Proof. exact (addArray_facts p a). Qed.

Lemma fold_addArray alts :
  forall p,
    p_lhs (fold_left Production_addArray alts p) = p_lhs p /\
    rhs p `prefix_of` rhs (fold_left Production_addArray alts p) /\
    (forall b, b ∈ rhs (fold_left Production_addArray alts p) <-> b ∈ rhs p \/ b ∈ alts) /\
    (NoDup (rhs p) -> NoDup (rhs (fold_left Production_addArray alts p))).
Proof.
  induction alts as [|a alts IH]; intros p; simpl.
  - split; [reflexivity|]. split; [reflexivity|]. split; [|auto].
    intros b. split; [auto | intros [H|H]; [exact H | inversion H]].
  - destruct (IH (Production_addArray p a)) as (H1 & H2 & H3 & H4).
    destruct (addArray_facts p a) as (_ & A2 & A3 & A4 & _).
    split; [rewrite H1; apply addArray_lhs|].
    split; [etransitivity; eassumption|]. split.
    + intros b. rewrite H3, A3, elem_of_cons. tauto.
    + intros Hnd. apply H4, A4, Hnd.
Qed.

Lemma fold_addArray_id alts :
  forall p, (forall a, a ∈ alts -> a ∈ rhs p) -> fold_left Production_addArray alts p = p.
Proof.
  induction alts as [|a alts IH]; intros p Hall; simpl; [reflexivity|].
  destruct (addArray_facts p a) as (_ & _ & _ & _ & Hid).
  rewrite Hid by (apply rhsContains_elem, Hall; left).
  apply IH. intros b Hb. apply Hall. right. exact Hb.
Qed.

Lemma addProduction_stored (g : Grammar) (p : Production) :
  exists stored,
    productions (Grammar_addProduction g p) !! ch (p_lhs p) = Some stored /\
    (forall a, a ∈ rhs stored <->
       a ∈ rhs p \/ exists old, productions g !! ch (p_lhs p) = Some old /\ a ∈ rhs old) /\
    (forall old, productions g !! ch (p_lhs p) = Some old ->
       p_lhs stored = p_lhs old /\ rhs old `prefix_of` rhs stored /\
       (NoDup (rhs old) -> NoDup (rhs stored))) /\
    (productions g !! ch (p_lhs p) = None -> stored = p) /\
    (forall k, k <> ch (p_lhs p) ->
       productions (Grammar_addProduction g p) !! k = productions g !! k) /\
    startSymbol (Grammar_addProduction g p) = startSymbol g.
Proof.
  unfold Grammar_addProduction.
  destruct (productions g !! ch (p_lhs p)) as [cur|] eqn:Hcur; cbn [productions startSymbol].
  - destruct (fold_addArray (rhs p) cur) as (H1 & H2 & H3 & H4).
    eexists. split; [apply lookup_insert_eq|]. split; [|split; [|split; [|split]]].
    + intros a. rewrite H3. split.
      * intros [H|H]; [right; exists cur; auto | left; exact H].
      * intros [H|(old & [= <-] & H)]; auto.
    + intros old [= <-]. auto.
    + discriminate.
    + intros k Hk. apply lookup_insert_ne. congruence.
    + reflexivity.
  - exists p. split; [apply lookup_insert_eq|]. split; [|split; [|split; [|split]]].
    + intros a. split; [auto | intros [H|(old & Hold & _)]; [exact H | discriminate]].
    + discriminate.
    + reflexivity.
    + intros k Hk. apply lookup_insert_ne. congruence.
    + reflexivity.
Qed.

(** X13: [Grammar.addProduction]: afterwards the Production of the left-hand
    side holds the alternatives it had, where they were, and the new ones;
    the other Productions and the start symbol are as before. *)
Theorem addProduction_merges (g : Grammar) (p : Production) :
  exists stored,
    productions (Grammar_addProduction g p) !! ch (p_lhs p) = Some stored /\
    (forall a, a ∈ rhs stored <->
       a ∈ rhs p \/ exists old, productions g !! ch (p_lhs p) = Some old /\ a ∈ rhs old) /\
    (forall old, productions g !! ch (p_lhs p) = Some old ->
       p_lhs stored = p_lhs old /\ rhs old `prefix_of` rhs stored /\
       (NoDup (rhs old) -> NoDup (rhs stored))) /\
    (productions g !! ch (p_lhs p) = None -> stored = p) /\
    (forall k, k <> ch (p_lhs p) ->
       productions (Grammar_addProduction g p) !! k = productions g !! k) /\
    startSymbol (Grammar_addProduction g p) = startSymbol g.
Proof. exact (addProduction_stored g p). Qed.

(** X14: adding the same Production a second time changes nothing. *)
Theorem addProduction_idempotent (g : Grammar) (p : Production) :
  Grammar_addProduction (Grammar_addProduction g p) p = Grammar_addProduction g p.
Proof.
  unfold Grammar_addProduction at 2 3.
  destruct (productions g !! ch (p_lhs p)) as [cur|] eqn:Hcur.
  - unfold Grammar_addProduction. cbn [productions startSymbol nonterminals].
    rewrite lookup_insert_eq. f_equal. rewrite insert_insert_eq. f_equal.
    apply fold_addArray_id. intros a Ha.
    apply (proj1 (proj2 (proj2 (fold_addArray (rhs p) cur)))). right. exact Ha.
  - unfold Grammar_addProduction. cbn [productions startSymbol nonterminals].
    rewrite lookup_insert_eq. f_equal. rewrite insert_insert_eq. f_equal.
    apply fold_addArray_id. auto.
Qed.

Lemma built_snoc start ps p :
  built start (ps ++ [p]) = Grammar_addProduction (built start ps) p.
Proof. unfold built. rewrite fold_left_app. reflexivity. Qed.

Lemma addProduction_nonterminals g p :
  nonterminals (Grammar_addProduction g p)
  = match productions g !! ch (p_lhs p) with
    | Some _ => nonterminals g
    | None => nonterminals g ++ [ch (p_lhs p)]
    end.
Proof.
  unfold Grammar_addProduction. destruct (productions g !! ch (p_lhs p)); reflexivity.
Qed.

Lemma built_keys (start : Symbol) (ps : list Production) :
  startSymbol (built start ps) = start /\
  NoDup (nonterminals (built start ps)) /\
  (forall k, k ∈ nonterminals (built start ps) <-> is_Some (productions (built start ps) !! k)) /\
  (forall k, is_Some (productions (built start ps) !! k) <->
             exists p, p ∈ ps /\ ch (p_lhs p) = k) /\
  (forall k q, productions (built start ps) !! k = Some q ->
     ch (p_lhs q) = k /\
     forall a, a ∈ rhs q <-> exists p, p ∈ ps /\ ch (p_lhs p) = k /\ a ∈ rhs p).
Proof.
  induction ps as [|p ps IH] using rev_ind.
  - unfold built. simpl. split; [reflexivity|]. split; [constructor|].
    split; [|split].
    + intros k. rewrite lookup_empty. split; [intros H; inversion H | intros [x H]; discriminate].
    + intros k. rewrite lookup_empty. split; [intros [x H]; discriminate|].
      intros (p & Hp & _). inversion Hp.
    + intros k q. rewrite lookup_empty. discriminate.
  - destruct IH as (Hs & Hnd & Hkeys & Hdom & Hrhs). rewrite built_snoc.
    set (g := built start ps) in *.
    destruct (addProduction_stored g p) as (stored & Hst & Hall & Hold & Hnew & Hother & Hstart).
    assert (Hlook : forall k, productions (Grammar_addProduction g p) !! k
                      = if decide (k = ch (p_lhs p)) then Some stored else productions g !! k).
    { intros k. destruct (decide (k = ch (p_lhs p))) as [->|Hne]; [exact Hst | apply Hother, Hne]. }
    split; [rewrite Hstart; exact Hs|]. split; [|split; [|split]].
    + rewrite addProduction_nonterminals.
      destruct (productions g !! ch (p_lhs p)) as [cur|] eqn:Hcur; [exact Hnd|].
      apply NoDup_app. split; [exact Hnd|]. split; [|apply NoDup_singleton].
      intros x Hx Hx'. apply list_elem_of_singleton in Hx'. subst x.
      apply Hkeys in Hx as [y Hy]. congruence.
    + intros k. rewrite addProduction_nonterminals, Hlook.
      destruct (decide (k = ch (p_lhs p))) as [->|Hne].
      * split; [eauto|]. intros _.
        destruct (productions g !! ch (p_lhs p)) as [cur|] eqn:Hcur.
        -- apply Hkeys. rewrite Hcur. eauto.
        -- apply elem_of_app. right. left.
      * destruct (productions g !! ch (p_lhs p)) as [cur|] eqn:Hcur; [apply Hkeys|].
        rewrite elem_of_app, list_elem_of_singleton, Hkeys. tauto.
    + intros k. rewrite Hlook. destruct (decide (k = ch (p_lhs p))) as [->|Hne].
      * split; [|eauto]. intros _. exists p. split; [apply elem_of_app; right; left | reflexivity].
      * rewrite Hdom. split.
        -- intros (p' & Hp' & Hk). exists p'. split; [apply elem_of_app; left; exact Hp' | exact Hk].
        -- intros (p' & Hp' & Hk). apply elem_of_app in Hp' as [Hp'|Hp']; [eauto|].
           apply list_elem_of_singleton in Hp'. subst p'. congruence.
    + intros k q. rewrite Hlook. destruct (decide (k = ch (p_lhs p))) as [->|Hne].
      * intros [= <-]. split.
        -- destruct (productions g !! ch (p_lhs p)) as [cur|] eqn:Hcur.
           ++ destruct (Hold cur eq_refl) as (-> & _). apply (Hrhs _ cur Hcur).
           ++ rewrite (Hnew eq_refl). reflexivity.
        -- intros a. rewrite Hall. split.
           ++ intros [Ha|(old & Ho & Ha)].
              ** exists p. split; [apply elem_of_app; right; left | auto].
              ** apply (Hrhs _ old Ho) in Ha as (p' & Hp' & Hk & Ha).
                 exists p'. split; [apply elem_of_app; left; exact Hp' | auto].
           ++ intros (p' & Hp' & Hk & Ha). apply elem_of_app in Hp' as [Hp'|Hp'].
              ** right. destruct (proj2 (Hdom (ch (p_lhs p))) (ex_intro _ p' (conj Hp' Hk)))
                   as [old Ho].
                 exists old. split; [exact Ho|]. apply (Hrhs _ old Ho). eauto.
              ** apply list_elem_of_singleton in Hp'. subst p'. left. exact Ha.
      * intros Hq. destruct (Hrhs k q Hq) as [Hk Ha]. split; [exact Hk|].
        intros a. rewrite Ha. split.
        -- intros (p' & Hp' & H). exists p'. split; [apply elem_of_app; left; exact Hp' | exact H].
        -- intros (p' & Hp' & Hk' & Ha'). apply elem_of_app in Hp' as [Hp'|Hp']; [eauto|].
           apply list_elem_of_singleton in Hp'. subst p'. congruence.
Qed.

(** X15: a grammar built by [addProduction]: [nonterminals] lists the keys of
    [productions], each once; a Production is stored under the character
    of its left-hand side; and it holds exactly the alternatives that were
    added for that character. *)
Theorem built_grammar (start : Symbol) (ps : list Production) :
  startSymbol (built start ps) = start /\
  NoDup (nonterminals (built start ps)) /\
  (forall k, k ∈ nonterminals (built start ps) <-> is_Some (productions (built start ps) !! k)) /\
  (forall k, is_Some (productions (built start ps) !! k) <->
             exists p, p ∈ ps /\ ch (p_lhs p) = k) /\
  (forall k q, productions (built start ps) !! k = Some q ->
     ch (p_lhs q) = k /\
     forall a, a ∈ rhs q <-> exists p, p ∈ ps /\ ch (p_lhs p) = k /\ a ∈ rhs p).
Proof. exact (built_keys start ps). Qed.

(** X16: alternatives stay distinct: when no Production that is added lists an
    alternative twice, no Production of the grammar does. *)
Theorem built_grammar_distinct (start : Symbol) (ps : list Production) :
  (forall p, p ∈ ps -> NoDup (rhs p)) ->
  forall k q, productions (built start ps) !! k = Some q -> NoDup (rhs q).
Proof.
  induction ps as [|p ps IH] using rev_ind; intros Hall k q.
  - unfold built. simpl. rewrite lookup_empty. discriminate.
  - rewrite built_snoc. set (g := built start ps) in *.
    assert (IH' : forall k q, productions g !! k = Some q -> NoDup (rhs q)).
    { apply IH. intros p' Hp'. apply Hall, elem_of_app. left. exact Hp'. }
    destruct (addProduction_stored g p) as (stored & Hst & _ & Hold & Hnew & Hother & _).
    destruct (decide (k = ch (p_lhs p))) as [->|Hne].
    + rewrite Hst. intros [= <-].
      destruct (productions g !! ch (p_lhs p)) as [cur|] eqn:Hcur.
      * destruct (Hold cur eq_refl) as (_ & _ & Hnd). apply Hnd, (IH' _ cur Hcur).
      * rewrite (Hnew eq_refl). apply Hall, elem_of_app. right. left.
    + rewrite (Hother k Hne). apply IH'.
Qed.

Lemma built_grammar_distinct_witness :
  NoDup [[Sym "0" true; Sym "S" false; Sym "0" true];
         [Sym "1" true; Sym "S" false; Sym "1" true];
         [Sym "0" true]; [Sym "1" true]; []].
Proof.
  apply (built_grammar_distinct (Sym "S" false)
           [mkProduction (Sym "S" false)
              [[Sym "0" true; Sym "S" false; Sym "0" true];
               [Sym "1" true; Sym "S" false; Sym "1" true]];
            mkProduction (Sym "S" false)
              [[Sym "1" true; Sym "S" false; Sym "1" true]; [Sym "0" true]; [Sym "1" true]];
            mkProduction (Sym "S" false) [[Sym "0" true]; [Sym "1" true]; []]]
           ltac:(intros p Hp; rewrite !elem_of_cons in Hp;
                 destruct Hp as [->|[->|[->|Hp]]]; [| | |inversion Hp];
                 simpl; apply (bool_decide_unpack _); vm_compute; exact I)
           "S"
           (mkProduction (Sym "S" false)
              [[Sym "0" true; Sym "S" false; Sym "0" true];
               [Sym "1" true; Sym "S" false; Sym "1" true];
               [Sym "0" true]; [Sym "1" true]; []])).
  vm_compute. reflexivity.
Defined.

(** X18: [Grammar.toString] finds a Production for every entry of
    [nonterminals]: on a grammar built by [addProduction] it does not
    throw. *)
Theorem Grammar_toString_defined (start : Symbol) (ps : list Production)
    (showNonterminals : bool) (options : option Z) :
  exists s, Grammar_toString (built start ps) showNonterminals options = Some s.
Proof.
  destruct (built_keys start ps) as (_ & _ & Hkeys & _).
  unfold Grammar_toString.
  generalize ("Start symbol: "
                +:+ Symbol_toStringWith (startSymbol (built start ps)) showNonterminals options
                +:+ "<br>").
  assert (Hall : forall k, k ∈ nonterminals (built start ps) ->
                           is_Some (productions (built start ps) !! k)).
  { intros k Hk. apply Hkeys, Hk. }
  revert Hall. generalize (nonterminals (built start ps)).
  intros l. induction l as [|k l IH]; intros Hall s0; simpl; [eauto|].
  destruct (Hall k (list_elem_of_here k l)) as [q Hq]. rewrite Hq.
  apply IH. intros k' Hk'. apply Hall. right. exact Hk'.
Qed.

(** ** Display *)

Lemma fold_left_rev {A B} (f : B -> A -> B) (l : list A) (i : B) :
  fold_left f (rev l) i = fold_right (fun x y => f y x) i l.
Proof. rewrite <- (rev_involutive l) at 2. symmetry. apply fold_left_rev_right. Qed.

(** The Symbols one after the other, each as [toString] shows it. *)
Lemma toString_loop_fold show options (args : Symbol -> option Z) :
  forall symbols underline str,
    (forall s u, In s symbols ->
       Symbol_toStringWith s show
         (fst (match options with
               | Some 11%Z =>
                   if negb (isTerminal s) && negb u
                   then (Some Symbol_BOLD_UNDERLINE, true)
                   else (Some Symbol_BOLD, u)
               | _ => (options, u)
               end))
       = Symbol_toStringWith s show (args s)) ->
    SymArray_toString_loop symbols show options underline str
    = fold_left (fun acc s => Symbol_toStringWith s show (args s) +:+ acc) symbols str.
Proof.
  induction symbols as [|s symbols IH]; intros underline str Hargs; simpl; [reflexivity|].
  pose proof (Hargs s underline (or_introl eq_refl)) as Hs.
  destruct (match options with
            | Some 11%Z =>
                if negb (isTerminal s) && negb underline
                then (Some Symbol_BOLD_UNDERLINE, true)
                else (Some Symbol_BOLD, underline)
            | _ => (options, underline)
            end) as [a u'] eqn:Hm.
  simpl in Hs. rewrite Hs. apply IH. intros s' u Hin. apply Hargs. right. exact Hin.
Qed.

(** X19: without [showNonterminals] the options do not matter: [toString] gives
    the escaped characters, or epsilon for the empty SymArray. *)
Theorem toString_without_nonterminals (options : option Z) :
  (forall s, Symbol_toStringWith s false options = Symbol_toString s) /\
  (forall a, SymArray_toStringWith a false options = SymArray_toString a) /\
  (forall s, isTerminal s = true ->
             forall show, Symbol_toStringWith s show options = Symbol_toString s).
Proof.
  split; [intros s; reflexivity|]. split.
  - intros a. unfold SymArray_toStringWith, SymArray_toString.
    destruct a as [|x a]; [reflexivity|].
    rewrite (toString_loop_fold false options (fun _ => None)) by (intros; reflexivity).
    rewrite fold_left_rev. reflexivity.
  - intros s Ht show. unfold Symbol_toStringWith. rewrite Ht, andb_false_r. reflexivity.
Qed.

(** X20: with [BOLD_UNDERLINE_LAST], [SymArray.toString] shows the last
    nonterminal of the array as [Symbol.toString] does with
    [BOLD_UNDERLINE], and every other Symbol as with [BOLD], whatever
    [showNonterminals] is.  So with [showNonterminals] true the last
    nonterminal, and only that one, is underlined, and with false nothing
    is: every Symbol is shown as its escaped character. *)
Theorem toString_underlines_last_nonterminal (showNonterminals : bool)
    (pre post : list Symbol) (X : Symbol) :
  isTerminal X = false -> Forall (fun s => isTerminal s = true) post ->
  SymArray_toStringWith (pre ++ X :: post) showNonterminals (Some Symbol_BOLD_UNDERLINE_LAST)
  = fold_right
      (fun s acc => Symbol_toStringWith s showNonterminals (Some Symbol_BOLD) +:+ acc)
      (Symbol_toStringWith X showNonterminals (Some Symbol_BOLD_UNDERLINE)
         +:+ fold_right
               (fun s acc => Symbol_toStringWith s showNonterminals (Some Symbol_BOLD) +:+ acc)
               "" post)
      pre /\
  Symbol_toStringWith X showNonterminals (Some Symbol_BOLD_UNDERLINE)
  = (if showNonterminals
     then "<u><strong>" +:+ escapeHTML (ch X) +:+ "</strong></u>"
     else escapeHTML (ch X)) /\
  (forall s, Symbol_toStringWith s showNonterminals (Some Symbol_BOLD)
             = if showNonterminals && negb (isTerminal s)
               then "<strong>" +:+ escapeHTML (ch s) +:+ "</strong>"
               else escapeHTML (ch s)).
Proof.
  intros HX Hpost. split; [|split].
  2:{ unfold Symbol_toStringWith. rewrite HX. destruct showNonterminals; reflexivity. }
  2:{ intros s. reflexivity. }
  set (show := showNonterminals).
  unfold SymArray_toStringWith.
  destruct (pre ++ X :: post) as [|y l] eqn:Ha; [destruct pre; discriminate|]. rewrite <- Ha.
  clear Ha y l. rewrite rev_app_distr. simpl. rewrite <- app_assoc. simpl.
  assert (Hterm : forall l u str, Forall (fun s => isTerminal s = true) l ->
            forall rest,
              SymArray_toString_loop (l ++ rest) show (Some Symbol_BOLD_UNDERLINE_LAST) u str
              = SymArray_toString_loop rest show (Some Symbol_BOLD_UNDERLINE_LAST) u
                  (fold_left
                     (fun acc s => Symbol_toStringWith s show (Some Symbol_BOLD) +:+ acc) l str)).
  { induction l as [|s l IH]; intros u str Hl rest; simpl; [reflexivity|].
    inversion Hl as [|s' l' Hs Hl']; subst. unfold Symbol_BOLD_UNDERLINE_LAST. simpl.
    rewrite Hs. simpl. apply IH, Hl'. }
  assert (Hafter : forall l str,
            SymArray_toString_loop l show (Some Symbol_BOLD_UNDERLINE_LAST) true str
            = fold_left (fun acc s => Symbol_toStringWith s show (Some Symbol_BOLD) +:+ acc)
                l str).
  { induction l as [|s l IH]; intros str; simpl; [reflexivity|].
    unfold Symbol_BOLD_UNDERLINE_LAST. simpl. rewrite andb_false_r. apply IH. }
  rewrite (Hterm (rev post) false "" ltac:(apply Forall_rev; exact Hpost)).
  simpl. unfold Symbol_BOLD_UNDERLINE_LAST at 1. simpl. rewrite HX. simpl.
  rewrite Hafter, !fold_left_rev. reflexivity.
Qed.

Lemma toString_underlines_last_nonterminal_witness :
  SymArray_toStringWith [Sym "a" true; Sym "S" false; Sym "T" false; Sym "b" true] true
    (Some Symbol_BOLD_UNDERLINE_LAST)
  = "a<strong>S</strong><u><strong>T</strong></u>b" /\
  SymArray_toStringWith [Sym "a" true; Sym "S" false; Sym "T" false; Sym "b" true] false
    (Some Symbol_BOLD_UNDERLINE_LAST)
  = "aSTb".
Proof.
  split.
  - apply (toString_underlines_last_nonterminal true [Sym "a" true; Sym "S" false]
             [Sym "b" true] (Sym "T" false)); [reflexivity | repeat constructor].
  - apply (toString_underlines_last_nonterminal false [Sym "a" true; Sym "S" false]
             [Sym "b" true] (Sym "T" false)); [reflexivity | repeat constructor].
Defined.

(** ** The chart and the items of Earley's algorithm *)

Lemma Symbol_equals_eq a b : Symbol_equals a b = true -> a = b.
Proof.
  intros H. apply Symbol_equals_spec in H. unfold symKey in H.
  destruct a as [|c t], b as [|c' t']; simpl in H; congruence.
Qed.

Lemma make_and_add_new g w l a cur origin pv p b w' :
  Inv g w -> p <= String.length (input w) -> (0 <= cur <= Z.of_nat (length a))%Z ->
  (do next <- new_State l a cur origin pv;
   Context_addState next (Z.of_nat p)) w = Ret b w' ->
  (forall q r, r ∈ states w' !!! q ->
     r ∈ states w !!! q \/
     (q = p /\ r = length (heap w) /\
      lhs (deref (heap w') r) = l /\ symArray (deref (heap w') r) = a /\
      currentPosition (deref (heap w') r) = cur /\ originPosition (deref (heap w') r) = origin /\
      counter (deref (heap w') r) = S (State_counter w))) /\
  hasItem w' p (symKey l, map symKey a, cur, origin) /\
  State_counter w' = S (State_counter w).
Proof.
  intros HI Hp Hcur. unfold bind.
  destruct (new_State_ok g w l a cur origin pv HI Hcur) as (w1 & Hn & Hh1 & Hs1 & HI1).
  rewrite Hn.
  assert (Hd : deref (heap w1) (length (heap w))
               = mkState l a cur origin pv (S (State_counter w))).
  { rewrite Hh1. unfold deref. apply list_lookup_total_middle. reflexivity. }
  assert (Hp1 : p <= String.length (input w1)) by (rewrite (same_input _ _ Hs1); exact Hp).
  assert (Hc1 : State_counter w1 = S (State_counter w)).
  { unfold new_State in Hn. destruct ((cur <? 0) || (cur >? Z.of_nat (length a)))%Z;
      [discriminate|]. injection Hn as <-. reflexivity. }
  rewrite (addState_in_bounds _ p w1 Hp1).
  destruct (Context_getState w1 (length (heap w)) p) as [e|] eqn:Hget.
  - unfold Context_getState in Hget. apply find_some in Hget as [He Heq].
    apply list_elem_of_In in He. apply State_equals_spec in Heq.
    assert (Hev : e < length (heap w1)).
    { apply (inv_valid _ _ HI1), (bucket_elem_inChart w1 p e He). }
    destruct (merge_fold e (prev (deref (heap w1) (length (heap w)))) (heap w1) false Hev)
      as (added & Hf & _).
    rewrite Hf. intros [= <- <-]. cbn [states heap State_counter]. split; [|split].
    + intros q r Hr. left. rewrite <- (same_states _ _ Hs1). exact Hr.
    + exists e. cbn [states heap]. split; [exact He|].
      rewrite item_deref_set_prev, Heq, Hd. reflexivity.
    + exact Hc1.
  - intros [= <- <-]. cbn [states heap State_counter].
    assert (Hlen : p < length (states w1)) by (rewrite (inv_len _ _ HI1); lia).
    split; [|split; [|exact Hc1]].
    + intros q r Hr. destruct (decide (q = p)) as [->|Hne].
      * rewrite list_lookup_total_alter_eq in Hr by exact Hlen.
        apply elem_of_app in Hr as [Hr|Hr].
        -- left. rewrite <- (same_states _ _ Hs1). exact Hr.
        -- apply list_elem_of_singleton in Hr. subst r. right. rewrite Hd. simpl.
           repeat split; reflexivity.
      * left. rewrite list_lookup_total_alter_ne in Hr by congruence.
        rewrite <- (same_states _ _ Hs1). exact Hr.
    + exists (length (heap w)). cbn [states heap]. split.
      * rewrite list_lookup_total_alter_eq by exact Hlen.
        apply elem_of_app. right. apply list_elem_of_singleton. reflexivity.
      * rewrite Hd. reflexivity.
Qed.

Lemma make_and_add_prev g w l a cur origin pv p b w' :
  Inv g w -> p <= String.length (input w) -> (0 <= cur <= Z.of_nat (length a))%Z ->
  (do next <- new_State l a cur origin pv;
   Context_addState next (Z.of_nat p)) w = Ret b w' ->
  forall q r x, r ∈ states w' !!! q -> x ∈ prev (deref (heap w') r) ->
    (r ∈ states w !!! q /\ x ∈ prev (deref (heap w) r)) \/ x ∈ pv.
Proof.
  intros HI Hp Hcur. unfold bind.
  destruct (new_State_ok g w l a cur origin pv HI Hcur) as (w1 & Hn & Hh1 & Hs1 & HI1).
  rewrite Hn.
  assert (Hd : deref (heap w1) (length (heap w))
               = mkState l a cur origin pv (S (State_counter w))).
  { rewrite Hh1. unfold deref. apply list_lookup_total_middle. reflexivity. }
  assert (Hp1 : p <= String.length (input w1)) by (rewrite (same_input _ _ Hs1); exact Hp).
  assert (Hold : forall q r, r ∈ states w !!! q -> deref (heap w1) r = deref (heap w) r).
  { intros q r Hr. apply (same_deref _ _ Hs1), (inv_valid _ _ HI),
      (bucket_elem_inChart w q r Hr). }
  rewrite (addState_in_bounds _ p w1 Hp1).
  destruct (Context_getState w1 (length (heap w)) p) as [e|] eqn:Hget.
  - unfold Context_getState in Hget. apply find_some in Hget as [He _].
    apply list_elem_of_In in He.
    assert (Hev : e < length (heap w1)).
    { apply (inv_valid _ _ HI1), (bucket_elem_inChart w1 p e He). }
    destruct (merge_fold e (prev (deref (heap w1) (length (heap w)))) (heap w1) false Hev)
      as (added & Hf & Hsub & _).
    rewrite Hf. intros [= <- <-]. cbn [states heap]. intros q r x Hr Hx.
    rewrite (same_states _ _ Hs1) in Hr.
    destruct (decide (r = e)) as [->|Hne].
    + rewrite deref_set_prev_eq in Hx by exact Hev. simpl in Hx.
      apply elem_of_app in Hx as [Hx|Hx].
      * left. split; [exact Hr|]. rewrite <- (Hold q e Hr). exact Hx.
      * right. rewrite Hd in Hsub. simpl in Hsub. eapply elem_of_sublist; eassumption.
    + rewrite deref_set_prev_ne in Hx by exact Hne.
      left. split; [exact Hr|]. rewrite <- (Hold q r Hr). exact Hx.
  - intros [= <- <-]. cbn [states heap]. intros q r x Hr Hx.
    assert (Hlen : p < length (states w1)) by (rewrite (inv_len _ _ HI1); lia).
    assert (Hcase : r ∈ states w !!! q \/ r = length (heap w)).
    { destruct (decide (q = p)) as [->|Hne].
      - rewrite list_lookup_total_alter_eq in Hr by exact Hlen.
        apply elem_of_app in Hr as [Hr|Hr].
        + left. rewrite <- (same_states _ _ Hs1). exact Hr.
        + right. apply list_elem_of_singleton in Hr. exact Hr.
      - left. rewrite list_lookup_total_alter_ne in Hr by congruence.
        rewrite <- (same_states _ _ Hs1). exact Hr. }
    destruct Hcase as [Ho| ->].
    + left. split; [exact Ho|]. rewrite <- (Hold q r Ho). exact Hx.
    + right. rewrite Hd in Hx. exact Hx.
Qed.

Lemma PrevOk_grow g w w' (pv : list nat) :
  Inv g w -> ext w w' -> PrevOk g w ->
  (forall q r x, r ∈ states w' !!! q -> x ∈ prev (deref (heap w') r) ->
     (r ∈ states w !!! q /\ x ∈ prev (deref (heap w) r)) \/ x ∈ pv) ->
  (forall x, x ∈ pv ->
     x < length (heap w) /\
     (State_isComplete (deref (heap w) x) = true ->
      lhs (deref (heap w) x) ∈ startSymbol g :: concat (altsOf g))) ->
  PrevOk g w'.
Proof.
  intros HI Hext HP Hprev Hpv q r x Hr Hx Hc.
  assert (Hback : x < length (heap w) ->
            (State_isComplete (deref (heap w) x) = true ->
             lhs (deref (heap w) x) ∈ startSymbol g :: concat (altsOf g)) ->
            lhs (deref (heap w') x) ∈ startSymbol g :: concat (altsOf g)).
  { intros Hv Himp. destruct (ext_fields w w' x Hext Hv) as (H1 & _).
    destruct (ext_getNextSymbol w w' x Hext Hv) as (_ & Hc' & _).
    rewrite H1. apply Himp. rewrite <- Hc'. exact Hc. }
  destruct (Hprev q r x Hr Hx) as [[Ho Hxo]|Hin].
  - apply Hback.
    + apply (inv_valid _ _ HI).
      apply (inv_prev _ _ HI r (bucket_elem_inChart w q r Ho)), Hxo.
    + apply (HP q r x Ho Hxo).
  - destruct (Hpv x Hin) as [Hv Himp]. apply (Hback Hv Himp).
Qed.

Lemma justified_ext g w w' p r :
  ext w w' -> r < length (heap w) -> justified g w p r -> justified g w' p r.
Proof.
  intros Hext Hr. unfold justified.
  destruct (ext_fields w w' r Hext Hr) as (H1 & H2 & H3 & H4 & _).
  rewrite H1, H2, H3, H4, (ext_input _ _ Hext). auto.
Qed.

(** The chart stays sound, and its ids distinct, when the only new States
    are items that are called for, with the next id. *)
Lemma Good_grow g w w' p l a cur origin :
  Inv g w -> ext w w' -> Good g w ->
  (forall q r, r ∈ states w' !!! q ->
     r ∈ states w !!! q \/
     (q = p /\ r = length (heap w) /\
      lhs (deref (heap w') r) = l /\ symArray (deref (heap w') r) = a /\
      currentPosition (deref (heap w') r) = cur /\ originPosition (deref (heap w') r) = origin /\
      counter (deref (heap w') r) = S (State_counter w))) ->
  State_counter w' = S (State_counter w) ->
  earley g (input w) p l a cur origin ->
  PrevOk g w' ->
  Good g w'.
Proof.
  intros HI Hext (HS & [Hle Hinj] & _) Hnew Hc He HP'.
  assert (Hold : forall q r, r ∈ states w !!! q ->
            counter (deref (heap w') r) = counter (deref (heap w) r)).
  { intros q r Hr. apply (ext_fields w w' r Hext).
    apply (inv_valid _ _ HI), (bucket_elem_inChart w q r Hr). }
  split; [|split; [split|exact HP']].
  - intros q r Hr. destruct (Hnew q r Hr) as [Ho|(-> & _ & H1 & H2 & H3 & H4 & _)].
    + apply (justified_ext g w w' q r Hext); [|apply HS, Ho].
      apply (inv_valid _ _ HI), (bucket_elem_inChart w q r Ho).
    + unfold justified. rewrite H1, H2, H3, H4, (ext_input _ _ Hext). exact He.
  - intros q r Hr. rewrite Hc. destruct (Hnew q r Hr) as [Ho|(_ & _ & _ & _ & _ & _ & H5)].
    + rewrite (Hold q r Ho). pose proof (Hle q r Ho). lia.
    + lia.
  - intros q q' r r' Hr Hr' Heq.
    destruct (Hnew q r Hr) as [Ho|(_ & Hr0 & _ & _ & _ & _ & H5)];
      destruct (Hnew q' r' Hr') as [Ho'|(_ & Hr0' & _ & _ & _ & _ & H5')].
    + rewrite (Hold q r Ho), (Hold q' r' Ho') in Heq. apply (Hinj q q' r r' Ho Ho' Heq).
    + rewrite (Hold q r Ho), H5' in Heq. pose proof (Hle q r Ho). lia.
    + rewrite (Hold q' r' Ho'), H5 in Heq. pose proof (Hle q' r' Ho'). lia.
    + congruence.
Qed.

Lemma Frozen_refl i w : Frozen i w w.
Proof. intros q _. reflexivity. Qed.

Lemma Frozen_trans i w1 w2 w3 : Frozen i w1 w2 -> Frozen i w2 w3 -> Frozen i w1 w3.
Proof. intros H1 H2 q Hq. rewrite (H2 q Hq). apply H1, Hq. Qed.

Lemma for_each_tracks {A} g i (P : World -> Prop) (l : list A) (body : A -> M bool)
    (Q : A -> World -> Prop) :
  (forall w w', Inv g w -> P w -> ext w w' -> P w') ->
  (forall x, x ∈ l -> closes g i P (body x) (Q x)) ->
  (forall x, x ∈ l -> tracks g i P (body x)) ->
  tracks g i P (for_each l body).
Proof.
  intros HP. induction l as [|x l IH]; intros Hc Ht w b w' HI HPw HS Hret.
  - simpl in Hret. unfold ret in Hret. injection Hret as <- <-.
    split; [exact HS | apply Frozen_refl].
  - simpl in Hret. unfold bind in Hret.
    pose proof (Hc x (list_elem_of_here x l) w HI HPw) as Hx.
    destruct (body x w) as [b1 w1| |] eqn:Hb; try discriminate.
    destruct Hx as (HI1 & Hs1 & _).
    destruct (Ht x (list_elem_of_here x l) w b1 w1 HI HPw HS Hb) as [HS1 Hf1].
    assert (HP1 : P w1) by (apply (HP w w1 HI HPw), (step_ext _ _ _ _ Hs1)).
    destruct (for_each l body w1) as [b2 w2| |] eqn:Hl; try discriminate.
    unfold ret in Hret. injection Hret as <- <-.
    destruct (IH (fun y Hy => Hc y (list_elem_of_further y x l Hy))
                 (fun y Hy => Ht y (list_elem_of_further y x l Hy))
                 w1 b2 w2 HI1 HP1 HS1 Hl) as [HS2 Hf2].
    split; [exact HS2 | apply (Frozen_trans i w w1 w2 Hf1 Hf2)].
Qed.

Lemma tracks_weaken g i (P P' : World -> Prop) m :
  (forall w, Inv g w -> P' w -> P w) -> tracks g i P m -> tracks g i P' m.
Proof. intros HP Hm w b w' HI HPw. apply Hm; [exact HI | apply HP; assumption]. Qed.

Lemma predict_tracks g i w0 X state alt :
  Inv g w0 -> i <= String.length (input w0) -> inChart w0 state ->
  State_isComplete (deref (heap w0) state) = false ->
  X ∈ lhsU g -> alt ∈ altU g ->
  earley g (input w0) i X alt 0 i ->
  tracks g i (fun w => ext w0 w) (predict X i state alt).
Proof.
  intros HI0 Hi Hst Hnc Hl Ha He w b w' HI Hext HS Hret. unfold predict in Hret.
  assert (Hin : input w = input w0) by apply (ext_input _ _ Hext).
  assert (Hi' : i <= String.length (input w)) by (rewrite Hin; exact Hi).
  destruct (make_and_add_ok g w X alt 0 i state i HI Hi' (ext_inChart w0 w _ Hext Hst) Hl Ha)
    as (b0 & w1 & Hr & HI' & Hext' & _ & Hq & _); [lia | lia |].
  destruct (make_and_add_new g w X alt 0 i [state] i b0 w1 HI Hi' ltac:(lia) Hr)
    as (Hnew & _ & Hcnt).
  rewrite Hr in Hret. injection Hret as <- <-.
  split; [|exact Hq].
  apply (Good_grow g w w1 i X alt 0 i HI Hext' HS Hnew Hcnt); [rewrite Hin; exact He|].
  apply (PrevOk_grow g w w1 [state] HI Hext' (proj2 (proj2 HS))
           (make_and_add_prev g w X alt 0 i [state] i b0 w1 HI Hi' ltac:(lia) Hr)).
  intros x Hx. apply list_elem_of_singleton in Hx. subst x.
  pose proof (inv_valid _ _ HI0 state Hst) as Hv0.
  split; [pose proof (ext_heap _ _ Hext); lia|].
  destruct (ext_getNextSymbol w0 w state Hext Hv0) as (_ & Hc & _).
  rewrite Hc, Hnc. discriminate.
Qed.

Lemma complete_tracks g i w0 state candidate :
  Inv g w0 -> i <= String.length (input w0) -> Good g w0 ->
  state ∈ states w0 !!! i ->
  State_isComplete (deref (heap w0) state) = true ->
  candidate ∈ states w0 !!! originPosition (deref (heap w0) state) ->
  tracks g i (fun w => ext w0 w) (complete i state candidate).
Proof.
  intros HI0 Hi HS0 Hst Hc Hcand w b w' HI Hext HS Hret. unfold complete in Hret.
  assert (Hin : input w = input w0) by apply (ext_input _ _ Hext).
  assert (Hi' : i <= String.length (input w)) by (rewrite Hin; exact Hi).
  pose proof (bucket_elem_inChart w0 i state Hst) as Hsc.
  pose proof (bucket_elem_inChart w0 _ candidate Hcand) as Hcc.
  pose proof (inv_valid _ _ HI0 state Hsc) as Hsv.
  pose proof (inv_valid _ _ HI0 candidate Hcc) as Hcv.
  destruct (ext_fields w0 w state Hext Hsv) as (Hsl & Hsa & Hsp & Hso & _).
  destruct (ext_fields w0 w candidate Hext Hcv) as (Hcl & Hca & Hcp & Hco & _).
  destruct (ext_getNextSymbol w0 w candidate Hext Hcv) as (_ & _ & Hnn).
  pose proof (inv_shape _ _ HI0 i _ state (bucket_total g w0 i HI0 Hi) Hst) as (_ & _ & _ & Ho).
  set (k := originPosition (deref (heap w0) state)) in *.
  assert (Hk : k <= String.length (input w0)) by lia.
  pose proof (inv_shape _ _ HI0 k _ candidate (bucket_total g w0 k HI0 Hk) Hcand) as Hwf.
  destruct (State_hasNonterminalNext (deref (heap w) candidate) (lhs (deref (heap w) state)))
    eqn:Hnext.
  - unfold State_hasNonterminalNext in Hnext.
    destruct (js_index (symArray (deref (heap w) candidate))
                       (currentPosition (deref (heap w) candidate))) as [X|] eqn:HX;
      [|discriminate].
    pose proof (ext_wfState g k w0 w candidate Hext Hcv Hwf) as Hwf'.
    destruct (advance_and_add_ok g w candidate state i k X HI Hi'
                (ext_inChart w0 w _ Hext Hsc) Hwf' Ho HX)
      as (b0 & w1 & Hr & HI' & Hext' & _ & Hq & _).
    pose proof (js_index_Some _ _ _ HX) as Hb.
    assert (Hbnd : (0 <= currentPosition (deref (heap w) candidate) + 1
                    <= Z.of_nat (length (symArray (deref (heap w) candidate))))%Z) by lia.
    destruct (make_and_add_new g w (lhs (deref (heap w) candidate))
                (symArray (deref (heap w) candidate))
                (currentPosition (deref (heap w) candidate) + 1)%Z
                (originPosition (deref (heap w) candidate)) [state] i b0 w1 HI Hi'
                Hbnd Hr) as (Hnew & _ & Hcnt).
    rewrite Hr in Hret. injection Hret as <- <-.
    split; [|exact Hq].
    apply (Good_grow g w w1 i _ _ _ _ HI Hext' HS Hnew Hcnt).
    + rewrite Hcl, Hca, Hcp, Hco, Hin. rewrite Hsl in Hnext. rewrite Hca, Hcp in HX.
      apply (earley_complete g (input w0) i (lhs (deref (heap w0) state))
               (symArray (deref (heap w0) state)) k _ _ _ _ X).
      * pose proof (proj1 HS0 i state Hst) as Hj. unfold justified in Hj.
        unfold State_isComplete in Hc. apply Z.eqb_eq in Hc. rewrite Hc in Hj. exact Hj.
      * apply (proj1 HS0 k candidate Hcand).
      * exact HX.
      * exact Hnext.
    + apply (PrevOk_grow g w w1 [state] HI Hext' (proj2 (proj2 HS))
               (make_and_add_prev g w _ _ _ _ [state] i b0 w1 HI Hi' Hbnd Hr)).
      intros x Hx. apply list_elem_of_singleton in Hx. subst x.
      split; [pose proof (ext_heap _ _ Hext); lia|]. intros _.
      apply Symbol_equals_eq in Hnext. rewrite Hnext.
      destruct Hwf' as (_ & Ha' & _).
      apply (altU_symbols g _ X Ha' (js_index_elem _ _ _ HX)).
  - injection Hret as <- <-. split; [exact HS | apply Frozen_refl].
Qed.

Lemma completion_tracks g i state :
  tracks g i (fun w => i <= String.length (input w) /\ state ∈ states w !!! i)
    (completion i state).
Proof.
  intros w b w' HI [Hi Hst] HS Hret. unfold completion in Hret.
  pose proof (bucket_elem_inChart w i state Hst) as Hsc.
  destruct (State_isComplete (deref (heap w) state)) eqn:Hc.
  - pose proof (inv_shape _ _ HI i _ state (bucket_total g w i HI Hi) Hst) as (_ & _ & _ & Ho).
    assert (Hoi : originPosition (deref (heap w) state) <= String.length (input w)) by lia.
    pose proof (bucket_total g w _ HI Hoi) as Hss. rewrite Hss in Hret.
    set (ss := states w !!! originPosition (deref (heap w) state)) in *.
    refine (for_each_tracks g i (fun w1 => ext w w1) ss (complete i state)
              (fun c w' => inChart w' state /\ inChart w' c /\ completed_by w' i state c)
              _ _ _ w b w' HI (ext_refl w) HS Hret).
    + intros w1 w2 _ H1 H2. apply (ext_trans w w1 w2 H1 H2).
    + intros c Hcs. eapply closes_weaken; [| |apply (complete_closes g i state c)].
      * intros w1 _ Hext. split; [rewrite (ext_input _ _ Hext); exact Hi|].
        split; [apply (ext_inChart w w1 _ Hext Hsc)|].
        pose proof (inChart_bucket w _ ss c Hss Hcs) as Hcc.
        split; [apply (ext_inChart w w1 _ Hext Hcc)|].
        apply (ext_wfState g i w w1 c Hext (inv_valid _ _ HI c Hcc)).
        destruct (inv_shape _ _ HI _ ss c Hss Hcs) as (H1 & H2 & H3 & H4).
        repeat split; try assumption; lia.
      * intros w1 _ Hq. exact Hq.
    + intros c Hcs. apply (complete_tracks g i w state c HI Hi HS Hst Hc Hcs).
  - injection Hret as <- <-. split; [exact HS | apply Frozen_refl].
Qed.

Lemma examine_tracks g i state :
  tracks g i (fun w => i <= String.length (input w) /\ state ∈ states w !!! i)
    (examine g i state).
Proof.
  intros w b w' HI [Hi Hst] HS Hret. unfold examine in Hret.
  pose proof (bucket_elem_inChart w i state Hst) as Hsc.
  destruct (State_getNextSymbol (deref (heap w) state)) as [X|] eqn:HX;
    [|apply (completion_tracks g i state w b w' HI (conj Hi Hst) HS Hret)].
  destruct (isTerminal X) eqn:Ht; simpl in Hret;
    [apply (completion_tracks g i state w b w' HI (conj Hi Hst) HS Hret)|].
  destruct (getNextSymbol_Some _ _ HX) as [Hnc Hidx].
  pose proof (inv_shape _ _ HI i _ state (bucket_total g w i HI Hi) Hst) as (_ & Ha & _ & _).
  pose proof (altU_symbols g _ X Ha (js_index_elem _ _ _ Hidx)) as HXg.
  destruct (productions g !! ch X) as [production|] eqn:Hprod; [|discriminate].
  refine (for_each_tracks g i (fun w1 => ext w w1) (rhs production) (predict X i state)
            (fun alt w' => exists e, e ∈ states w' !!! i /\
                             item (deref (heap w') e) = (symKey X, map symKey alt, 0%Z, i))
            _ _ _ w b w' HI (ext_refl w) HS Hret).
  - intros w1 w2 _ H1 H2. apply (ext_trans w w1 w2 H1 H2).
  - intros alt Halt. eapply closes_weaken; [| |apply (predict_closes g i X state alt)].
    + intros w1 _ Hext. split; [rewrite (ext_input _ _ Hext); exact Hi|].
      apply (ext_inChart w w1 _ Hext Hsc).
    + intros w1 _ Hq. exact Hq.
    + right. exact HXg.
    + right. apply (altsOf_lookup g _ production alt Hprod Halt).
  - intros alt Halt. apply (predict_tracks g i w X state alt HI Hi Hsc Hnc).
    + right. exact HXg.
    + right. apply (altsOf_lookup g _ production alt Hprod Halt).
    + apply (earley_predict g (input w) i _ _ _ _ X production alt (proj1 HS i state Hst)
               Hidx Ht Hprod Halt).
Qed.

Lemma pass_tracks g i :
  tracks g i (fun w => i <= String.length (input w)) (pass g i).
Proof.
  intros w b w' HI Hi HS Hret. unfold pass in Hret.
  set (l := states w !!! i) in *.
  refine (for_each_tracks g i
            (fun w' => i <= String.length (input w') /\ forall x, x ∈ l -> x ∈ states w' !!! i)
            l (examine g i) (fun x w' => closedAt g w' i x)
            _ _ _ w b w' HI (conj Hi (fun x Hx => Hx)) HS Hret).
  - intros w1 w2 HI1 (Hi1 & Hall) Hext. split; [rewrite (ext_input _ _ Hext); exact Hi1|].
    intros x Hx. apply (ext_bucket w1 w2 i x Hext), Hall, Hx.
  - intros x Hx. eapply closes_weaken; [| |apply (examine_closes g i x)].
    + intros w1 _ (Hi1 & Hall). split; [exact Hi1 | apply Hall, Hx].
    + intros w1 _ Hq. exact Hq.
  - intros x Hx. eapply tracks_weaken; [|apply (examine_tracks g i x)].
    intros w1 _ (Hi1 & Hall). split; [exact Hi1 | apply Hall, Hx].
Qed.

Lemma closure_tracks g i :
  forall fuel w u w',
    Inv g w -> i <= String.length (input w) -> Good g w ->
    closure fuel g i w = Ret u w' ->
    Good g w' /\ Frozen i w w'.
Proof.
  induction fuel as [|fuel IH]; intros w u w' HI Hi HS Hret; [discriminate|].
  simpl in Hret. unfold bind in Hret.
  pose proof (pass_closes g i w HI Hi) as Hpass.
  destruct (pass g i w) as [b w1| |] eqn:Hp; try discriminate.
  destruct Hpass as (HI1 & Hs & _).
  destruct (pass_tracks g i w b w1 HI Hi HS Hp) as [HS1 Hf1].
  destruct b.
  - assert (Hi1 : i <= String.length (input w1)).
    { rewrite (ext_input _ _ (step_ext _ _ _ _ Hs)). exact Hi. }
    destruct (IH w1 u w' HI1 Hi1 HS1 Hret) as [HS2 Hf2].
    split; [exact HS2 | apply (Frozen_trans i w w1 w' Hf1 Hf2)].
  - unfold ret in Hret. injection Hret as <- <-. split; assumption.
Qed.

Lemma hasItem_ext g w w' p it : Inv g w -> ext w w' -> hasItem w p it -> hasItem w' p it.
Proof.
  intros HI Hext (e & He & Hit). exists e. split; [apply (ext_bucket w w' p e Hext He)|].
  rewrite (ext_item w w' e Hext); [exact Hit|].
  apply (inv_valid _ _ HI), (bucket_elem_inChart w p e He).
Qed.

Lemma scanned_ext g w w' i state :
  Inv g w -> ext w w' -> inChart w state -> scanned w i state -> scanned w' i state.
Proof.
  intros HI Hext Hst Hsc X HX Ht Hm.
  pose proof (inv_valid _ _ HI state Hst) as Hv.
  destruct (ext_getNextSymbol w w' state Hext Hv) as (Hn & _ & _).
  destruct (ext_fields w w' state Hext Hv) as (H1 & H2 & H3 & H4 & _).
  rewrite Hn in HX. rewrite (ext_input _ _ Hext) in Hm.
  rewrite H1, H2, H3, H4. apply (hasItem_ext g w w' _ _ HI Hext), (Hsc X HX Ht Hm).
Qed.

Lemma scan_tracks g i state w u w' :
  Inv g w -> i <= String.length (input w) -> state ∈ states w !!! i -> Good g w ->
  scan i state w = Ret u w' ->
  Good g w' /\ scanned w' i state.
Proof.
  intros HI Hi Hst HS Hret. unfold scan in Hret.
  pose proof (bucket_elem_inChart w i state Hst) as Hsc.
  destruct (State_getNextSymbol (deref (heap w) state)) as [X|] eqn:HX.
  - destruct (isTerminal X && input_matches (input w) i (ch X)) eqn:Hm.
    + apply andb_true_iff in Hm as [Ht Hm]. pose proof (input_matches_lt _ _ _ Hm) as Hlt.
      destruct (getNextSymbol_Some _ _ HX) as [Hnc Hidx].
      pose proof (inv_shape _ _ HI i _ state (bucket_total g w i HI Hi) Hst) as Hwf.
      destruct (advance_and_add_ok g w state state (i + 1) i X HI ltac:(lia) Hsc Hwf
                  ltac:(lia) Hidx)
        as (b0 & w1 & Hr & HI' & Hext & _ & _ & _).
      pose proof (js_index_Some _ _ _ Hidx) as Hb.
      assert (Hbnd : (0 <= currentPosition (deref (heap w) state) + 1
                      <= Z.of_nat (length (symArray (deref (heap w) state))))%Z) by lia.
      destruct (make_and_add_new g w (lhs (deref (heap w) state))
                  (symArray (deref (heap w) state))
                  (currentPosition (deref (heap w) state) + 1)%Z
                  (originPosition (deref (heap w) state)) [state] (i + 1) b0 w1 HI
                  ltac:(lia) Hbnd Hr) as (Hnew & Hhas & Hcnt).
      pose proof (make_and_add_prev g w _ _ _ _ [state] (i + 1) b0 w1 HI
                    ltac:(lia) Hbnd Hr) as Hprev.
      unfold bind in Hret, Hr.
      destruct (State_getAdvancedState state [state] w) as [next w2| |]; try discriminate.
      rewrite Hr in Hret. unfold ret in Hret. injection Hret as <- <-.
      split.
      * apply (Good_grow g w w1 (i + 1) _ _ _ _ HI Hext HS Hnew Hcnt).
        -- replace (i + 1) with (S i) by lia.
           apply (earley_scan g (input w) i _ _ _ _ X (proj1 HS i state Hst) Hidx Ht Hm).
        -- apply (PrevOk_grow g w w1 [state] HI Hext (proj2 (proj2 HS)) Hprev).
           intros x Hx. apply list_elem_of_singleton in Hx. subst x.
           split; [apply (inv_valid _ _ HI state Hsc)|].
           rewrite Hnc. discriminate.
      * intros X' _ _ _.
        destruct (ext_fields w w1 state Hext (inv_valid _ _ HI state Hsc))
          as (H1 & H2 & H3 & H4 & _).
        rewrite H1, H2, H3, H4. exact Hhas.
    + injection Hret as <- <-. split; [exact HS|].
      intros X' HX' Ht' Hm'. rewrite HX in HX'. injection HX' as <-.
      rewrite Ht', Hm' in Hm. discriminate.
  - injection Hret as <- <-. split; [exact HS|]. intros X' HX'. rewrite HX in HX'. discriminate.
Qed.

Lemma for_states_tracks g i cfuel :
  forall fuel j w u w',
    Inv g w -> i <= String.length (input w) -> closureCap g (input w) < cfuel ->
    Good g w ->
    (forall k state, k < j -> (states w !!! i) !! k = Some state -> scanned w i state) ->
    (0 < j -> closedBucket g w i) ->
    for_states fuel cfuel g i j w = Ret u w' ->
    Inv g w' /\ ext w w' /\ Good g w' /\
    (forall q, q < i -> states w' !! q = states w !! q) /\
    closedBucket g w' i /\
    (forall state, state ∈ states w' !!! i -> scanned w' i state).
Proof.
  induction fuel as [|fuel IH]; intros j w u w' HI Hi Hcf HS Hsc Hcl Hret; [discriminate|].
  simpl in Hret. destruct ((states w !!! i) !! j) as [state|] eqn:Hlook.
  - unfold bind in Hret.
    pose proof (closure_ok g i cfuel w HI Hi ltac:(lia)) as Hc.
    destruct (closure cfuel g i w) as [u1 w1| |] eqn:Hcw; try discriminate.
    destruct Hc as (HI1 & Hext1 & Hcl1).
    destruct (closure_tracks g i cfuel w u1 w1 HI Hi HS Hcw) as [HS1 Hf1].
    assert (Hin1 : input w1 = input w) by apply (ext_input _ _ Hext1).
    assert (Hi1 : i <= String.length (input w1)) by (rewrite Hin1; exact Hi).
    assert (Hst1 : state ∈ states w1 !!! i).
    { apply (ext_bucket w w1 i state Hext1), (list_elem_of_lookup_2 _ j), Hlook. }
    pose proof (scan_ok g i state w1 HI1 Hi1 Hst1) as Hs.
    destruct (scan i state w1) as [u2 w2| |] eqn:Hsw; try discriminate.
    destruct Hs as (HI2 & Hext2 & Hfr2).
    destruct (scan_tracks g i state w1 u2 w2 HI1 Hi1 Hst1 HS1 Hsw) as [HS2 Hsc2].
    pose proof (frozen_closedBucket g w1 w2 i HI1 Hi1 Hext2 Hfr2 Hcl1) as Hcl2.
    assert (Hext : ext w w2) by (eapply ext_trans; eassumption).
    assert (Hin2 : input w2 = input w) by apply (ext_input _ _ Hext).
    destruct (ext_states _ _ Hext i _ (bucket_total g w i HI Hi)) as (b2 & Hb2 & [rest Hpre]).
    destruct (IH (S j) w2 u w' HI2) as (HI' & Hext' & HS' & Hfr' & Hcl' & Hsc');
      try (rewrite ?Hin2; assumption).
    + intros k st Hk Hst. rewrite (bucket_lookup _ _ _ Hb2), Hpre in Hst.
      destruct (decide (k = j)) as [->|Hne].
      * rewrite lookup_app_l in Hst by (apply lookup_lt_Some in Hlook; exact Hlook).
        rewrite Hlook in Hst. injection Hst as <-. exact Hsc2.
      * assert (Hkj : k < j) by lia.
        rewrite lookup_app_l in Hst by (apply lookup_lt_Some in Hlook; lia).
        apply (scanned_ext g w w2 i st HI Hext).
        -- apply (bucket_elem_inChart w i st), (list_elem_of_lookup_2 _ k), Hst.
        -- apply (Hsc k st Hkj Hst).
    + intros _. exact Hcl2.
    + split; [exact HI'|]. split; [eapply ext_trans; eassumption|]. split; [exact HS'|].
      split; [|split; assumption].
      intros q Hq. rewrite (Hfr' q Hq), (Hfr2 q ltac:(lia)). apply Hf1. lia.
  - injection Hret as <- <-. split; [exact HI|]. split; [apply ext_refl|].
    split; [exact HS|]. split; [reflexivity|].
    apply lookup_ge_None in Hlook. split.
    + destruct j as [|j]; [|apply Hcl; lia].
      intros state Hst. destruct (states w !!! i); [inversion Hst | simpl in Hlook; lia].
    + intros state Hst. apply list_elem_of_lookup_1 in Hst as [k Hk].
      apply (Hsc k state); [apply lookup_lt_Some in Hk; lia | exact Hk].
Qed.

Lemma for_range_tracks g fuel :
  forall n from w u w',
    Inv g w -> from + n <= S (String.length (input w)) -> closureCap g (input w) < fuel ->
    Good g w -> doneBefore g w from ->
    for_range n from (fun i => for_states fuel fuel g i 0) w = Ret u w' ->
    Inv g w' /\ ext w w' /\ Good g w' /\ doneBefore g w' (from + n).
Proof.
  induction n as [|n IH]; intros from w u w' HI Hn Hfuel HS Hdone Hret.
  - simpl in Hret. unfold ret in Hret. injection Hret as <- <-.
    rewrite Nat.add_0_r. split; [exact HI|]. split; [apply ext_refl|]. split; assumption.
  - simpl in Hret. unfold bind in Hret.
    destruct (for_states fuel fuel g from 0 w) as [u1 w1| |] eqn:Hfs; try discriminate.
    destruct (for_states_tracks g from fuel fuel 0 w u1 w1 HI ltac:(lia) Hfuel HS)
      as (HI1 & Hext1 & HS1 & Hfr1 & Hcl1 & Hsc1); [intros k st Hk; lia | lia | exact Hfs |].
    assert (Hin1 : input w1 = input w) by apply (ext_input _ _ Hext1).
    destruct (IH (S from) w1 u w' HI1) as (HI' & Hext' & HS' & Hdone');
      try (rewrite ?Hin1; assumption); try (rewrite ?Hin1; lia).
    + intros q Hq. destruct (decide (q = from)) as [->|Hne]; [split; assumption|].
      assert (Hqf : q < from) by lia.
      destruct (Hdone q Hqf) as [Hclq Hscq]. split.
      * apply (frozen_closedBucket g w w1 q HI ltac:(lia) Hext1); [|exact Hclq].
        intros q' Hq'. apply Hfr1. lia.
      * intros state Hst. rewrite list_lookup_total_alt, (Hfr1 q Hqf) in Hst.
        rewrite <- list_lookup_total_alt in Hst.
        apply (scanned_ext g w w1 q state HI Hext1 (bucket_elem_inChart w q state Hst)).
        apply Hscq, Hst.
    + split; [exact HI'|]. split; [eapply ext_trans; eassumption|]. split; [exact HS'|].
      replace (from + S n) with (S from + n) by lia. exact Hdone'.
Qed.

Lemma Good_new_Context g h c inp :
  Good g (mkWorld h c inp (replicate (S (String.length inp)) [])).
Proof.
  assert (Hnone : forall p r,
            ~ r ∈ states (mkWorld h c inp (replicate (S (String.length inp)) [])) !!! p).
  { intros p r Hr. cbn [states] in Hr. rewrite list_lookup_total_alt in Hr.
    destruct (replicate (S (String.length inp)) ([] : list nat) !! p) as [b|] eqn:Hb.
    - apply lookup_replicate in Hb as [-> _]. inversion Hr.
    - inversion Hr. }
  split; [|split; [split|]].
  - intros p r Hr. destruct (Hnone p r Hr).
  - intros p r Hr. destruct (Hnone p r Hr).
  - intros p p' r r' Hr. destruct (Hnone p r Hr).
  - intros p r x Hr. destruct (Hnone p r Hr).
Qed.

(** The chart [doesMatch] builds: it holds only items that are called for,
    every bucket is closed and scanned, and the seed is in the first. *)
Lemma buildChart_full g inp fuel w0 u w' :
  closureCap g inp < fuel -> buildChart fuel g inp w0 = Ret u w' ->
  Inv g w' /\ input w' = inp /\ Good g w' /\ doneBefore g w' (S (String.length inp)) /\
  hasItem w' 0 (symKey START_LHS, [symKey (startSymbol g)], 0%Z, 0).
Proof.
  intros Hfuel Hret.
  pose proof (buildChart_ok g inp fuel w0 Hfuel) as Hok. rewrite Hret in Hok.
  destruct Hok as (HI' & Hin' & _ & r0 & Hr0 & Hcore).
  split; [exact HI'|]. split; [exact Hin'|].
  assert (Hseed : hasItem w' 0 (symKey START_LHS, [symKey (startSymbol g)], 0%Z, 0)).
  { exists r0. split; [apply (list_elem_of_lookup_2 _ 0), Hr0|].
    change (item (deref (heap w') r0)) with (item (core (deref (heap w') r0))).
    rewrite Hcore. reflexivity. }
  cut (Good g w' /\ doneBefore g w' (S (String.length inp))).
  { intros [H1 H2]. auto. }
  clear Hseed Hcore Hr0 r0.
  unfold buildChart, bind, new_Context in Hret.
  set (w1 := mkWorld (heap w0) (State_counter w0) inp (replicate (S (String.length inp)) []))
    in *.
  pose proof (Inv_new_Context g (heap w0) (State_counter w0) inp) as HI1. fold w1 in HI1.
  pose proof (Good_new_Context g (heap w0) (State_counter w0) inp) as HS1. fold w1 in HS1.
  destruct (new_State_ok g w1 START_LHS [startSymbol g] 0 0 [] HI1 ltac:(simpl; lia))
    as (w2 & Hn & Hh2 & Hs2 & HI2).
  rewrite Hn in Hret.
  assert (Hd2 : deref (heap w2) (length (heap w1))
                = mkState START_LHS [startSymbol g] 0 0 [] (S (State_counter w0))).
  { rewrite Hh2. unfold deref. apply list_lookup_total_middle. reflexivity. }
  assert (Hin2 : input w2 = inp) by apply (same_input _ _ Hs2).
  destruct (addState_ok g w2 (length (heap w1)) 0 HI2)
    as (b & w3 & Hr & HI3 & Hext3 & _ & _ & _ & _).
  - lia.
  - rewrite Hh2, length_app. simpl. lia.
  - rewrite Hd2. repeat split; simpl; try lia; [left | left].
  - rewrite Hd2. simpl. constructor.
  - rewrite Hd2. simpl. intros x Hx. inversion Hx.
  - change (Z.of_nat 0) with 0%Z in Hr. rewrite Hr in Hret.
    assert (Hboth : (do next <- new_State START_LHS [startSymbol g] 0 0 [];
                     Context_addState next (Z.of_nat 0)) w1 = Ret b w3).
    { unfold bind. rewrite Hn. exact Hr. }
    destruct (make_and_add_new g w1 START_LHS [startSymbol g] 0%Z 0 [] 0 b w3 HI1
                ltac:(lia) ltac:(simpl; lia) Hboth) as (Hnew & _ & Hcnt).
    assert (Hext13 : ext w1 w3).
    { eapply ext_trans; [apply same_chart_ext; exact Hs2 | exact Hext3]. }
    assert (HP3 : PrevOk g w3).
    { apply (PrevOk_grow g w1 w3 [] HI1 Hext13 (proj2 (proj2 HS1))
               (make_and_add_prev g w1 START_LHS [startSymbol g] 0%Z 0 [] 0 b w3 HI1
                  ltac:(lia) ltac:(simpl; lia) Hboth)).
      intros x Hx. inversion Hx. }
    pose proof (Good_grow g w1 w3 0 _ _ _ _ HI1 Hext13 HS1 Hnew Hcnt (earley_seed g _) HP3)
      as HS3.
    assert (Hin3 : input w3 = inp) by (rewrite (ext_input _ _ Hext3); exact Hin2).
    destruct (for_range_tracks g fuel (S (String.length inp)) 0 w3 u w' HI3)
      as (_ & _ & HS' & Hdone'); try (rewrite ?Hin3; assumption); try (rewrite ?Hin3; lia).
    + intros q Hq. lia.
    + split; [exact HS' | exact Hdone'].
Qed.

(** ** Items and derivations *)

Lemma derives_context g u v a b : derives g a b -> derives g (u ++ a ++ v) (u ++ b ++ v).
Proof.
  unfold derives. induction 1 as [a|a b c Hstep _ IH]; [apply rtc_refl|].
  eapply rtc_l; [|exact IH].
  destruct Hstep as [u' X v' production alt Ht Hprod Halt].
  replace (u ++ (u' ++ X :: v') ++ v) with ((u ++ u') ++ X :: (v' ++ v))
    by (rewrite <- !app_assoc; reflexivity).
  replace (u ++ (u' ++ alt ++ v') ++ v) with ((u ++ u') ++ alt ++ (v' ++ v))
    by (rewrite <- !app_assoc; reflexivity).
  apply (derives_step_intro g _ X _ production alt Ht Hprod Halt).
Qed.

Lemma derives_app g a a' b b' :
  derives g a a' -> derives g b b' -> derives g (a ++ b) (a' ++ b').
Proof.
  intros Ha Hb. unfold derives. transitivity (a' ++ b).
  - pose proof (derives_context g [] b a a' Ha) as H. exact H.
  - pose proof (derives_context g a' [] b b' Hb) as H. rewrite !app_nil_r in H. exact H.
Qed.

Lemma derives_rule g X production alt :
  isTerminal X = false -> productions g !! ch X = Some production -> alt ∈ rhs production ->
  derives g [X] alt.
Proof.
  intros Ht Hprod Halt. eapply rtc_l; [|apply rtc_refl].
  pose proof (derives_step_intro g [] X [] production alt Ht Hprod Halt) as H.
  rewrite app_nil_r in H. exact H.
Qed.

Lemma string_get_chars inp i : String.get i inp = list_ascii_of_string inp !! i.
Proof.
  revert i. induction inp as [|c inp IH]; intros [|i]; simpl; try reflexivity. apply IH.
Qed.

Lemma length_chars inp : length (list_ascii_of_string inp) = String.length inp.
Proof. induction inp as [|c inp IH]; simpl; [reflexivity | rewrite IH; reflexivity]. Qed.

(** What [input[i] === nextSymbol.ch] tells about a terminal Symbol. *)
Lemma input_matches_terminal inp i X :
  isTerminal X = true -> input_matches inp i (ch X) = true ->
  exists c, X = Sym c true /\ list_ascii_of_string inp !! i = Some c.
Proof.
  unfold input_matches. rewrite string_get_chars. intros Ht Hm.
  destruct (list_ascii_of_string inp !! i) as [c|]; [|discriminate].
  apply String.eqb_eq in Hm. destruct X as [|c' t]; simpl in *; [discriminate|].
  injection Hm as <-. subst t. eauto.
Qed.

Lemma js_index_nat {A} (a : list A) (d : nat) : js_index a (Z.of_nat d) = a !! d.
Proof.
  unfold js_index. replace (Z.of_nat d <? 0)%Z with false by (symmetry; apply Z.ltb_ge; lia).
  rewrite Nat2Z.id. reflexivity.
Qed.

Lemma js_index_take {A} (a : list A) (d : Z) (X : A) :
  js_index a d = Some X -> take (Z.to_nat (d + 1)) a = take (Z.to_nat d) a ++ [X].
Proof.
  intros H. pose proof (js_index_Some _ _ _ H) as Hb. unfold js_index in H.
  replace (d <? 0)%Z with false in H by (symmetry; apply Z.ltb_ge; lia).
  replace (Z.to_nat (d + 1)) with (S (Z.to_nat d)) by lia.
  apply take_S_r. exact H.
Qed.

(** The piece of the input between two indices. *)
Lemma segment_app {A} (cs : list A) o k i :
  o <= k -> k <= i ->
  take (k - o) (drop o cs) ++ take (i - k) (drop k cs) = take (i - o) (drop o cs).
Proof.
  intros Hok Hki. replace (i - o) with ((k - o) + (i - k)) by lia.
  rewrite <- take_take_drop, drop_drop. replace (o + (k - o)) with k by lia. reflexivity.
Qed.

Lemma segment_snoc {A} (cs : list A) o i c :
  o <= i -> cs !! i = Some c ->
  take (S i - o) (drop o cs) = take (i - o) (drop o cs) ++ [c].
Proof.
  intros Hoi Hc. replace (S i - o) with (S (i - o)) by lia.
  apply take_S_r. rewrite lookup_drop. replace (o + (i - o)) with i by lia. exact Hc.
Qed.

(** The Symbols of the grammar: not the parser's own [State.START_LHS]. *)
Lemma earley_derives g inp :
  START_LHS ∉ startSymbol g :: concat (altsOf g) ->
  forall i l a d o, earley g inp i l a d o ->
    o <= i /\ i <= String.length inp /\ (0 <= d <= Z.of_nat (length a))%Z /\
    ((l = START_LHS /\ a = [startSymbol g] /\ o = 0) \/
     (l <> START_LHS /\ isTerminal l = false /\
      exists production, productions g !! ch l = Some production /\ a ∈ rhs production)) /\
    derives g (take (Z.to_nat d) a)
            (map (fun c => Sym c true) (take (i - o) (drop o (list_ascii_of_string inp)))).
Proof.
  intros Hstart.
  assert (Hsym : forall l a X,
            (l = START_LHS /\ a = [startSymbol g] \/
             exists production, productions g !! ch l = Some production /\ a ∈ rhs production) ->
            X ∈ a -> X <> START_LHS).
  { intros l a X Ha HX ->. apply Hstart.
    destruct Ha as [[_ ->]|(production & Hprod & Ha)].
    - apply list_elem_of_singleton in HX. rewrite <- HX. left.
    - right. apply list_elem_of_In, in_concat. exists a.
      split; [apply list_elem_of_In, (altsOf_lookup g _ production a Hprod Ha)
             | apply list_elem_of_In; exact HX]. }
  induction 1 as [|i l a d o X production alt _ IH HX Ht Hprod Halt
                  |i l a d o X _ IH HX Ht Hm
                  |i l a k l' a' d' o X _ IH1 _ IH2 HX Heq].
  - simpl. split; [lia|]. split; [lia|]. split; [lia|]. split; [left; auto | apply rtc_refl].
  - destruct IH as (Hoi & Hin & Hd & Hrule & Hder).
    split; [lia|]. split; [exact Hin|]. split; [lia|]. split.
    + right. split; [|split; [exact Ht | eauto]].
      apply (Hsym l a X); [|apply (js_index_elem _ _ _ HX)].
      destruct Hrule as [(H1 & H2 & _)|(_ & _ & H)]; [left; auto | right; exact H].
    + rewrite Nat.sub_diag. simpl. apply rtc_refl.
  - destruct IH as (Hoi & Hin & Hd & Hrule & Hder).
    pose proof (input_matches_lt _ _ _ Hm) as Hlt.
    destruct (input_matches_terminal inp i X Ht Hm) as (c & -> & Hc).
    pose proof (js_index_Some _ _ _ HX) as Hb.
    split; [lia|]. split; [lia|]. split; [lia|]. split; [exact Hrule|].
    rewrite (js_index_take _ _ _ HX), (segment_snoc _ o i c Hoi Hc), map_app.
    apply derives_app; [exact Hder | apply rtc_refl].
  - destruct IH1 as (Hki & Hin & _ & Hrule1 & Hder1).
    destruct IH2 as (Hok & _ & Hd' & Hrule2 & Hder2).
    pose proof (js_index_Some _ _ _ HX) as Hb.
    apply Symbol_equals_eq in Heq. subst X.
    split; [lia|]. split; [exact Hin|]. split; [lia|]. split; [exact Hrule2|].
    rewrite (js_index_take _ _ _ HX), <- (segment_app _ o k i Hok Hki), map_app.
    apply derives_app; [exact Hder2|].
    rewrite Nat2Z.id, firstn_all in Hder1.
    destruct Hrule1 as [(-> & _ & _)|(_ & Ht & production & Hprod & Ha)].
    + exfalso. apply (Hsym l' a' START_LHS); [|apply (js_index_elem _ _ _ HX) | reflexivity].
      destruct Hrule2 as [(H1 & H2 & _)|(_ & _ & H)]; [left; auto | right; exact H].
    + unfold derives. transitivity a; [|exact Hder1].
      apply (derives_rule g l production a Ht Hprod Ha).
Qed.

Lemma sentence_all inp :
  map (fun c => Sym c true)
      (take (String.length inp - 0) (drop 0 (list_ascii_of_string inp))) = sentence inp.
Proof.
  unfold sentence. rewrite Nat.sub_0_r, drop_0, <- length_chars, firstn_all. reflexivity.
Qed.

Lemma match_derives (g : Grammar) (inp : string) (w0 w' : World) (path : list ref) :
  START_LHS ∉ startSymbol g :: concat (altsOf g) ->
  doesMatch g inp w0 = Ret (Some path) w' ->
  derives g [startSymbol g] (sentence inp).
Proof.
  intros Hstart Hrun. unfold doesMatch, doesMatchFuel, bind in Hrun.
  destruct (buildChart (fuelBound g inp) g inp w0) as [u w| |] eqn:Hb; try discriminate.
  destruct (buildChart_full g inp _ w0 u w (fuelBound_enough g inp) Hb)
    as (HI & Hin & (HS & _) & _ & _).
  unfold finish in Hrun. destruct (findCompleteParse w) as [mtch|] eqn:Hf; [|discriminate].
  unfold findCompleteParse in Hf. apply find_some in Hf as [Hm Hparse].
  apply list_elem_of_In in Hm. pose proof (HS _ mtch Hm) as Hj. unfold justified in Hj.
  rewrite Hin in Hj.
  unfold State_isCompleteParse, State_hasStart, State_isComplete in Hparse.
  apply andb_true_iff in Hparse as [Hl Hc]. apply Z.eqb_eq in Hc.
  destruct (lhs (deref (heap w) mtch)) eqn:Hlhs; [|discriminate].
  destruct (earley_derives g inp Hstart _ _ _ _ _ Hj) as (_ & _ & _ & Hrule & Hder).
  destruct Hrule as [(_ & Ha & Ho)|(Hne & _)]; [|congruence].
  rewrite Hc, Ha, Ho in Hder. simpl in Hder. rewrite sentence_all in Hder. exact Hder.
Qed.

(** X1: a match is a sentence of the grammar. *)
Theorem doesMatch_sound (g : Grammar) (inp : string) (w0 w' : World) (path : list ref) :
  START_LHS ∉ startSymbol g :: concat (altsOf g) ->
  doesMatch g inp w0 = Ret (Some path) w' ->
  derives g [startSymbol g] (sentence inp).
Proof. exact (match_derives g inp w0 w' path). Qed.

Lemma symKey_inj a b : symKey a = symKey b -> a = b.
Proof. destruct a as [|c t], b as [|c' t']; unfold symKey; simpl; congruence. Qed.

Lemma map_symKey_inj a b : map symKey a = map symKey b -> a = b.
Proof.
  revert b. induction a as [|x a IH]; intros [|y b]; simpl; try discriminate; [reflexivity|].
  intros H. pose proof (f_equal (fun t => hd_error t) H) as Hx. simpl in Hx.
  pose proof (f_equal (fun t => tl t) H) as Hab. simpl in Hab.
  assert (Hk : symKey x = symKey y) by congruence.
  rewrite (symKey_inj _ _ Hk), (IH b Hab). reflexivity.
Qed.

Lemma item_fields s l a d o :
  item s = (symKey l, map symKey a, d, o) ->
  lhs s = l /\ symArray s = a /\ currentPosition s = d /\ originPosition s = o.
Proof.
  intros H.
  pose proof (f_equal (fun t => fst (fst (fst t))) H) as H1.
  pose proof (f_equal (fun t => snd (fst (fst t))) H) as H2.
  pose proof (f_equal (fun t => snd (fst t)) H) as H3.
  pose proof (f_equal (fun t => snd t) H) as H4.
  cbn [item fst snd] in H1, H2, H3, H4.
  split; [apply symKey_inj; exact H1|]. split; [apply map_symKey_inj; exact H2|]. auto.
Qed.

Lemma earley_bounds g inp i l a d o :
  earley g inp i l a d o -> i <= String.length inp /\ (0 <= d <= Z.of_nat (length a))%Z.
Proof.
  induction 1 as [|i l a d o X production alt _ IH HX Ht Hprod Halt
                  |i l a d o X _ IH HX Ht Hm
                  |i l a k l' a' d' o X _ IH1 _ IH2 HX Heq]; simpl.
  - lia.
  - lia.
  - pose proof (input_matches_lt _ _ _ Hm). pose proof (js_index_Some _ _ _ HX). lia.
  - pose proof (js_index_Some _ _ _ HX). lia.
Qed.

(** Every item that is called for is in a chart that is closed and scanned
    throughout. *)
Lemma chart_complete g w :
  doneBefore g w (S (String.length (input w))) ->
  hasItem w 0 (symKey START_LHS, [symKey (startSymbol g)], 0%Z, 0) ->
  forall i l a d o, earley g (input w) i l a d o ->
                    hasItem w i (symKey l, map symKey a, d, o).
Proof.
  intros Hdone Hseed.
  induction 1 as [|i l a d o X production alt He IH HX Ht Hprod Halt
                  |i l a d o X He IH HX Ht Hm
                  |i l a k l' a' d' o X He1 IH1 He2 IH2 HX Heq].
  - exact Hseed.
  - destruct IH as (e & Hin & Hit). apply item_fields in Hit as (H1 & H2 & H3 & H4).
    destruct (earley_bounds _ _ _ _ _ _ _ He) as [Hi _].
    destruct (Hdone i ltac:(lia)) as [Hcl _]. destruct (Hcl e Hin) as [Hpred _].
    apply (Hpred X production alt); try assumption.
    unfold State_getNextSymbol, State_isComplete. rewrite H2, H3.
    pose proof (js_index_Some _ _ _ HX) as Hb.
    replace (d =? Z.of_nat (length a))%Z with false by (symmetry; apply Z.eqb_neq; lia).
    exact HX.
  - destruct IH as (e & Hin & Hit). apply item_fields in Hit as (H1 & H2 & H3 & H4).
    destruct (earley_bounds _ _ _ _ _ _ _ He) as [Hi _].
    destruct (Hdone i ltac:(lia)) as [_ Hsc].
    pose proof (Hsc e Hin X) as Hs. rewrite H1, H2, H3, H4 in Hs.
    replace (S i) with (i + 1) by lia. apply Hs; try assumption.
    unfold State_getNextSymbol, State_isComplete. rewrite H2, H3.
    pose proof (js_index_Some _ _ _ HX) as Hb.
    replace (d =? Z.of_nat (length a))%Z with false by (symmetry; apply Z.eqb_neq; lia).
    exact HX.
  - destruct IH1 as (e & Hin & Hit). apply item_fields in Hit as (H1 & H2 & H3 & H4).
    destruct IH2 as (c & Hcin & Hcit). apply item_fields in Hcit as (C1 & C2 & C3 & C4).
    destruct (earley_bounds _ _ _ _ _ _ _ He1) as [Hi _].
    destruct (Hdone i ltac:(lia)) as [Hcl _]. destruct (Hcl e Hin) as [_ Hcomp].
    pose proof (Hcomp) as Hc. unfold completed, completed_by in Hc.
    rewrite H4 in Hc. specialize (Hc ltac:(unfold State_isComplete; rewrite H2, H3;
                                            apply Z.eqb_refl) c Hcin).
    rewrite C1, C2, C3, C4 in Hc. apply Hc.
    unfold State_hasNonterminalNext. rewrite C2, C3, HX, H1. exact Heq.
Qed.

Lemma generates_sentence g w : generates g (map (fun c => Sym c true) w) w.
Proof. induction w as [|c w IH]; simpl; constructor; exact IH. Qed.

Lemma generates_app g a b wa wb :
  generates g a wa -> generates g b wb -> generates g (a ++ b) (wa ++ wb).
Proof.
  intros Ha Hb. induction Ha as [|c a w _ IH|X production alt a w1 w2 Ht Hprod Halt H1 _ _ IH];
    simpl.
  - exact Hb.
  - constructor. exact IH.
  - rewrite <- app_assoc.
    apply (generates_nonterminal g X production alt _ _ _ Ht Hprod Halt H1 IH).
Qed.

Lemma generates_split g a b :
  forall w, generates g (a ++ b) w ->
            exists wa wb, w = wa ++ wb /\ generates g a wa /\ generates g b wb.
Proof.
  induction a as [|X a IH]; intros w H; simpl in H.
  - exists [], w. split; [reflexivity|]. split; [constructor | exact H].
  - inversion H as [|c a0 w0 H0|X0 production alt a0 w1 w2 Ht Hprod Halt H1 H2]; subst.
    + destruct (IH w0 H0) as (wa & wb & -> & Ha & Hb).
      exists (c :: wa), wb. split; [reflexivity|]. split; [constructor; exact Ha | exact Hb].
    + destruct (IH w2 H2) as (wa & wb & -> & Ha & Hb).
      exists (w1 ++ wa), wb. split; [apply app_assoc|].
      split; [|exact Hb].
      apply (generates_nonterminal g X production alt _ _ _ Ht Hprod Halt H1 Ha).
Qed.

Lemma generates_step g a b w : derives_step g a b -> generates g b w -> generates g a w.
Proof.
  intros [u X v production alt Ht Hprod Halt] H.
  apply generates_split in H as (wu & w' & -> & Hu & H).
  apply generates_split in H as (walt & wv & -> & Halt' & Hv).
  apply (generates_app g u _ wu _ Hu).
  apply (generates_nonterminal g X production alt _ _ _ Ht Hprod Halt Halt' Hv).
Qed.

Lemma derives_generates g a w :
  derives g a (map (fun c => Sym c true) w) -> generates g a w.
Proof.
  unfold derives. intros H. remember (map (fun c => Sym c true) w) as t eqn:Ht.
  induction H as [a|a b c Hstep _ IH]; subst.
  - apply generates_sentence.
  - apply (generates_step g a b w Hstep), IH. reflexivity.
Qed.

Lemma take_app_eq {A} (l w1 w2 : list A) :
  take (length (w1 ++ w2)) l = w1 ++ w2 ->
  take (length w1) l = w1 /\ take (length w2) (drop (length w1) l) = w2.
Proof.
  rewrite length_app, <- take_take_drop. intros H.
  apply app_inj_1 in H; [exact H|].
  assert (Hlen : length w1 + length w2 <= length l).
  { apply (f_equal length) in H. rewrite !length_app, !length_take, length_drop in H. lia. }
  rewrite length_take. lia.
Qed.

Lemma drop_cons_inv {A} (l : list A) d x rest :
  drop d l = x :: rest -> l !! d = Some x /\ drop (S d) l = rest.
Proof.
  intros H. split.
  - pose proof (lookup_drop l d 0) as Hl. rewrite Nat.add_0_r, H in Hl. simpl in Hl.
    symmetry. exact Hl.
  - replace (S d) with (d + 1) by lia. rewrite <- drop_drop, H. reflexivity.
Qed.

(** The dot moves over what the rest of a rule generates. *)
Lemma earley_generates g inp :
  forall r w, generates g r w ->
  forall k l a d o more,
    earley g inp k l a (Z.of_nat d) o ->
    drop d a = r ++ more ->
    take (length w) (drop k (list_ascii_of_string inp)) = w ->
    earley g inp (k + length w) l a (Z.of_nat (d + length r)) o.
Proof.
  induction 1 as [|c a0 w0 _ IH|X production alt a0 w1 w2 Ht Hprod Halt _ IHalt _ IHrest];
    intros k l a d o more He Hdrop Htake.
  - simpl. rewrite !Nat.add_0_r. exact He.
  - simpl in Hdrop, Htake. apply drop_cons_inv in Hdrop as [Hd Hdrop].
    destruct (drop k (list_ascii_of_string inp)) as [|c' rest] eqn:Hk; [discriminate|].
    simpl in Htake. injection Htake as -> Htake.
    apply drop_cons_inv in Hk as [Hc Hk]. subst rest.
    assert (Hscan : earley g inp (S k) l a (Z.of_nat (S d)) o).
    { replace (Z.of_nat (S d)) with (Z.of_nat d + 1)%Z by lia.
      apply (earley_scan g inp k l a _ o (Sym c true) He).
      - rewrite js_index_nat. exact Hd.
      - reflexivity.
      - unfold input_matches. rewrite string_get_chars, Hc. apply String.eqb_refl. }
    specialize (IH (S k) l a (S d) o more Hscan Hdrop Htake). simpl.
    replace (k + S (length w0)) with (S k + length w0) by lia.
    replace (d + S (length a0)) with (S d + length a0) by lia. exact IH.
  - simpl in Hdrop. apply drop_cons_inv in Hdrop as [Hd Hdrop].
    apply take_app_eq in Htake as [Htake1 Htake2]. rewrite drop_drop in Htake2.
    assert (Hidx : js_index a (Z.of_nat d) = Some X) by (rewrite js_index_nat; exact Hd).
    pose proof (earley_predict g inp k l a _ o X production alt He Hidx Ht Hprod Halt) as Hp.
    specialize (IHalt k X alt 0 k [] Hp ltac:(rewrite app_nil_r; reflexivity) Htake1).
    simpl in IHalt.
    assert (Hcomp : earley g inp (k + length w1) l a (Z.of_nat (S d)) o).
    { replace (Z.of_nat (S d)) with (Z.of_nat d + 1)%Z by lia.
      apply (earley_complete g inp _ X alt k l a _ o X IHalt He Hidx).
      apply Symbol_equals_spec. reflexivity. }
    specialize (IHrest (k + length w1) l a (S d) o more Hcomp Hdrop Htake2).
    rewrite length_app. simpl.
    replace (k + (length w1 + length w2)) with (k + length w1 + length w2) by lia.
    replace (d + S (length a0)) with (S d + length a0) by lia. exact IHrest.
Qed.

Lemma sentence_matches (g : Grammar) (inp : string) (w0 : World) :
  allDefined g -> derives g [startSymbol g] (sentence inp) ->
  exists path w', doesMatch g inp w0 = Ret (Some path) w'.
Proof.
  intros Hdef Hder. unfold doesMatch, doesMatchFuel, bind.
  pose proof (buildChart_ok g inp _ w0 (fuelBound_enough g inp)) as Hb.
  destruct (buildChart (fuelBound g inp) g inp w0) as [u w| |] eqn:Hrun;
    [|destruct (Hb Hdef)|destruct Hb].
  destruct (buildChart_full g inp _ w0 u w (fuelBound_enough g inp) Hrun)
    as (HI & Hin & _ & Hdone & Hseed).
  apply derives_generates in Hder.
  pose proof (earley_generates g inp _ _ Hder 0 START_LHS [startSymbol g] 0 0 []
                (earley_seed g inp) eq_refl) as He.
  rewrite drop_0, firstn_all in He. specialize (He eq_refl).
  rewrite length_chars in He. simpl in He.
  rewrite <- Hin in Hdone, He.
  destruct (chart_complete g w Hdone Hseed _ _ _ _ _ He) as (e & Hein & Hit).
  apply item_fields in Hit as (H1 & H2 & H3 & H4).
  assert (Hparse : State_isCompleteParse (deref (heap w) e) = true).
  { unfold State_isCompleteParse, State_hasStart, State_isComplete.
    rewrite H1, H2, H3. reflexivity. }
  destruct (findCompleteParse_Some w e Hein Hparse) as (mtch & Hfind & _).
  unfold finish. rewrite Hfind. eauto.
Qed.

(** X2: every sentence of the grammar is matched, when every nonterminal has a
    Production. *)
Theorem doesMatch_complete (g : Grammar) (inp : string) (w0 : World) :
  allDefined g -> derives g [startSymbol g] (sentence inp) ->
  exists path w', doesMatch g inp w0 = Ret (Some path) w'.
Proof. exact (sentence_matches g inp w0). Qed.

Lemma doesMatch_chart g inp w0 result w' :
  doesMatch g inp w0 = Ret result w' ->
  Inv g w' /\ input w' = inp /\ Good g w' /\ doneBefore g w' (S (String.length inp)) /\
  hasItem w' 0 (symKey START_LHS, [symKey (startSymbol g)], 0%Z, 0).
Proof.
  intros Hrun. unfold doesMatch, doesMatchFuel, bind in Hrun.
  destruct (buildChart (fuelBound g inp) g inp w0) as [u w| |] eqn:Hb; try discriminate.
  destruct (finish_returns inp w) as [r Hr]. rewrite Hr in Hrun. injection Hrun as _ <-.
  apply (buildChart_full g inp _ w0 u w (fuelBound_enough g inp) Hb).
Qed.

(** X3: the chart [doesMatch] leaves holds exactly the items of Earley's
    algorithm: a State for every item the rules call for, and no other. *)
Theorem chart_is_earley (g : Grammar) (inp : string) (w0 w' : World)
    (result : option (list ref)) :
  doesMatch g inp w0 = Ret result w' ->
  forall i l a d o,
    earley g inp i l a d o <->
    exists r, r ∈ states w' !!! i /\
              lhs (deref (heap w') r) = l /\ symArray (deref (heap w') r) = a /\
              currentPosition (deref (heap w') r) = d /\
              originPosition (deref (heap w') r) = o.
Proof.
  intros Hrun.
  destruct (doesMatch_chart g inp w0 result w' Hrun) as (HI & Hin & (HS & _) & Hdone & Hseed).
  intros i l a d o. split.
  - intros He. rewrite <- Hin in He, Hdone.
    destruct (chart_complete g w' Hdone Hseed i l a d o He) as (r & Hr & Hit).
    exists r. split; [exact Hr|]. apply item_fields, Hit.
  - intros (r & Hr & <- & <- & <- & <-). rewrite <- Hin. apply (HS i r Hr).
Qed.

Lemma chart_is_earley_witness :
  earley grammar_0XX "0" 1 (Sym "S" false) [Sym "0" true; Sym "X" false; Sym "X" false] 3 0 <->
  exists r, r ∈ states (chart_of grammar_0XX "0") !!! 1 /\
            lhs (deref (heap (chart_of grammar_0XX "0")) r) = Sym "S" false /\
            symArray (deref (heap (chart_of grammar_0XX "0")) r)
              = [Sym "0" true; Sym "X" false; Sym "X" false] /\
            currentPosition (deref (heap (chart_of grammar_0XX "0")) r) = 3%Z /\
            originPosition (deref (heap (chart_of grammar_0XX "0")) r) = 0.
Proof.
  apply (chart_is_earley grammar_0XX "0" empty_world (chart_of grammar_0XX "0")
           (Some [22; 13; 5; 9; 5])).
  apply (doesMatch_Ret _ _ _ 20); [lia | vm_compute; reflexivity].
Defined.

(** X4: as long as [State.counter] has not gone beyond 2^53, up to where the
    doubles of the source count exactly, every State of a chart has an id of
    its own, so [prevArraysEqual], which compares ids, tells whether two
    [prev] arrays hold the same State objects in the same order. *)
Theorem chart_ids_identify (g : Grammar) (inp : string) (w0 w' : World)
    (result : option (list ref)) :
  doesMatch g inp w0 = Ret result w' ->
  (Z.of_nat (State_counter w') <= 2 ^ 53)%Z ->
  (forall (p p' : nat) r r', r ∈ states w' !!! p -> r' ∈ states w' !!! p' ->
     counter (deref (heap w') r) = counter (deref (heap w') r') -> r = r') /\
  (forall (p p' : nat) r r', r ∈ states w' !!! p -> r' ∈ states w' !!! p' ->
     (prevArraysEqual (heap w') (deref (heap w') r) (deref (heap w') r') = true <->
      prev (deref (heap w') r) = prev (deref (heap w') r'))).
Proof.
  intros Hrun _.
  destruct (doesMatch_chart g inp w0 result w' Hrun) as (HI & _ & (_ & [_ Hinj] & _) & _ & _).
  split; [exact Hinj|].
  intros p p' r r' Hr Hr'. unfold prevArraysEqual. rewrite prevArraysEqual_loop_spec.
  split; [|intros ->; reflexivity].
  destruct (inv_prev _ _ HI r (bucket_elem_inChart w' p r Hr)) as [_ Hin].
  destruct (inv_prev _ _ HI r' (bucket_elem_inChart w' p' r' Hr')) as [_ Hin'].
  revert Hin Hin'. generalize (prev (deref (heap w') r)) (prev (deref (heap w') r')).
  intros l1. induction l1 as [|x l1 IH]; intros [|y l2] H1 H2 Heq; simpl in Heq;
    try discriminate; [reflexivity|].
  injection Heq as Hxy Hrest.
  assert (Hx : inChart w' x) by (apply H1; left).
  assert (Hy : inChart w' y) by (apply H2; left).
  apply elem_of_concat in Hx as (q & b & Hb & Hx).
  apply elem_of_concat in Hy as (q' & b' & Hb' & Hy).
  rewrite <- (bucket_lookup _ _ _ Hb) in Hx. rewrite <- (bucket_lookup _ _ _ Hb') in Hy.
  rewrite (Hinj q q' x y Hx Hy Hxy). f_equal.
  apply IH; [| |exact Hrest]; intros z Hz; [apply H1 | apply H2]; right; exact Hz.
Qed.

Lemma chart_ids_identify_witness :
  prevArraysEqual (heap (chart_of grammar_0XX "0"))
    (deref (heap (chart_of grammar_0XX "0")) 4)
    (deref (heap (chart_of grammar_0XX "0")) 5) = true <->
  prev (deref (heap (chart_of grammar_0XX "0")) 4)
    = prev (deref (heap (chart_of grammar_0XX "0")) 5).
Proof.
  destruct (chart_ids_identify grammar_0XX "0" empty_world (chart_of grammar_0XX "0")
              (Some [22; 13; 5; 9; 5])) as [_ H].
  - apply (doesMatch_Ret _ _ _ 20); [lia | vm_compute; reflexivity].
  - apply Z.leb_le. vm_compute. reflexivity.
  - apply (H 1 1 4 5); vm_compute; repeat constructor.
Defined.

Lemma doesMatch_sound_witness :
  derives grammar_0XX [startSymbol grammar_0XX] (sentence "01").
Proof.
  apply (doesMatch_sound grammar_0XX "01" empty_world (chart_of grammar_0XX "01")
           [72; 67; 70; 66; 44]).
  - rewrite list_elem_of_In. vm_compute. intuition discriminate.
  - apply (doesMatch_Ret _ _ _ 20); [lia | vm_compute; reflexivity].
Defined.

Lemma doesMatch_complete_witness :
  exists path w', doesMatch grammar_palindrome "101" empty_world = Ret (Some path) w'.
Proof.
  apply (doesMatch_complete grammar_palindrome "101" empty_world).
  - apply allDefinedb_spec. vm_compute. reflexivity.
  - set (production := mkProduction (Sym "S" false)
                [[Sym "0" true; Sym "S" false; Sym "0" true];
                 [Sym "1" true; Sym "S" false; Sym "1" true];
                 [Sym "0" true]; [Sym "1" true]; []]).
    eapply rtc_l.
    + apply (derives_step_intro grammar_palindrome [] (Sym "S" false) [] production
               [Sym "1" true; Sym "S" false; Sym "1" true]);
        [reflexivity | vm_compute; reflexivity | repeat constructor].
    + eapply rtc_l; [|apply rtc_refl].
      apply (derives_step_intro grammar_palindrome [Sym "1" true] (Sym "S" false)
               [Sym "1" true] production [Sym "0" true]);
        [reflexivity | vm_compute; reflexivity | repeat constructor].
Defined.

(** ** The search for a derivation: what it returns *)

Lemma last_lookup_default {A} (l : list A) (d : A) :
  l <> [] -> l !! (length l - 1) = Some (List.last l d).
Proof.
  induction l as [|x l IH]; intros Hne; [congruence|].
  destruct l as [|y l]; [reflexivity|].
  simpl length. replace (S (S (length l)) - 1) with (S (length (y :: l) - 1))
    by (simpl; lia).
  change (List.last (x :: y :: l) d) with (List.last (y :: l) d).
  apply IH. discriminate.
Qed.

Lemma chained_snoc h sts y :
  sts <> [] -> chained h sts -> y ∈ prev (deref h (List.last sts 0)) ->
  chained h (sts ++ [y]).
Proof.
  intros Hne Hc Hy k a b Ha Hb.
  pose proof (lookup_lt_Some _ _ _ Hb) as Hlt. rewrite length_app in Hlt. simpl in Hlt.
  rewrite lookup_app_l in Ha by lia.
  destruct (decide (S k < length sts)) as [Hin|Hout].
  - rewrite lookup_app_l in Hb by exact Hin. apply (Hc k a b Ha Hb).
  - assert (Hk : k = length sts - 1) by lia.
    rewrite lookup_app_r in Hb by lia.
    replace (S k - length sts) with 0 in Hb by lia. injection Hb as <-.
    rewrite Hk, (last_lookup_default sts 0 Hne) in Ha. injection Ha as <-. exact Hy.
Qed.

Lemma expand_keeps h inp mtch s0 sts str :
  goodEntry h mtch s0 (sts, str) ->
  forall prevs queue cnt,
    (forall y, y ∈ prevs -> y ∈ prev (deref h (List.last sts 0))) ->
    Forall (goodEntry h mtch s0) queue ->
    match expand h inp sts str prevs queue cnt with
    | inl (Found p) =>
        exists rest, p = mtch :: rest /\ rest <> [] /\ chained h p /\
                     fold_left (nextSymString h) rest s0 = inp
    | inl _ => True
    | inr (queue', _) => Forall (goodEntry h mtch s0) queue'
    end.
Proof.
  intros (rest & Hsts & Hchain & Hstr). simpl in Hsts, Hchain, Hstr.
  induction prevs as [|y prevs IH]; intros queue cnt Hprevs Hq; simpl; [exact Hq|].
  assert (Hnew : goodEntry h mtch s0 (sts ++ [y], nextSymString h str y)).
  { exists (rest ++ [y]). simpl. split; [rewrite Hsts; reflexivity|]. split.
    - apply chained_snoc; [rewrite Hsts; discriminate | exact Hchain | apply Hprevs; left].
    - rewrite fold_left_app, <- Hstr. reflexivity. }
  destruct (String.eqb (nextSymString h str y) inp) eqn:Heq.
  - apply String.eqb_eq in Heq. destruct Hnew as (rest' & H1 & H2 & H3). simpl in H1, H2, H3.
    exists rest'. split; [exact H1|]. split; [|split; [exact H2 | congruence]].
    intros ->. rewrite Hsts in H1. destruct rest; simpl in H1; discriminate.
  - destruct (DERIVATION_LIMIT <? cnt + 1)%N; [exact I|].
    apply IH.
    + intros z Hz. apply Hprevs. right. exact Hz.
    + apply Forall_app. split; [exact Hq | constructor; [exact Hnew | constructor]].
Qed.

Lemma search_keeps h inp mtch s0 :
  forall fuel queue cnt p,
    Forall (goodEntry h mtch s0) queue ->
    search fuel h inp queue cnt = Some (Found p) ->
    exists rest, p = mtch :: rest /\ rest <> [] /\ chained h p /\
                 fold_left (nextSymString h) rest s0 = inp.
Proof.
  induction fuel as [|fuel IH]; intros queue cnt p Hq Hrun; [discriminate|].
  simpl in Hrun. destruct queue as [|[sts str] queue]; [discriminate|].
  inversion Hq as [|e q He Hq']; subst.
  pose proof (expand_keeps h inp mtch s0 sts str He
                (prev (deref h (List.last sts 0))) queue cnt (fun y Hy => Hy) Hq') as Hexp.
  destruct (expand h inp sts str (prev (deref h (List.last sts 0))) queue cnt)
    as [e|[queue' cnt']].
  - injection Hrun as ->. exact Hexp.
  - apply (IH queue' cnt' p Hexp Hrun).
Qed.

Lemma found_path (h : list State) (mtch : ref) (inp : string) :
  getDerivation h mtch inp <> [] ->
  exists rest,
    getDerivation h mtch inp = mtch :: rest /\ rest <> [] /\
    chained h (mtch :: rest) /\
    fold_left (nextSymString h) rest (SymArray_toString (symArray (deref h mtch)))
      = escapeHTML inp.
Proof.
  unfold getDerivation, derivationSearch. intros Hne.
  destruct (search search_fuel h (escapeHTML inp)
              [([mtch], SymArray_toString (symArray (deref h mtch)))] 0%N)
    as [[p| |]|] eqn:Hrun; try congruence.
  assert (Hq : Forall (goodEntry h mtch (SymArray_toString (symArray (deref h mtch))))
                 [([mtch], SymArray_toString (symArray (deref h mtch)))]).
  { constructor; [|constructor]. exists []. simpl.
    split; [reflexivity|]. split; [|reflexivity].
    intros k x y _ Hy. destruct k; discriminate. }
  destruct (search_keeps h (escapeHTML inp) mtch _ _ _ _ p Hq Hrun)
    as (rest & -> & Hr & Hc & Hs).
  exists rest. auto.
Qed.

(** X7: a derivation that [getDerivation] returns starts at the match and has
    at least one more State; each State is a back-pointer of the one before
    it; and the string that the search builds along it is the escaped
    input. *)
Theorem getDerivation_path (h : list State) (mtch : ref) (inp : string) :
  getDerivation h mtch inp <> [] ->
  exists rest,
    getDerivation h mtch inp = mtch :: rest /\ rest <> [] /\
    chained h (mtch :: rest) /\
    fold_left (nextSymString h) rest (SymArray_toString (symArray (deref h mtch)))
      = escapeHTML inp.
Proof. exact (found_path h mtch inp). Qed.

Lemma getDerivation_path_witness :
  exists rest,
    getDerivation (heap (chart_of grammar_0XX "01")) 72 "01" = 72 :: rest /\ rest <> [] /\
    chained (heap (chart_of grammar_0XX "01")) (72 :: rest) /\
    fold_left (nextSymString (heap (chart_of grammar_0XX "01"))) rest
      (SymArray_toString (symArray (deref (heap (chart_of grammar_0XX "01")) 72)))
      = escapeHTML "01".
Proof.
  apply (getDerivation_path (heap (chart_of grammar_0XX "01")) 72 "01").
  vm_compute. discriminate.
Defined.

(** ** Replacing the last nonterminal *)

Lemma replaceLastNonterminal_loop_spec symbols l ins :
  forall n, n <= length symbols ->
    (exists i X, i < n /\ symbols !! i = Some X /\
                 isTerminal X = false /\ Symbol_equals X l = true /\
                 (forall j Y, i < j -> j < n -> symbols !! j = Some Y ->
                              negb (isTerminal Y) && Symbol_equals Y l = false) /\
                 replaceLastNonterminal_loop symbols l ins n
                   = take i symbols ++ ins ++ drop (S i) symbols) \/
    ((forall j Y, j < n -> symbols !! j = Some Y ->
                  negb (isTerminal Y) && Symbol_equals Y l = false) /\
     replaceLastNonterminal_loop symbols l ins n = symbols).
Proof.
  induction n as [|n IH]; intros Hn; simpl.
  - right. split; [intros j Y Hj; lia | reflexivity].
  - destruct (symbols !! n) as [X|] eqn:HX;
      [|apply lookup_ge_None in HX; lia].
    destruct (negb (isTerminal X) && Symbol_equals X l) eqn:Htest.
    + left. apply andb_true_iff in Htest as [Ht He]. apply negb_true_iff in Ht.
      exists n, X. split; [lia|]. split; [exact HX|]. split; [exact Ht|]. split; [exact He|].
      split; [intros j Y Hj1 Hj2; lia | reflexivity].
    + destruct (IH ltac:(lia)) as [(i & X' & Hi & HX' & Ht & He & Hlast & Hres)|[Hnone Hres]].
      * left. exists i, X'. split; [lia|]. split; [exact HX'|]. split; [exact Ht|].
        split; [exact He|]. split; [|exact Hres].
        intros j Y Hj1 Hj2 HY. destruct (decide (j = n)) as [->|Hne].
        -- rewrite HX in HY. injection HY as <-. exact Htest.
        -- apply (Hlast j Y Hj1 ltac:(lia) HY).
      * right. split; [|exact Hres].
        intros j Y Hj HY. destruct (decide (j = n)) as [->|Hne].
        -- rewrite HX in HY. injection HY as <-. exact Htest.
        -- apply (Hnone j Y ltac:(lia) HY).
Qed.

(** X10: [replaceLastNonterminal] puts [insertArray] in the place of the last
    occurrence of the nonterminal, and leaves a SymArray without such an
    occurrence as it is. *)
Theorem replaceLastNonterminal_spec (pre post : list Symbol) (X l : Symbol)
    (insertArray symArray0 : list Symbol) :
  (isTerminal X = false -> Symbol_equals X l = true ->
   Forall (fun Y => negb (isTerminal Y) && Symbol_equals Y l = false) post ->
   replaceLastNonterminal (pre ++ X :: post) l insertArray = pre ++ insertArray ++ post) /\
  (Forall (fun Y => negb (isTerminal Y) && Symbol_equals Y l = false) symArray0 ->
   replaceLastNonterminal symArray0 l insertArray = symArray0).
Proof.
  split.
  - intros Ht He Hpost. unfold replaceLastNonterminal.
    set (a := pre ++ X :: post).
    assert (HXa : a !! length pre = Some X) by (apply list_lookup_middle; reflexivity).
    assert (Hafter : forall j Y, length pre < j -> a !! j = Some Y ->
                       negb (isTerminal Y) && Symbol_equals Y l = false).
    { intros j Y Hj HY. unfold a in HY. rewrite lookup_app_r in HY by lia.
      destruct (j - length pre) as [|k] eqn:Hk; [lia|]. simpl in HY.
      rewrite Forall_forall in Hpost. apply Hpost.
      apply (list_elem_of_lookup_2 _ _ _ HY). }
    destruct (replaceLastNonterminal_loop_spec a l insertArray (length a) (le_n _))
      as [(i & X' & Hi & HX' & Ht' & He' & Hlast & ->)|[Hnone _]].
    + assert (Hii : i = length pre).
      { destruct (Nat.lt_trichotomy i (length pre)) as [Hlt|[Heq|Hgt]]; [|exact Heq|].
        - pose proof (Hlast (length pre) X Hlt ltac:(apply lookup_lt_Some in HXa; exact HXa)
                        HXa) as Hf.
          rewrite Ht, He in Hf. discriminate.
        - pose proof (Hafter i X' Hgt HX') as Hf. rewrite Ht', He' in Hf. discriminate. }
      subst i. unfold a. rewrite take_app_length.
      replace (S (length pre)) with (length pre + 1) by lia.
      rewrite <- drop_drop, drop_app_length. reflexivity.
    + pose proof (Hnone (length pre) X ltac:(apply lookup_lt_Some in HXa; exact HXa) HXa)
        as Hf.
      rewrite Ht, He in Hf. discriminate.
  - intros Hall. unfold replaceLastNonterminal.
    destruct (replaceLastNonterminal_loop_spec symArray0 l insertArray (length symArray0)
                (le_n _))
      as [(i & X' & Hi & HX' & Ht' & He' & _ & _)|[_ Hres]]; [|exact Hres].
    rewrite Forall_forall in Hall.
    pose proof (Hall X' (list_elem_of_lookup_2 _ _ _ HX')) as Hf.
    rewrite Ht', He' in Hf. discriminate.
Qed.

Lemma replaceLastNonterminal_spec_witness :
  replaceLastNonterminal ([Sym "0" true; Sym "X" false] ++ Sym "X" false :: [Sym "1" true])
    (Sym "X" false) [Sym "1" true]
  = [Sym "0" true; Sym "X" false] ++ [Sym "1" true] ++ [Sym "1" true].
Proof.
  apply (replaceLastNonterminal_spec [Sym "0" true; Sym "X" false] [Sym "1" true]
           (Sym "X" false) (Sym "X" false) [Sym "1" true] []);
    [reflexivity | reflexivity | repeat constructor].
Defined.

(** ** Strings as lists of characters *)

Lemma append_cons c s1 s2 : String c s1 +:+ s2 = String c (s1 +:+ s2).
Proof. reflexivity. Qed.

Lemma chars_app s1 s2 :
  list_ascii_of_string (s1 +:+ s2) = list_ascii_of_string s1 ++ list_ascii_of_string s2.
Proof.
  induction s1 as [|c s1 IH]; [reflexivity|].
  rewrite append_cons. cbn. rewrite IH. reflexivity.
Qed.

Lemma chars_substring s :
  forall n m, list_ascii_of_string (String.substring n m s)
              = take m (drop n (list_ascii_of_string s)).
Proof.
  induction s as [|c s IH]; intros [|n] [|m]; cbn; try reflexivity.
  - rewrite IH. rewrite drop_0. reflexivity.
  - apply IH.
  - apply IH.
Qed.

Lemma chars_inj s1 s2 : list_ascii_of_string s1 = list_ascii_of_string s2 -> s1 = s2.
Proof.
  intros H. rewrite <- (string_of_list_ascii_of_string s1), H.
  apply string_of_list_ascii_of_string.
Qed.

Lemma prefix_char c s :
  String.prefix (String c "") s = match s with
                                  | String x _ => Ascii.eqb c x
                                  | EmptyString => false
                                  end.
Proof.
  destruct s as [|x s]; [reflexivity|]. cbn.
  destruct (ascii_dec c x) as [->|Hne].
  - rewrite Ascii.eqb_refl. destruct s; reflexivity.
  - destruct (Ascii.eqb c x) eqn:He; [apply Ascii.eqb_eq in He; contradiction | reflexivity].
Qed.

(** [lastIndexOf] of a string of one character. *)
Lemma lastIndexOf_from_char c s :
  forall i found,
    match lastIndexOf_from s (String c "") i found with
    | Some k =>
        (i <= k /\ list_ascii_of_string s !! (k - i) = Some c /\
         forall j, k - i < j -> list_ascii_of_string s !! j <> Some c) \/
        (found = Some k /\ c ∉ list_ascii_of_string s)
    | None => found = None /\ c ∉ list_ascii_of_string s
    end.
Proof.
  induction s as [|x s IH]; intros i found.
  - cbn. destruct found as [k|].
    + right. split; [reflexivity | apply not_elem_of_nil].
    + split; [reflexivity | apply not_elem_of_nil].
  - cbn [lastIndexOf_from]. rewrite prefix_char. cbn [list_ascii_of_string].
    specialize (IH (S i) (if Ascii.eqb c x then Some i else found)).
    destruct (lastIndexOf_from s (String c "") (S i)
                (if Ascii.eqb c x then Some i else found)) as [k|].
    + destruct IH as [(Hk & Hc & Hlast)|[Hf Hnot]].
      * left. split; [lia|]. replace (k - i) with (S (k - S i)) by lia. split; [exact Hc|].
        intros j Hj. destruct j as [|j]; [lia|]. simpl. apply Hlast. lia.
      * destruct (Ascii.eqb c x) eqn:He.
        -- apply Ascii.eqb_eq in He. subst x. injection Hf as <-. left.
           rewrite Nat.sub_diag. split; [lia|]. split; [reflexivity|].
           intros j Hj. destruct j as [|j]; [lia|]. simpl. intros Hin.
           apply Hnot. apply (list_elem_of_lookup_2 _ _ _ Hin).
        -- right. split; [exact Hf|]. intros Hin. apply elem_of_cons in Hin as [->|Hin].
           ++ rewrite Ascii.eqb_refl in He. discriminate.
           ++ contradiction.
    + destruct IH as [Hf Hnot]. destruct (Ascii.eqb c x) eqn:He; [discriminate|].
      split; [exact Hf|]. intros Hin. apply elem_of_cons in Hin as [->|Hin].
      * rewrite Ascii.eqb_refl in He. discriminate.
      * contradiction.
Qed.

Lemma replaceStr_char s c ins :
  (forall i, list_ascii_of_string s !! i = Some c ->
     (forall j, i < j -> list_ascii_of_string s !! j <> Some c) ->
     list_ascii_of_string (replaceLastNonterminalStr s (String c "") ins)
     = take i (list_ascii_of_string s) ++ list_ascii_of_string ins
         ++ drop (S i) (list_ascii_of_string s)) /\
  (c ∉ list_ascii_of_string s -> replaceLastNonterminalStr s (String c "") ins = s).
Proof.
  unfold replaceLastNonterminalStr, lastIndexOf.
  pose proof (lastIndexOf_from_char c s 0 None) as H.
  destruct (lastIndexOf_from s (String c "") 0 None) as [k|].
  - destruct H as [(_ & Hc & Hlast)|[Hf _]]; [|discriminate].
    rewrite Nat.sub_0_r in Hc, Hlast. split.
    + intros i Hi Hafter.
      assert (Hik : i = k).
      { destruct (Nat.lt_trichotomy i k) as [Hlt|[Heq|Hgt]]; [|exact Heq|].
        - destruct (Hafter k Hlt Hc).
        - destruct (Hlast i Hgt Hi). }
      subst i. rewrite !chars_app, !chars_substring, drop_0.
      replace (k + 1) with (S k) by lia. f_equal. f_equal.
      apply take_ge. rewrite length_drop, length_chars. lia.
    + intros Hnot. exfalso. apply Hnot. apply (list_elem_of_lookup_2 _ _ _ Hc).
  - destruct H as [_ Hnot]. split; [|reflexivity].
    intros i Hi _. exfalso. apply Hnot. apply (list_elem_of_lookup_2 _ _ _ Hi).
Qed.

Lemma plainSym_ch X : plainSym X -> ch X = String (charOf X) "" /\ Symbol_toString X = ch X.
Proof.
  intros [Hne Hesc]. destruct X as [|c t]; [congruence|]. simpl in *.
  split; [reflexivity|]. unfold Symbol_toString. simpl. rewrite Hesc. reflexivity.
Qed.

Lemma chars_render a : Forall plainSym a -> list_ascii_of_string (render a) = map charOf a.
Proof.
  induction 1 as [|X a HX _ IH]; [reflexivity|].
  cbn [render fold_right map]. rewrite chars_app. fold (render a). rewrite IH.
  destruct (plainSym_ch X HX) as [H1 H2]. rewrite H2, H1. reflexivity.
Qed.

Lemma replaceStr_agrees (a ins : list Symbol) (l : Symbol) :
  Forall plainSym a -> Forall plainSym ins -> plainSym l -> isTerminal l = false ->
  (forall Y, Y ∈ a -> ch Y = ch l -> Y = l) ->
  replaceLastNonterminalStr (render a) (Symbol_toString l) (render ins)
  = render (replaceLastNonterminal a l ins).
Proof.
  intros Ha Hins Hl Ht Hcol.
  destruct (plainSym_ch l Hl) as [Hch Hts]. rewrite Hts, Hch.
  destruct (replaceStr_char (render a) (charOf l) (render ins)) as [Hfound Hnone].
  rewrite chars_render in Hfound, Hnone by exact Ha.
  assert (Htest : forall Y, Y ∈ a -> negb (isTerminal Y) && Symbol_equals Y l = false ->
                            charOf Y <> charOf l).
  { intros Y HY Hf Hc. rewrite Forall_forall in Ha.
    destruct (plainSym_ch Y (Ha Y HY)) as [HchY _].
    assert (HYl : Y = l) by (apply (Hcol Y HY); rewrite HchY, Hch, Hc; reflexivity).
    subst Y. rewrite Ht in Hf. simpl in Hf.
    assert (Symbol_equals l l = true) by (apply Symbol_equals_spec; reflexivity). congruence. }
  unfold replaceLastNonterminal.
  destruct (replaceLastNonterminal_loop_spec a l ins (length a) (le_n _))
    as [(i & X & Hi & HX & HtX & HeX & Hlast & ->)|[Hall ->]].
  - apply Symbol_equals_eq in HeX. subst X. apply chars_inj.
    rewrite (Hfound i).
    + rewrite (chars_render ins Hins), (chars_render (take i a ++ ins ++ drop (S i) a)).
      * rewrite !map_app, <- firstn_map, <- skipn_map. reflexivity.
      * apply Forall_app. split; [apply Forall_take; exact Ha|].
        apply Forall_app. split; [exact Hins | apply Forall_drop; exact Ha].
    + rewrite list_lookup_fmap, HX. reflexivity.
    + intros j Hj. rewrite list_lookup_fmap.
      destruct (a !! j) as [Y|] eqn:HY; [|discriminate]. simpl. intros [= Hc].
      apply (Htest Y (list_elem_of_lookup_2 _ _ _ HY)); [|exact Hc].
      apply (Hlast j Y Hj (lookup_lt_Some _ _ _ HY) HY).
  - apply Hnone. intros Hin. apply list_elem_of_fmap in Hin as (Y & Hc & HY).
    apply list_elem_of_lookup_1 in HY as [j Hj].
    apply (Htest Y (list_elem_of_lookup_2 _ _ _ Hj)); [|congruence].
    apply (Hall j Y (lookup_lt_Some _ _ _ Hj) Hj).
Qed.

(** X11: for Symbols with plain characters, none of them at once a terminal and
    a nonterminal, the replacement in the string that [getDerivation] does
    is the replacement in the SymArray that [formatDerivation] does. *)
Theorem replaceLastNonterminalStr_agrees (a ins : list Symbol) (l : Symbol) :
  Forall plainSym a -> Forall plainSym ins -> plainSym l -> isTerminal l = false ->
  (forall Y, Y ∈ a -> ch Y = ch l -> Y = l) ->
  replaceLastNonterminalStr (render a) (Symbol_toString l) (render ins)
  = render (replaceLastNonterminal a l ins).
Proof. exact (replaceStr_agrees a ins l). Qed.

Lemma replaceLastNonterminalStr_agrees_witness :
  replaceLastNonterminalStr (render [Sym "0" true; Sym "X" false; Sym "X" false])
    (Symbol_toString (Sym "X" false)) (render [Sym "1" true])
  = render (replaceLastNonterminal [Sym "0" true; Sym "X" false; Sym "X" false]
              (Sym "X" false) [Sym "1" true]).
Proof.
  apply (replaceLastNonterminalStr_agrees [Sym "0" true; Sym "X" false; Sym "X" false]
           [Sym "1" true] (Sym "X" false)).
  - repeat constructor; discriminate.
  - repeat constructor; discriminate.
  - split; [discriminate | reflexivity].
  - reflexivity.
  - intros Y HY Hch. rewrite !elem_of_cons in HY.
    destruct HY as [->|[->|[->|HY]]]; [discriminate | reflexivity | reflexivity | inversion HY].
Defined.

(** ** The derivation that is shown *)

Lemma doesMatch_result g inp w0 w' path :
  doesMatch g inp w0 = Ret (Some path) w' ->
  exists mtch, mtch ∈ states w' !!! String.length inp /\
               State_isCompleteParse (deref (heap w') mtch) = true /\
               path = getDerivation (heap w') mtch inp.
Proof.
  intros Hrun. destruct (doesMatch_chart g inp w0 _ w' Hrun) as (_ & Hin & _).
  unfold doesMatch, doesMatchFuel, bind in Hrun.
  destruct (buildChart (fuelBound g inp) g inp w0) as [u w| |]; try discriminate.
  unfold finish in Hrun. destruct (findCompleteParse w) as [mtch|] eqn:Hf; [|discriminate].
  injection Hrun as <- <-. exists mtch.
  unfold findCompleteParse in Hf. apply find_some in Hf as [Hm Hp].
  rewrite Hin in Hm. split; [apply list_elem_of_In; exact Hm|]. split; [exact Hp | reflexivity].
Qed.

Lemma filter_complete_head h mtch rest :
  State_isComplete (deref h mtch) = true ->
  List.filter (fun r => State_isComplete (deref h r)) (mtch :: rest)
  = mtch :: List.filter (fun r => State_isComplete (deref h r)) rest.
Proof. intros Hc. simpl. rewrite Hc. reflexivity. Qed.

Lemma length_formatDerivation_loop h sts : forall a,
  length (formatDerivation_loop h sts a) = length sts.
Proof. induction sts as [|r sts IH]; intros a; simpl; [reflexivity | rewrite IH; reflexivity]. Qed.

(** X9: [formatDerivation] does not throw on a derivation that [doesMatch]
    returns: its first State is the complete parse State.  There is one row
    for each complete State of the path. *)
Theorem formatDerivation_defined (g : Grammar) (inp : string) (w0 w' : World)
    (path : list ref) :
  doesMatch g inp w0 = Ret (Some path) w' -> path <> [] ->
  exists rows,
    formatDerivation (heap w') path = Some rows /\
    length rows
    = length (List.filter (fun r => State_isComplete (deref (heap w') r)) path).
Proof.
  intros Hrun Hne.
  destruct (doesMatch_result g inp w0 w' path Hrun) as (mtch & _ & Hparse & ->).
  destruct (found_path (heap w') mtch inp Hne) as (rest & -> & _).
  apply andb_true_iff in Hparse as [_ Hc].
  unfold formatDerivation. rewrite (filter_complete_head _ _ _ Hc).
  eexists. split; [reflexivity|]. simpl. rewrite length_formatDerivation_loop. reflexivity.
Qed.

Lemma formatDerivation_defined_witness :
  exists rows,
    formatDerivation (heap (chart_of grammar_0XX "01")) [72; 67; 70; 66; 44] = Some rows /\
    length rows
    = length (List.filter
                (fun r => State_isComplete (deref (heap (chart_of grammar_0XX "01")) r))
                [72; 67; 70; 66; 44]).
Proof.
  apply (formatDerivation_defined grammar_0XX "01" empty_world (chart_of grammar_0XX "01")
           [72; 67; 70; 66; 44]).
  - apply (doesMatch_Ret _ _ _ 20); [lia | vm_compute; reflexivity].
  - discriminate.
Defined.

Lemma render_insert (a : list Symbol) :
  match a with [] => "" | _ => SymArray_toString a end = render a.
Proof. destruct a; reflexivity. Qed.

Lemma last_cons_default {A} (x d : A) (l : list A) : List.last (x :: l) d = List.last l x.
Proof.
  revert x d. induction l as [|y l IH]; intros x d; [reflexivity|].
  change (List.last (x :: y :: l) d) with (List.last (y :: l) d).
  rewrite (IH y d), (IH y x). reflexivity.
Qed.

Lemma escapeChar_head c :
  escapeChar c = String c "" \/ exists t, escapeChar c = String "&"%char t.
Proof.
  unfold escapeChar.
  destruct (Ascii.eqb c "&"); [right; eauto|].
  destruct (Ascii.eqb c "<"); [right; eauto|].
  destruct (Ascii.eqb c ">"); [right; eauto|].
  destruct (Ascii.eqb c (ascii_of_nat 160)); [right; eauto | left; reflexivity].
Qed.

(** An escaped string without escapes is the string itself. *)
Lemma escapeHTML_plain inp :
  forall t, Forall (fun c => escapeChar c = String c "") t ->
            list_ascii_of_string (escapeHTML inp) = t -> list_ascii_of_string inp = t.
Proof.
  induction inp as [|c inp IH]; intros t Ht Heq; [exact Heq|].
  cbn [escapeHTML] in Heq. rewrite chars_app in Heq.
  destruct (escapeChar_head c) as [Hc|[u Hc]]; rewrite Hc in Heq; cbn in Heq.
  - destruct t as [|c' t]; [discriminate|]. injection Heq as <- Heq.
    apply Forall_cons in Ht as [_ Hl]. cbn. f_equal. apply (IH t Hl Heq).
  - destruct t as [|c' t]; [discriminate|]. injection Heq as <- _.
    apply Forall_cons in Ht as [Hx _]. discriminate.
Qed.

Lemma derives_symbols g a b :
  derives g a b -> forall X, X ∈ b -> X ∈ a \/ X ∈ concat (altsOf g).
Proof.
  unfold derives. induction 1 as [a|a b c Hstep _ IH]; intros X HX; [left; exact HX|].
  destruct (IH X HX) as [Hb|Hg]; [|right; exact Hg].
  destruct Hstep as [u Y v production alt Ht Hprod Halt].
  rewrite !elem_of_app in Hb. rewrite elem_of_app, elem_of_cons.
  destruct Hb as [Hu|[Ha|Hv]]; [left; left; exact Hu | | left; right; right; exact Hv].
  right. apply list_elem_of_In, in_concat. exists alt.
  split; [apply list_elem_of_In, (altsOf_lookup g _ production alt Hprod Halt)
         | apply list_elem_of_In; exact Ha].
Qed.

Lemma stepwise_cons g a b forms :
  derives_step g a b \/ b = a -> stepwise g (b :: forms) -> stepwise g (a :: b :: forms).
Proof.
  intros Hab Hrest k x y Hx Hy. destruct k as [|k].
  - simpl in Hx, Hy. injection Hx as <-. injection Hy as <-. exact Hab.
  - apply (Hrest k x y Hx Hy).
Qed.

(** The strings of [getDerivation] and the forms of [formatDerivation] go
    together along a path. *)
Lemma replay_forms g h :
  plainGrammar g ->
  forall rest a,
    Forall (fun X => X ∈ startSymbol g :: concat (altsOf g)) a ->
    (forall x, x ∈ rest -> State_isComplete (deref h x) = true ->
       lhs (deref h x) ∈ startSymbol g :: concat (altsOf g) /\
       isTerminal (lhs (deref h x)) = false /\
       Forall (fun X => X ∈ startSymbol g :: concat (altsOf g)) (symArray (deref h x)) /\
       exists production, productions g !! ch (lhs (deref h x)) = Some production /\
                          symArray (deref h x) ∈ rhs production) ->
    fold_left (nextSymString h) rest (render a)
    = render (List.last
                (sententialForms h
                   (List.filter (fun r => State_isComplete (deref h r)) rest) a) a) /\
    Forall (fun X => X ∈ startSymbol g :: concat (altsOf g))
      (List.last
         (sententialForms h (List.filter (fun r => State_isComplete (deref h r)) rest) a) a) /\
    stepwise g
      (a :: sententialForms h (List.filter (fun r => State_isComplete (deref h r)) rest) a).
Proof.
  intros [Hplain Hcol].
  assert (Hp : forall l, Forall (fun X => X ∈ startSymbol g :: concat (altsOf g)) l ->
                         Forall plainSym l).
  { intros l Hl. rewrite Forall_forall in *. intros X HX. apply Hplain, Hl, HX. }
  induction rest as [|x rest IH]; intros a Ha Hrest.
  - simpl. split; [reflexivity|]. split; [exact Ha|].
    intros k u v Hu Hv. destruct k; discriminate.
  - cbn [fold_left List.filter]. unfold nextSymString at 2.
    destruct (State_isComplete (deref h x)) eqn:Hc.
    + destruct (Hrest x (list_elem_of_here x rest) Hc) as (Hl & Ht & Halt & production & Hprod & Hin).
      rewrite render_insert.
      rewrite (replaceStr_agrees a (symArray (deref h x)) (lhs (deref h x))
                 (Hp a Ha) (Hp _ Halt)
                 ltac:(rewrite Forall_forall in Hplain; apply Hplain, Hl) Ht
                 ltac:(intros Y HY Hch; rewrite Forall_forall in Ha;
                       apply (Hcol Y _ (Ha Y HY) Hl Hch))).
      cbn [sententialForms]. rewrite last_cons_default.
      set (a' := replaceLastNonterminal a (lhs (deref h x)) (symArray (deref h x))).
      assert (Hstep : (derives_step g a a' \/ a' = a) /\
                      Forall (fun X => X ∈ startSymbol g :: concat (altsOf g)) a').
      { unfold a', replaceLastNonterminal.
        destruct (replaceLastNonterminal_loop_spec a (lhs (deref h x)) (symArray (deref h x))
                    (length a) (le_n _))
          as [(i & X & Hi & HX & HtX & HeX & _ & ->)|[_ ->]]; [|split; [right; reflexivity | exact Ha]].
        apply Symbol_equals_eq in HeX. subst X. split.
        - left. rewrite <- (take_drop_middle a i _ HX) at 1.
          apply (derives_step_intro g _ _ _ production _ Ht Hprod Hin).
        - apply Forall_app. split; [apply Forall_take; exact Ha|].
          apply Forall_app. split; [exact Halt | apply Forall_drop; exact Ha]. }
      destruct Hstep as [Hstep Ha'].
      destruct (IH a' Ha' (fun y Hy => Hrest y (list_elem_of_further y x rest Hy)))
        as (H1 & H2 & H3).
      split; [exact H1|]. split; [exact H2|]. apply stepwise_cons; assumption.
    + apply (IH a Ha (fun y Hy => Hrest y (list_elem_of_further y x rest Hy))).
Qed.

Lemma chained_inChart g w path :
  Inv g w -> chained (heap w) path ->
  forall mtch rest, path = mtch :: rest -> inChart w mtch ->
  forall k x, path !! k = Some x -> inChart w x.
Proof.
  intros HI Hc mtch rest -> Hm. induction k as [|k IH]; intros x Hx.
  - simpl in Hx. injection Hx as <-. exact Hm.
  - destruct ((mtch :: rest) !! k) as [y|] eqn:Hy.
    + apply (inv_prev _ _ HI y (IH y eq_refl)), (Hc k y x Hy Hx).
    + apply lookup_ge_None in Hy. apply lookup_lt_Some in Hx. lia.
Qed.

Lemma formatDerivation_loop_forms h sts :
  forall a,
    map snd (formatDerivation_loop h sts a)
    = map (fun a => SymArray_toStringWith a true (Some Symbol_BOLD)) (sententialForms h sts a).
Proof.
  induction sts as [|r sts IH]; intros a; [reflexivity|].
  cbn [formatDerivation_loop sententialForms map snd]. f_equal. apply IH.
Qed.

(** X8: what is shown for a match.  The first row shows the constant
    [<strong>S</strong>], whatever the start symbol is; the rows after it
    show, in order, the forms [formatDerivation] goes through after the
    first.  These forms are a derivation of the input in the grammar: they
    start with the start symbol, end with the input, and each follows from
    the one before it by a rule of the grammar (or repeats it).  So when the
    start symbol is [S], as it is on the page, the rows show this derivation
    from its first form on. *)
Theorem shown_derivation_is_valid (g : Grammar) (inp : string) (w0 w' : World)
    (path : list ref) :
  plainGrammar g ->
  doesMatch g inp w0 = Ret (Some path) w' -> path <> [] ->
  (exists rows,
     formatDerivation (heap w') path = Some rows /\
     map snd rows
     = "<strong>S</strong>"
         :: map (fun a => SymArray_toStringWith a true (Some Symbol_BOLD))
                (tl (derivationForms (heap w') path)) /\
     (startSymbol g = Sym "S" false ->
      map snd rows
      = map (fun a => SymArray_toStringWith a true (Some Symbol_BOLD))
            (derivationForms (heap w') path))) /\
  head (derivationForms (heap w') path) = Some [startSymbol g] /\
  List.last (derivationForms (heap w') path) [] = sentence inp /\
  stepwise g (derivationForms (heap w') path).
Proof.
  intros Hplain Hrun Hne.
  assert (Hstart : START_LHS ∉ startSymbol g :: concat (altsOf g)).
  { intros Hin. destruct Hplain as [Hp _]. rewrite Forall_forall in Hp.
    destruct (Hp _ Hin) as [Hn _]. congruence. }
  pose proof (match_derives g inp w0 w' path Hstart Hrun) as Hder.
  destruct (doesMatch_chart g inp w0 _ w' Hrun) as (HI & Hin & (HS & _ & HP) & _ & _).
  destruct (doesMatch_result g inp w0 w' path Hrun) as (mtch & Hm & Hparse & ->).
  destruct (found_path (heap w') mtch inp Hne) as (rest & Hpath & _ & Hchain & Hstr).
  rewrite Hpath.
  apply andb_true_iff in Hparse as [Hhas Hc].
  assert (Hmc : inChart w' mtch) by apply (bucket_elem_inChart w' _ mtch Hm).
  assert (Hitems : forall p x, x ∈ states w' !!! p ->
            (lhs (deref (heap w') x) = START_LHS /\
             symArray (deref (heap w') x) = [startSymbol g]) \/
            (lhs (deref (heap w') x) <> START_LHS /\
             isTerminal (lhs (deref (heap w') x)) = false /\
             exists production,
               productions g !! ch (lhs (deref (heap w') x)) = Some production /\
               symArray (deref (heap w') x) ∈ rhs production)).
  { intros p x Hx. pose proof (HS p x Hx) as Hj. unfold justified in Hj.
    destruct (earley_derives g _ Hstart _ _ _ _ _ Hj) as (_ & _ & _ & [(H1 & H2 & _)|H] & _);
      [left; auto | right; exact H]. }
  assert (Hma : symArray (deref (heap w') mtch) = [startSymbol g]).
  { destruct (Hitems _ mtch Hm) as [[_ H]|[H _]]; [exact H|].
    unfold State_hasStart in Hhas. destruct (lhs (deref (heap w') mtch)); [congruence | discriminate]. }
  assert (Hrest : forall x, x ∈ rest -> State_isComplete (deref (heap w') x) = true ->
            lhs (deref (heap w') x) ∈ startSymbol g :: concat (altsOf g) /\
            isTerminal (lhs (deref (heap w') x)) = false /\
            Forall (fun X => X ∈ startSymbol g :: concat (altsOf g))
                   (symArray (deref (heap w') x)) /\
            exists production,
              productions g !! ch (lhs (deref (heap w') x)) = Some production /\
              symArray (deref (heap w') x) ∈ rhs production).
  { intros x Hx Hcx. apply list_elem_of_lookup_1 in Hx as [k Hk].
    assert (Hxk : (mtch :: rest) !! S k = Some x) by exact Hk.
    destruct ((mtch :: rest) !! k) as [y|] eqn:Hy;
      [|apply lookup_ge_None in Hy; apply lookup_lt_Some in Hxk; lia].
    pose proof (chained_inChart g w' _ HI Hchain mtch rest eq_refl Hmc k y Hy) as Hyc.
    pose proof (chained_inChart g w' _ HI Hchain mtch rest eq_refl Hmc (S k) x Hxk) as Hxc.
    apply elem_of_concat in Hyc as (q & b & Hb & Hyb).
    rewrite <- (bucket_lookup _ _ _ Hb) in Hyb.
    pose proof (HP q y x Hyb (Hchain k y x Hy Hxk) Hcx) as Hl.
    apply elem_of_concat in Hxc as (q' & b' & Hb' & Hxb).
    pose proof (inv_shape _ _ HI q' b' x Hb' Hxb) as (_ & Ha & _).
    rewrite <- (bucket_lookup _ _ _ Hb') in Hxb.
    split; [exact Hl|].
    destruct (Hitems q' x Hxb) as [[H _]|(_ & Ht & Hprod)];
      [rewrite H in Hl; contradiction|].
    split; [exact Ht|]. split; [|exact Hprod].
    rewrite Forall_forall. intros X HX. apply (altU_symbols g _ X Ha HX). }
  assert (Ha0 : Forall (fun X => X ∈ startSymbol g :: concat (altsOf g)) [startSymbol g]).
  { constructor; [left | constructor]. }
  destruct (replay_forms g (heap w') Hplain rest [startSymbol g] Ha0 Hrest)
    as (Hreplay & Hlast & Hsteps).
  unfold derivationForms, formatDerivation.
  rewrite (filter_complete_head _ _ _ Hc), Hma.
  set (sts := List.filter (fun r => State_isComplete (deref (heap w') r)) rest) in *.
  split; [|split; [reflexivity|split; [|exact Hsteps]]].
  - eexists. split; [reflexivity|]. cbn [map snd tl]. split.
    + f_equal. apply formatDerivation_loop_forms.
    + intros ->. f_equal. apply formatDerivation_loop_forms.
  - rewrite last_cons_default.
    rewrite Hma in Hstr. change (SymArray_toString [startSymbol g]) with (render [startSymbol g]) in Hstr.
    rewrite Hreplay in Hstr.
    set (final := List.last (sententialForms (heap w') sts [startSymbol g]) [startSymbol g]) in *.
    destruct Hplain as [Hp Hcol].
    pose proof (proj1 (Forall_forall _ _) Hp) as Hp'.
    pose proof (proj1 (Forall_forall _ _) Hlast) as Hlast'.
    assert (Hfp' : forall X, X ∈ final -> plainSym X).
    { intros X HX. apply Hp', Hlast', HX. }
    assert (Hfp : Forall plainSym final) by (apply Forall_forall; exact Hfp').
    pose proof (chars_render final Hfp) as Hchars. rewrite Hstr in Hchars.
    apply escapeHTML_plain in Hchars.
    2:{ apply Forall_forall. intros c Hc'. apply list_elem_of_fmap in Hc' as (X & -> & HX).
        apply (Hfp' X HX). }
    unfold sentence. rewrite Hchars, map_map.
    rewrite <- (map_id final) at 1. apply map_ext_in. intros X HX.
    apply list_elem_of_In in HX.
    assert (Hsent : Sym (charOf X) true ∈ sentence inp).
    { unfold sentence. rewrite Hchars, map_map. apply list_elem_of_In, in_map_iff.
      exists X. split; [reflexivity | apply list_elem_of_In; exact HX]. }
    destruct (plainSym_ch X (Hfp' X HX)) as [HchX _].
    destruct (derives_symbols g _ _ Hder _ Hsent) as [H|H].
    + apply list_elem_of_singleton in H.
      apply (Hcol X _ (Hlast' X HX)); [rewrite <- H; left | rewrite HchX; reflexivity].
    + apply (Hcol X _ (Hlast' X HX)); [right; exact H | rewrite HchX; reflexivity].
Qed.

Lemma shown_derivation_is_valid_witness :
  List.last (derivationForms (heap (chart_of grammar_0XX "01")) [72; 67; 70; 66; 44]) []
    = sentence "01" /\
  stepwise grammar_0XX
    (derivationForms (heap (chart_of grammar_0XX "01")) [72; 67; 70; 66; 44]).
Proof.
  destruct (shown_derivation_is_valid grammar_0XX "01" empty_world
              (chart_of grammar_0XX "01") [72; 67; 70; 66; 44]) as (_ & _ & H3 & H4).
  - split.
    + apply Forall_forall. intros X HX. rewrite list_elem_of_In in HX. vm_compute in HX.
      destruct HX as [<-|[<-|[<-|[<-|[<-|[]]]]]]; (split; [discriminate | reflexivity]).
    + intros X Y HX HY. rewrite list_elem_of_In in HX, HY. vm_compute in HX, HY.
      destruct HX as [<-|[<-|[<-|[<-|[<-|[]]]]]];
        destruct HY as [<-|[<-|[<-|[<-|[<-|[]]]]]]; intros Hch;
        first [reflexivity | discriminate Hch].
  - apply (doesMatch_Ret _ _ _ 20); [lia | vm_compute; reflexivity].
  - discriminate.
  - split; assumption.
Defined.

(** ** Advancing the dot *)



(** ** Grammars read off the page *)

Lemma altsOf_elem g alt :
  alt ∈ altsOf g <-> exists k q, productions g !! k = Some q /\ alt ∈ rhs q.
Proof.
  split.
  - unfold altsOf. intros H. apply list_elem_of_In, in_concat in H as (l & Hl & Ha).
    apply in_map_iff in Hl as ([k q] & <- & Hkq).
    apply list_elem_of_In, elem_of_map_to_list in Hkq.
    exists k, q. split; [exact Hkq | apply list_elem_of_In; exact Ha].
  - intros (k & q & Hq & Ha). apply (altsOf_lookup g k q alt Hq Ha).
Qed.

Lemma readProduction_shape nts c rules :
  p_lhs (readProduction nts c rules) = Sym c false /\
  forall alt, alt ∈ rhs (readProduction nts c rules) ->
              exists str, alt = readRule nts str.
Proof.
  unfold readProduction.
  destruct (fold_addArray (map (readRule nts) rules) (mkProduction (Sym c false) []))
    as (H1 & _ & H3 & _).
  split; [exact H1|]. intros alt Ha. apply H3 in Ha as [Ha|Ha]; [inversion Ha|].
  apply list_elem_of_In, in_map_iff in Ha as (str & <- & _). eauto.
Qed.

Lemma readRows_shape nts rows p :
  p ∈ readRows nts rows ->
  exists c, c ∈ readNonterminals rows /\ p_lhs p = Sym c false /\
            forall alt, alt ∈ rhs p -> exists str, alt = readRule nts str.
Proof.
  unfold readRows, readNonterminals. intros Hp.
  apply list_elem_of_omap in Hp as (row & Hrow & Hsome).
  destruct (row_nt row) as [c|] eqn:Hc; [|discriminate]. injection Hsome as <-.
  exists c. split; [apply list_elem_of_omap; eauto|].
  apply readProduction_shape.
Qed.

Lemma readRows_covers nts rows c :
  c ∈ readNonterminals rows -> exists p, p ∈ readRows nts rows /\ p_lhs p = Sym c false.
Proof.
  unfold readRows, readNonterminals. intros Hc.
  apply list_elem_of_omap in Hc as (row & Hrow & Hsome).
  exists (readProduction nts c (row_rules row)). split.
  - apply list_elem_of_omap. exists row. split; [exact Hrow|]. rewrite Hsome. reflexivity.
  - apply readProduction_shape.
Qed.

Lemma readGrammar_built rows g :
  readGrammar rows = Some g ->
  exists c0, c0 ∈ readNonterminals rows /\
             g = built (Sym c0 false) (readRows (readNonterminals rows) rows).
Proof.
  unfold readGrammar. destruct rows as [|first rows']; [discriminate|].
  destruct (row_nt first) as [c0|] eqn:Hc0; [|discriminate].
  intros H. exists c0. split.
  - unfold readNonterminals. apply list_elem_of_omap. exists first. split; [left | exact Hc0].
  - unfold built. congruence.
Qed.

(** The Symbols of a grammar read off the page: a character is a
    nonterminal exactly when a row has it in its nonterminal field. *)
Lemma readGrammar_symbols rows g :
  readGrammar rows = Some g ->
  (forall X, X ∈ startSymbol g :: concat (altsOf g) ->
     exists c, X = Sym c (negb (bool_decide (c ∈ readNonterminals rows)))) /\
  (forall c, c ∈ readNonterminals rows -> is_Some (productions g !! String c "")).
Proof.
  intros Hread. destruct (readGrammar_built rows g Hread) as (c0 & H0 & ->).
  set (nts := readNonterminals rows) in *.
  destruct (built_keys (Sym c0 false) (readRows nts rows)) as (Hs & _ & _ & Hdom & Hrhs).
  split.
  - intros X HX. apply elem_of_cons in HX as [->|HX].
    + rewrite Hs. exists c0. rewrite bool_decide_eq_true_2 by exact H0. reflexivity.
    + apply list_elem_of_In, in_concat in HX as (alt & Halt & HX).
      apply list_elem_of_In, altsOf_elem in Halt as (k & q & Hq & Ha).
      destruct (Hrhs k q Hq) as [_ Hall]. apply Hall in Ha as (p & Hp & _ & Ha).
      destruct (readRows_shape nts rows p Hp) as (_ & _ & _ & Hshape).
      destruct (Hshape alt Ha) as (str & ->).
      unfold readRule in HX. apply in_map_iff in HX as (c & <- & _). eauto.
  - intros c Hc. apply Hdom.
    destruct (readRows_covers nts rows c Hc) as (p & Hp & Hl).
    exists p. split; [exact Hp | rewrite Hl; reflexivity].
Qed.

(** X6: a grammar read off the page has a Production for each of its
    nonterminals, no character that is both a terminal and a nonterminal,
    and a nonterminal for its start symbol. *)
Theorem readGrammar_wellformed (rows : list Row) (g : Grammar) :
  readGrammar rows = Some g ->
  allDefined g /\
  isTerminal (startSymbol g) = false /\
  (START_LHS ∉ startSymbol g :: concat (altsOf g)) /\
  (forall X Y, X ∈ startSymbol g :: concat (altsOf g) ->
               Y ∈ startSymbol g :: concat (altsOf g) -> ch X = ch Y -> X = Y).
Proof.
  intros Hread. destruct (readGrammar_symbols rows g Hread) as [Hsym Hprod].
  split; [|split; [|split]].
  - intros X HX Ht. destruct (Hsym X HX) as (c & ->). simpl in *.
    apply negb_false_iff, bool_decide_eq_true_1 in Ht. apply Hprod, Ht.
  - destruct (readGrammar_built rows g Hread) as (c0 & _ & ->).
    rewrite (proj1 (built_keys (Sym c0 false) _)). reflexivity.
  - intros HX. destruct (Hsym _ HX) as (c & Hc). discriminate.
  - intros X Y HX HY Hch. destruct (Hsym X HX) as (c & ->). destruct (Hsym Y HY) as (c' & ->).
    simpl in Hch. injection Hch as <-. reflexivity.
Qed.

Lemma readGrammar_wellformed_witness :
  allDefined (built (Sym "S" false)
                (readRows ["S"%char; "T"%char]
                   [mkRow (Some "S"%char) "T+T" []; mkRow (Some "T"%char) "1" ["2"]])).
Proof.
  apply (readGrammar_wellformed
           [mkRow (Some "S"%char) "T+T" []; mkRow (Some "T"%char) "1" ["2"]]).
  reflexivity.
Defined.

(** X5: on a grammar read off the page [doesMatch] does not throw, and what it
    returns is a match exactly when the input is a sentence of the
    grammar. *)
Theorem page_grammar_is_decided (rows : list Row) (g : Grammar) (inp : string) (w0 : World) :
  readGrammar rows = Some g ->
  exists result w',
    doesMatch g inp w0 = Ret result w' /\
    (result <> None <-> derives g [startSymbol g] (sentence inp)).
Proof.
  intros Hread. destruct (readGrammar_symbols rows g Hread) as [Hsym Hprod].
  assert (Hdef : allDefined g).
  { intros X HX Ht. destruct (Hsym X HX) as (c & ->). simpl in *.
    apply negb_false_iff, bool_decide_eq_true_1 in Ht. apply Hprod, Ht. }
  assert (Hstart : START_LHS ∉ startSymbol g :: concat (altsOf g)).
  { intros HX. destruct (Hsym _ HX) as (c & Hc). discriminate. }
  destruct (doesMatch_returns g inp w0 Hdef) as (result & w' & Hrun).
  exists result, w'. split; [exact Hrun|]. split.
  - intros Hne. destruct result as [path|]; [|congruence].
    apply (match_derives g inp w0 w' path Hstart Hrun).
  - intros Hder. destruct (sentence_matches g inp w0 Hdef Hder) as (path & w'' & Hrun').
    rewrite Hrun in Hrun'. injection Hrun' as -> _. discriminate.
Qed.

Lemma page_grammar_is_decided_witness :
  exists result w',
    doesMatch (built (Sym "S" false)
                 (readRows ["S"%char; "T"%char]
                    [mkRow (Some "S"%char) "T+T" []; mkRow (Some "T"%char) "1" ["2"]]))
      "1+2" empty_world = Ret result w' /\
    (result <> None <->
     derives (built (Sym "S" false)
                (readRows ["S"%char; "T"%char]
                   [mkRow (Some "S"%char) "T+T" []; mkRow (Some "T"%char) "1" ["2"]]))
       [Sym "S" false] (sentence "1+2")).
Proof.
  apply (page_grammar_is_decided
           [mkRow (Some "S"%char) "T+T" []; mkRow (Some "T"%char) "1" ["2"]]).
  reflexivity.
Defined.
